(** * GraphTools: topology transformations over the NetworKit graph

    A shallow embedding of [networkit/cpp/graph/GraphTools.cpp] and of the
    part of the graph storage engine ([Graph]) that it calls, followed by
    the properties of the transformations.  Embedded are the degree
    queries, [copyNodes], [subgraphFromNodes], [transpose], [append],
    [merge], the continuous and the random continuous node ids with their
    inverse, [getCompactedGraph] and [restoreGraph]; the conversions
    [toUndirected], [toUnweighted] and [toWeighted] are not: each is a call
    of a copy constructor of the engine, which is not part of the source.

    Conventions.
    - [node], [index], [count] and [edgeid] are [uint64_t] in the code.  Every
      value of these types that occurs here is an index into, or the size of,
      a vector held in memory, so no counter can reach 2^64; they are
      modelled as [nat].
    - [edgeweight] is [double]; weights are only stored and handed on, never
      computed with.  They are modelled by the primitive binary64 floats.
    - [std::unordered_set<node>] is [gset nat] and
      [std::unordered_map<node,node>] is [gmap nat nat].
    - A loop over a container whose body updates a graph is a left fold that
      passes the graph along. *)

From Stdlib Require Import Floats.PrimFloat.
From Stdlib Require Import Strings.String.
From stdpp Require Import base numbers option list list_numbers sorting fin_maps gmap.

Abbreviation node := nat (only parsing).
Abbreviation index := nat (only parsing).
Abbreviation count := nat (only parsing).
Abbreviation edgeid := nat (only parsing).
Abbreviation edgeweight := float (only parsing).

(** [defaultEdgeWeight = 1.0]: the weight of every edge of an unweighted
    graph, and of an edge added without a weight. *)
Definition defaultEdgeWeight : edgeweight := 1%float.

(** ** The graph storage engine *)

(** Modelled from the spec: the adjacency tuple of the data model,
    [(neighbor, weight, optional edge id)].  The class [Graph] of
    [networkit/graph/Graph.hpp] is missing from the source; GraphTools.cpp
    only calls it. *)
Record Adj : Type := mkAdj {
  neighbor : node;
  weight : edgeweight;
  edgeId : option edgeid
}.

(** Modelled from the spec: the Graph value of the data model (section 3):
    the id bound, the node-existence markers over [[0, upperNodeIdBound)],
    the two flags, the per-node out-adjacency (and, if directed, the
    independent in-adjacency), the aggregate counters, and the edge-id bound
    with the flag that says whether edges are indexed.  The fields carry the
    names of the accessors the transformations call. *)
Record Graph : Type := mkGraphRecord {
  numberOfNodes : count;
  numberOfEdges : count;
  numberOfSelfLoops : count;
  upperNodeIdBound : node;
  upperEdgeIdBound : edgeid;
  isWeighted : bool;
  isDirected : bool;
  hasEdgeIds : bool;
  exists_ : list bool;
  outEdges : list (list Adj);
  inEdges : list (list Adj)
}.

(** Field updates. *)
Definition withNumberOfNodes (f : count → count) (g : Graph) : Graph :=
  mkGraphRecord (f (numberOfNodes g)) (numberOfEdges g) (numberOfSelfLoops g)
    (upperNodeIdBound g) (upperEdgeIdBound g) (isWeighted g) (isDirected g)
    (hasEdgeIds g) (exists_ g) (outEdges g) (inEdges g).

Definition withExists (f : list bool → list bool) (g : Graph) : Graph :=
  mkGraphRecord (numberOfNodes g) (numberOfEdges g) (numberOfSelfLoops g)
    (upperNodeIdBound g) (upperEdgeIdBound g) (isWeighted g) (isDirected g)
    (hasEdgeIds g) (f (exists_ g)) (outEdges g) (inEdges g).

Definition withOutEdges (f : list (list Adj) → list (list Adj)) (g : Graph) : Graph :=
  mkGraphRecord (numberOfNodes g) (numberOfEdges g) (numberOfSelfLoops g)
    (upperNodeIdBound g) (upperEdgeIdBound g) (isWeighted g) (isDirected g)
    (hasEdgeIds g) (exists_ g) (f (outEdges g)) (inEdges g).

Definition withInEdges (f : list (list Adj) → list (list Adj)) (g : Graph) : Graph :=
  mkGraphRecord (numberOfNodes g) (numberOfEdges g) (numberOfSelfLoops g)
    (upperNodeIdBound g) (upperEdgeIdBound g) (isWeighted g) (isDirected g)
    (hasEdgeIds g) (exists_ g) (outEdges g) (f (inEdges g)).

(** Modelled from the spec: [Graph(n, weighted, directed)], a graph of [n]
    existing nodes [0 .. n-1] without edges and without edge ids; an
    undirected graph keeps no in-adjacency. *)
Definition newGraph (n : count) (weighted directed : bool) : Graph :=
  mkGraphRecord n 0 0 n 0 weighted directed false
    (replicate n true) (replicate n []) (if directed then replicate n [] else []).

(** *** Queries *)

(** Modelled from the spec: node existence is a predicate over
    [[0, upperNodeIdBound)]; an id outside the range is no node. *)
Definition hasNode (g : Graph) (v : node) : bool :=
  bool_decide (v < upperNodeIdBound g) && bool_decide (exists_ g !! v = Some true).

(** Modelled from the spec: the adjacency records of a node.  The in-adjacency
    of an undirected graph is its out-adjacency.  A node that holds no record
    has none. *)
Definition outAdj (g : Graph) (u : node) : list Adj := default [] (outEdges g !! u).

Definition inAdj (g : Graph) (u : node) : list Adj :=
  if isDirected g then default [] (inEdges g !! u) else outAdj g u.

Definition degreeOut (g : Graph) (u : node) : count := length (outAdj g u).
Definition degreeIn (g : Graph) (u : node) : count := length (inAdj g u).

(** What an iteration hands to its callback for one adjacency record: the
    stored weight if the graph is weighted and the default weight otherwise;
    the stored id if the edges are indexed and no id otherwise. *)
Definition weightIn (g : Graph) (a : Adj) : edgeweight :=
  if isWeighted g then weight a else defaultEdgeWeight.

Definition idIn (g : Graph) (a : Adj) : option edgeid :=
  if hasEdgeIds g then edgeId a else None.

(** Modelled from the spec: edge existence, [hasEdge(u, v)]: both ids are
    below the bound and [v] is among the out-neighbours of [u]. *)
Definition hasEdge (g : Graph) (u v : node) : bool :=
  bool_decide (u < upperNodeIdBound g) && bool_decide (v < upperNodeIdBound g)
  && bool_decide (v ∈ neighbor <$> outAdj g u).

(** *** Ordered iteration *)

(** The existing node ids in ascending order. *)
Definition nodes (g : Graph) : list node :=
  filter (λ v, hasNode g v = true) (seq 0 (upperNodeIdBound g)).

(** Modelled from the spec: [forNodes], ordered iteration over the nodes.
    The loop runs over the id range and tests existence when it reaches an
    id, so a callback that marks a later id as a hole on the iterated graph
    itself makes the loop skip it: the state [s] carries the iterated graph,
    which [view] reads.  None of the callbacks used here changes the bound. *)
Definition forNodes {S : Type} (view : S → Graph) (handle : node → S → S) (s : S) : S :=
  foldl (λ s v, if hasNode (view s) v then handle v s else s) s
        (seq 0 (upperNodeIdBound (view s))).

(** [forNodes] over a graph that the callback does not touch. *)
Definition forNodesOf {S : Type} (g : Graph) (handle : node → S → S) (s : S) : S :=
  foldl (λ s v, handle v s) s (nodes g).

(** Modelled from the spec: iteration over the out-edges of [u]
    ([forEdgesOf], [forNeighborsOf]) and over its in-edges ([forInEdgesOf]),
    in adjacency order; the callback gets [(v, weight, id)]. *)
Definition forEdgesOf {S : Type} (g : Graph) (u : node)
    (handle : node → edgeweight → option edgeid → S → S) (s : S) : S :=
  foldl (λ s a, handle (neighbor a) (weightIn g a) (idIn g a) s) s (outAdj g u).

Definition forInEdgesOf {S : Type} (g : Graph) (u : node)
    (handle : node → edgeweight → option edgeid → S → S) (s : S) : S :=
  foldl (λ s a, handle (neighbor a) (weightIn g a) (idIn g a) s) s (inAdj g u).

Definition forNeighborsOf {S : Type} (g : Graph) (u : node)
    (handle : node → S → S) (s : S) : S :=
  forEdgesOf g u (λ v _ _, handle v) s.

Definition neighborRange (g : Graph) (u : node) : list node := neighbor <$> outAdj g u.
Definition inNeighborRange (g : Graph) (u : node) : list node := neighbor <$> inAdj g u.

(** An undirected edge sits in the adjacency of both endpoints; the iteration
    over all edges reports it from the endpoint with the larger id. *)
Definition useEdgeInIteration (g : Graph) (u v : node) : bool :=
  isDirected g || bool_decide (v ≤ u).

(** The edges [(u, v, weight, id)] that the iteration over all edges reports
    at source [u], and over the whole graph, in order. *)
Definition edgesAt (g : Graph) (u : node) : list (node * node * edgeweight * option edgeid) :=
  omap (λ a, if useEdgeInIteration g u (neighbor a)
             then Some (u, neighbor a, weightIn g a, idIn g a) else None)
       (outAdj g u).

Definition edgesWithIds (g : Graph) : list (node * node * edgeweight * option edgeid) :=
  mbind (edgesAt g) (seq 0 (upperNodeIdBound g)).

Definition edges (g : Graph) : list (node * node * edgeweight) :=
  (λ e, (e.1.1.1, e.1.1.2, e.1.2)) <$> edgesWithIds g.

(** Modelled from the spec: [forEdges], ordered iteration over the edges. *)
Definition forEdges {S : Type} (g : Graph)
    (handle : node → node → edgeweight → S → S) (s : S) : S :=
  foldl (λ s e, handle e.1.1 e.1.2 e.2 s) s (edges g).

(** *** Mutation primitives *)

(** Modelled from the spec: add node; the new node gets the id
    [upperNodeIdBound], which goes up by one. *)
Definition addNode (g : Graph) : Graph * node :=
  (mkGraphRecord (S (numberOfNodes g)) (numberOfEdges g) (numberOfSelfLoops g)
     (S (upperNodeIdBound g)) (upperEdgeIdBound g) (isWeighted g) (isDirected g)
     (hasEdgeIds g) (exists_ g ++ [true]) (outEdges g ++ [[]])
     (if isDirected g then inEdges g ++ [[]] else inEdges g),
   upperNodeIdBound g).

(** Modelled from the spec: remove node (mark hole).  Every call in
    GraphTools.cpp removes a node that has no incident edge. *)
Definition removeNode (v : node) (g : Graph) : Graph :=
  withNumberOfNodes pred (withExists (<[v := false]>) g).

(** Modelled from the spec: restore node (un-mark hole). *)
Definition restoreNode (v : node) (g : Graph) : Graph :=
  withNumberOfNodes S (withExists (<[v := true]>) g).

(** The record that a graph stores for an edge to [v]: an unweighted graph
    stores no weight and a graph without edge ids stores no id. *)
Definition record (g : Graph) (v : node) (w : edgeweight) (id : option edgeid) : Adj :=
  mkAdj v (if isWeighted g then w else defaultEdgeWeight)
          (if hasEdgeIds g then id else None).

Definition pushBack (u : node) (a : Adj) (adj : list (list Adj)) : list (list Adj) :=
  alter (λ l, l ++ [a]) u adj.

(** Modelled from the spec: add a one-sided ("partial") edge record without
    updating aggregate counters. *)
Definition addPartialOutEdge (u v : node) (w : edgeweight) (id : option edgeid)
    (g : Graph) : Graph :=
  withOutEdges (pushBack u (record g v w id)) g.

Definition addPartialInEdge (u v : node) (w : edgeweight) (id : option edgeid)
    (g : Graph) : Graph :=
  withInEdges (pushBack u (record g v w id)) g.

(** Modelled from the spec: add edge (with optional weight).  The edge goes
    to the out-adjacency of [u] and, if the graph is directed, to the
    in-adjacency of [v]; if it is undirected and no self-loop, to the
    adjacency of [v] as well.  The edge count goes up by one, the self-loop
    count too for a self-loop, and an indexed graph gives the edge the next
    edge id. *)
Definition addEdge (u v : node) (w : edgeweight) (g : Graph) : Graph :=
  let id := if hasEdgeIds g then Some (upperEdgeIdBound g) else None in
  mkGraphRecord (numberOfNodes g) (S (numberOfEdges g))
    (if bool_decide (u = v) then S (numberOfSelfLoops g) else numberOfSelfLoops g)
    (upperNodeIdBound g)
    (if hasEdgeIds g then S (upperEdgeIdBound g) else upperEdgeIdBound g)
    (isWeighted g) (isDirected g) (hasEdgeIds g) (exists_ g)
    (if isDirected g || bool_decide (u = v)
     then pushBack u (record g v w id) (outEdges g)
     else pushBack v (record g u w id) (pushBack u (record g v w id) (outEdges g)))
    (if isDirected g then pushBack v (record g u w id) (inEdges g) else inEdges g).

(** Modelled from the spec: pre-size a node's adjacency capacity.  Capacity
    is no part of the graph value. *)
Definition preallocateDirected (u : node) (outEdgeCount inEdgeCount : count)
    (g : Graph) : Graph := g.

(** Modelled from the spec: bulk-set the aggregate counters. *)
Definition setEdgeCount (edges : count) (g : Graph) : Graph :=
  mkGraphRecord (numberOfNodes g) edges (numberOfSelfLoops g)
    (upperNodeIdBound g) (upperEdgeIdBound g) (isWeighted g) (isDirected g)
    (hasEdgeIds g) (exists_ g) (outEdges g) (inEdges g).

Definition setNumberOfSelfLoops (loops : count) (g : Graph) : Graph :=
  mkGraphRecord (numberOfNodes g) (numberOfEdges g) loops
    (upperNodeIdBound g) (upperEdgeIdBound g) (isWeighted g) (isDirected g)
    (hasEdgeIds g) (exists_ g) (outEdges g) (inEdges g).

Definition setUpperEdgeIdBound (newBound : edgeid) (g : Graph) : Graph :=
  mkGraphRecord (numberOfNodes g) (numberOfEdges g) (numberOfSelfLoops g)
    (upperNodeIdBound g) newBound (isWeighted g) (isDirected g)
    (hasEdgeIds g) (exists_ g) (outEdges g) (inEdges g).

(** Modelled from the spec: enable edge indexing.  Every edge gets an id, in
    the order of the iteration over all edges, starting at 0; the records of
    the other direction take the id of the edge they mirror.  A graph whose
    edges are indexed already is left as it is. *)
Fixpoint indexAdj (g : Graph) (u : node) (next : edgeid) (l : list Adj) : list Adj * edgeid :=
  match l with
  | [] => ([], next)
  | a :: l =>
      if useEdgeInIteration g u (neighbor a)
      then let r := indexAdj g u (S next) l in
           (mkAdj (neighbor a) (weight a) (Some next) :: r.1, r.2)
      else let r := indexAdj g u next l in (a :: r.1, r.2)
  end.

Fixpoint indexOut (g : Graph) (u : node) (next : edgeid) (adj : list (list Adj))
    : list (list Adj) * edgeid :=
  match adj with
  | [] => ([], next)
  | l :: adj =>
      let r := indexAdj g u next l in
      let r' := indexOut g (S u) r.2 adj in
      (r.1 :: r'.1, r'.2)
  end.

Definition edgeIdOf (adj : list (list Adj)) (u v : node) : option edgeid :=
  a ← list_find (λ a, neighbor a = v) (default [] (adj !! u)); edgeId a.2.

Definition indexEdges (g : Graph) : Graph :=
  if hasEdgeIds g then g else
  let r := indexOut g 0 0 (outEdges g) in
  let mirror (u : node) (a : Adj) :=
    mkAdj (neighbor a) (weight a) (edgeIdOf r.1 (neighbor a) u) in
  mkGraphRecord (numberOfNodes g) (numberOfEdges g) (numberOfSelfLoops g)
    (upperNodeIdBound g) r.2 (isWeighted g) (isDirected g) true (exists_ g)
    (if isDirected g then r.1
     else imap (λ u l, (λ a, if useEdgeInIteration g u (neighbor a) then a
                             else mirror u a) <$> l) r.1)
    (imap (λ u l, mirror u <$> l) (inEdges g)).

(** ** GraphTools.cpp *)

(** [std::runtime_error], the one exception that GraphTools.cpp throws. *)
Inductive exception : Type :=
  | runtime_error (what : string).

(** The outcome of a call that may throw. *)
Inductive outcome (A : Type) : Type :=
  | Returns (a : A)
  | Throws (e : exception).
Arguments Returns {A} a.
Arguments Throws {A} e.

Module GraphTools.

(** The loop of the default build: a max-reduction over the whole id range
    (the reduction is a fold here; [computeMaxDegree_reduction_order] shows
    that the order of the range does not matter). *)
Definition computeMaxDegree (G : Graph) (inDegree : bool) : count :=
  foldl (λ result u, Nat.max result (if inDegree then degreeIn G u else degreeOut G u))
        0 (seq 0 (upperNodeIdBound G)).

(** The loop of the NETWORKIT_OMP2 build: over the existing nodes only. *)
Definition computeMaxDegree_omp2 (G : Graph) (inDegree : bool) : count :=
  forNodesOf G
    (λ u result, Nat.max result (if inDegree then degreeIn G u else degreeOut G u)) 0.

Definition maxDegree (G : Graph) : count := computeMaxDegree G false.

Definition maxInDegree (G : Graph) : count := computeMaxDegree G true.

Definition copyNodes (G : Graph) : Graph :=
  foldl (λ C u, if negb (hasNode G u) then removeNode u C else C)
        (newGraph (upperNodeIdBound G) (isWeighted G) (isDirected G))
        (seq 0 (upperNodeIdBound G)).

(** The neighbour set that the first lambda of [subgraphFromNodes] builds. *)
Definition subgraphNeighbors (G : Graph) (nodes : gset node)
    (includeOutNeighbors includeInNeighbors : bool) : gset node :=
  if negb includeOutNeighbors && negb includeInNeighbors then ∅ else
  foldl (λ neighbors u,
           let neighbors :=
             if includeOutNeighbors
             then foldl (λ nb v, {[v]} ∪ nb) neighbors (neighborRange G u)
             else neighbors in
           if includeInNeighbors
           then foldl (λ nb v, {[v]} ∪ nb) neighbors (inNeighborRange G u)
           else neighbors)
        ∅ (elements nodes).

(** The relevance score: 2 in the node set, 1 a relevant neighbour, 0 neither. *)
Definition isRelevantNode (nodes neighbors : gset node) (u : node) : nat :=
  if bool_decide (u ∈ nodes) then 2
  else if negb (bool_decide (neighbors = ∅)) && bool_decide (u ∈ neighbors) then 1
  else 0.

Definition subgraphFromNodes (G : Graph) (nodes : gset node)
    (includeOutNeighbors includeInNeighbors : bool) : Graph :=
  let neighbors := subgraphNeighbors G nodes includeOutNeighbors includeInNeighbors in
  let S := newGraph (upperNodeIdBound G) (isWeighted G) (isDirected G) in
  (* delete all nodes that are not in the node set *)
  let S := forNodes id
             (λ u S, if bool_decide (isRelevantNode nodes neighbors u = 0)
                     then removeNode u S else S) S in
  forEdges G
    (λ u v w S, if bool_decide (2 < isRelevantNode nodes neighbors u
                                    + isRelevantNode nodes neighbors v)
                then addEdge u v w S else S) S.

(** The closing [assert(GTranspose.checkConsistency())] is not part of a
    release build and has no effect on what is returned. *)
Definition transpose (G : Graph) : outcome Graph :=
  if negb (isDirected G) then
    Throws (runtime_error
      "The transpose of an undirected graph is identical to the original graph.")
  else
    let GTranspose := newGraph (upperNodeIdBound G) (isWeighted G) true in
    (* prepare edge id storage if input has indexed edges *)
    let GTranspose := if hasEdgeIds G then indexEdges GTranspose else GTranspose in
    let GTranspose :=
      foldl (λ GTranspose u,
               if hasNode G u then
                 let GTranspose :=
                   preallocateDirected u (degreeIn G u) (degreeOut G u) GTranspose in
                 let GTranspose :=
                   forInEdgesOf G u (λ v w id, addPartialOutEdge u v w id) GTranspose in
                 forEdgesOf G u (λ v w id, addPartialInEdge u v w id) GTranspose
               else removeNode u GTranspose)
            GTranspose (seq 0 (upperNodeIdBound G)) in
    let GTranspose := setEdgeCount (numberOfEdges G) GTranspose in
    let GTranspose := setNumberOfSelfLoops (numberOfSelfLoops G) GTranspose in
    let GTranspose := setUpperEdgeIdBound (upperEdgeIdBound G) GTranspose in
    Returns GTranspose.

(** [nodeMap[u]]: [operator[]] of [std::unordered_map] gives the
    value-initialised id 0 for a key that the map lacks. *)
Definition mapAt (nodeMap : gmap node node) (u : node) : node :=
  default 0 (nodeMap !! u).

(** [G] and [G1] are two graphs: the loop over the nodes of [G1] runs while
    [G] grows.  [addEdge] without a weight adds the default weight. *)
Definition append (G G1 : Graph) : Graph :=
  let s := forNodesOf G1
             (λ u '(G, nodeMap), let r := addNode G in (r.1, <[u := r.2]> nodeMap))
             (G, ∅) in
  let G := s.1 in
  let nodeMap := s.2 in
  if isWeighted G then
    forEdges G1 (λ u v ew G, addEdge (mapAt nodeMap u) (mapAt nodeMap v) ew G) G
  else
    forEdges G1
      (λ u v _ G, addEdge (mapAt nodeMap u) (mapAt nodeMap v) defaultEdgeWeight G) G.

Definition merge (G G1 : Graph) : Graph :=
  let G :=
    if bool_decide (upperNodeIdBound G < upperNodeIdBound G1) then
      let prevBound := upperNodeIdBound G in
      let range := seq prevBound (upperNodeIdBound G1 - prevBound) in
      let G := foldl (λ G _, (addNode G).1) G range in
      foldl (λ G i, if negb (hasNode G1 i) then removeNode i G else G) G range
    else G in
  let G :=
    foldl (λ G i, if negb (hasNode G i) && hasNode G1 i then restoreNode i G else G)
          G (seq 0 (upperNodeIdBound G)) in
  forEdges G1 (λ u v w G, if negb (hasEdge G u v) then addEdge u v w G else G) G.

(** Modelled from the spec: the generic "remap graph under an arbitrary id
    function" routine, the template [getRemappedGraph] of GraphTools.hpp,
    which is missing from the source: a graph of [numNodes] nodes with the
    flags of [graph] and, for every edge of [graph], the edge between the
    mapped endpoints with the same weight. *)
Definition getRemappedGraph (graph : Graph) (numNodes : count)
    (oldIdToNew : node → node) : Graph :=
  forEdges graph (λ u v w Gnew, addEdge (oldIdToNew u) (oldIdToNew v) w Gnew)
    (newGraph numNodes (isWeighted graph) (isDirected graph)).

Definition getCompactedGraph (graph : Graph) (nodeIdMap : gmap node node) : Graph :=
  getRemappedGraph graph (size nodeIdMap) (λ u, default 0 (nodeIdMap !! u)).

(** [std::unordered_map::insert]: a key that is present keeps its value. *)
Definition mapInsert (k v : node) (m : gmap node node) : gmap node node :=
  match m !! k with
  | Some _ => m
  | None => <[k := v]> m
  end.

Definition getContinuousNodeIds (graph : Graph) : gmap node node :=
  (forNodesOf graph
     (λ v '(nodeIdMap, continuousId), (mapInsert v continuousId nodeIdMap, S continuousId))
     (∅, 0)).1.

(** [std::shuffle] draws from the process-wide random source; [shuffle] is
    what it makes of the vector of nodes in the call at hand, some
    rearrangement of the vector. *)
Definition getRandomContinuousNodeIds (shuffle : list node → list node)
    (graph : Graph) : gmap node node :=
  let nodes := forNodesOf graph (λ u nodes, nodes ++ [u]) [] in
  let nodes := shuffle nodes in
  (foldl (λ '(nodeIdMap, continuousId) v,
            (mapInsert v continuousId nodeIdMap, S continuousId))
         (∅, 0) nodes).1.

(** The loop over the map runs in the order of the container, which the
    code does not fix; [map_fold] runs in the order of the keys' encoding.
    The function asserts [nodeIdMap.size() == G.numberOfNodes()]; a write
    beyond the array, which is undefined in the code, leaves the array as it
    is here. *)
Definition invertContinuousNodeIds (nodeIdMap : gmap node node) (G : Graph) : list node :=
  let invertedIdMap := replicate (numberOfNodes G + 1) 0 in
  (* store upper node id bound *)
  let invertedIdMap := <[numberOfNodes G := upperNodeIdBound G]> invertedIdMap in
  (* inverted node mapping *)
  map_fold (λ first second invertedIdMap, <[second := first]> invertedIdMap)
           invertedIdMap nodeIdMap.

Definition restoreGraph (invertedIdMap : list node) (G : Graph) : Graph :=
  let Goriginal := newGraph (List.last invertedIdMap 0) (isWeighted G) (isDirected G) in
  (forNodes fst
     (λ u '(Goriginal, current),
        if bool_decide (invertedIdMap !!! current = u) then
          (forNeighborsOf G current
             (λ v Goriginal, addEdge u (invertedIdMap !!! v) defaultEdgeWeight Goriginal)
             Goriginal,
           S current)
        else (removeNode u Goriginal, current))
     (Goriginal, 0)).1.

End GraphTools.

(** ** The invariant of the graph value

    What every graph that the engine hands out satisfies, as far as the
    results below rest on it: the per-node vectors span the id range, the node
    count counts the existing ids, a hole has no adjacency, every adjacency
    record names an existing node, and the adjacency of an undirected graph
    is symmetric. *)

(** How many records of [u] name [v]. *)
Definition adjacencyCount (g : Graph) (u v : node) : nat :=
  length (filter (λ a, neighbor a = v) (outAdj g u)).

Definition wellFormed (g : Graph) : Prop :=
  length (exists_ g) = upperNodeIdBound g
  ∧ length (outEdges g) = upperNodeIdBound g
  ∧ length (inEdges g) = (if isDirected g then upperNodeIdBound g else 0)
  ∧ numberOfNodes g = length (nodes g)
  ∧ Forall (λ u, hasNode g u = false → degreeOut g u = 0 ∧ degreeIn g u = 0)
           (seq 0 (upperNodeIdBound g))
  ∧ Forall (λ u, Forall (λ a, hasNode g (neighbor a) = true) (outAdj g u ++ inAdj g u))
           (seq 0 (upperNodeIdBound g))
  ∧ (isDirected g = false →
     Forall (λ u, Forall (λ a, adjacencyCount g u (neighbor a)
                               = adjacencyCount g (neighbor a) u) (outAdj g u))
            (seq 0 (upperNodeIdBound g))).

Global Instance wellFormed_dec (g : Graph) : Decision (wellFormed g).
Proof. unfold wellFormed. apply _. Defined.

(** ** Graphs of the concrete scenarios *)

(** Nodes {0,1,3}, hole at 2, directed edges 0→1, 1→3, 3→0 (section 8). *)
Definition scenarioGraph : Graph :=
  addEdge 3 0 2.5%float
    (addEdge 1 3 1%float (addEdge 0 1 1%float (removeNode 2 (newGraph 4 true true)))).

(** The same graph with indexed edges. *)
Definition scenarioGraphIndexed : Graph := indexEdges scenarioGraph.

(** Two nodes joined by one undirected edge. *)
Definition oneEdgeGraph : Graph := addEdge 0 1 1%float (newGraph 2 false false).

(** Nodes {0,1,3}, hole at 2, undirected edges {0,1} and {0,3} and a
    self-loop at 3. *)
Definition undirectedScenarioGraph : Graph :=
  addEdge 3 3 1%float
    (addEdge 3 0 1%float (addEdge 0 1 1%float (removeNode 2 (newGraph 4 false false)))).

(** ** Closed forms *)

(** The vector [f 0, ..., f (n-1)]. *)
Definition tabulate {A : Type} (n : nat) (f : nat → A) : list A := f <$> seq 0 n.

(** What an iteration over [G] reads from a record, as a record. *)
Definition observed (G : Graph) (a : Adj) : Adj :=
  mkAdj (neighbor a) (weightIn G a) (idIn G a).

(** The graph that [transpose] returns for a directed graph
    ([transpose_returns]): the adjacency of every existing node with the two
    directions exchanged. *)
Definition transposeResult (G : Graph) : Graph :=
  mkGraphRecord (upperNodeIdBound G
                 - length (filter (λ u, hasNode G u = false) (seq 0 (upperNodeIdBound G))))
    (numberOfEdges G) (numberOfSelfLoops G)
    (upperNodeIdBound G) (upperEdgeIdBound G) (isWeighted G) true (hasEdgeIds G)
    (tabulate (upperNodeIdBound G) (hasNode G))
    (tabulate (upperNodeIdBound G)
       (λ u, if hasNode G u then observed G <$> inAdj G u else []))
    (tabulate (upperNodeIdBound G)
       (λ u, if hasNode G u then observed G <$> outAdj G u else [])).

(** The graph under construction in [transpose] when the loop has handled the
    ids below [k] ([transpose_loop]). *)
Definition transposePrefix (G : Graph) (k : node) : Graph :=
  mkGraphRecord (upperNodeIdBound G - length (filter (λ u, hasNode G u = false) (seq 0 k)))
    0 0 (upperNodeIdBound G) 0 (isWeighted G) true (hasEdgeIds G)
    (tabulate (upperNodeIdBound G) (λ u, if decide (u < k) then hasNode G u else true))
    (tabulate (upperNodeIdBound G)
       (λ u, if decide (u < k)
             then if hasNode G u then observed G <$> inAdj G u else []
             else []))
    (tabulate (upperNodeIdBound G)
       (λ u, if decide (u < k)
             then if hasNode G u then observed G <$> outAdj G u else []
             else [])).

(** The body of the loop of [transpose]. *)
Definition transposeStep (G : Graph) (GTranspose : Graph) (u : node) : Graph :=
  if hasNode G u then
    let GTranspose := preallocateDirected u (degreeIn G u) (degreeOut G u) GTranspose in
    let GTranspose := forInEdgesOf G u (λ v w id, addPartialOutEdge u v w id) GTranspose in
    forEdgesOf G u (λ v w id, addPartialInEdge u v w id) GTranspose
  else removeNode u GTranspose.

(** The graph of [subgraphFromNodes] after the loop that deletes the nodes
    that are not relevant ([subgraphFromNodes_node_loop]) and before the edges
    are added; [relevance] is the score of a node. *)
Definition subgraphNodesOnly (G : Graph) (relevance : node → nat) : Graph :=
  mkGraphRecord
    (upperNodeIdBound G
     - length (filter (λ u, relevance u = 0) (seq 0 (upperNodeIdBound G))))
    0 0 (upperNodeIdBound G) 0 (isWeighted G) (isDirected G) false
    (tabulate (upperNodeIdBound G) (λ u, bool_decide (relevance u ≠ 0)))
    (replicate (upperNodeIdBound G) [])
    (if isDirected G then replicate (upperNodeIdBound G) [] else []).

Definition subgraphNodesPrefix (G : Graph) (relevance : node → nat) (k : node) : Graph :=
  mkGraphRecord
    (upperNodeIdBound G - length (filter (λ u, relevance u = 0) (seq 0 k)))
    0 0 (upperNodeIdBound G) 0 (isWeighted G) (isDirected G) false
    (tabulate (upperNodeIdBound G)
       (λ u, if decide (u < k) then bool_decide (relevance u ≠ 0) else true))
    (replicate (upperNodeIdBound G) [])
    (if isDirected G then replicate (upperNodeIdBound G) [] else []).

(** The three phases of [merge] ([merge_phases]): growing the id range of
    the target along with the holes of the source, restoring the holes of the
    target that are nodes of the source, and adding the missing edges. *)
Definition mergeGrow (G G1 : Graph) : Graph :=
  if bool_decide (upperNodeIdBound G < upperNodeIdBound G1) then
    let prevBound := upperNodeIdBound G in
    let range := seq prevBound (upperNodeIdBound G1 - prevBound) in
    let G := foldl (λ G _, (addNode G).1) G range in
    foldl (λ G i, if negb (hasNode G1 i) then removeNode i G else G) G range
  else G.

Definition mergeRestore (G G1 : Graph) : Graph :=
  foldl (λ G i, if negb (hasNode G i) && hasNode G1 i then restoreNode i G else G)
        G (seq 0 (upperNodeIdBound G)).

Definition mergeEdges (G G1 : Graph) : Graph :=
  forEdges G1 (λ u v w G, if negb (hasEdge G u v) then addEdge u v w G else G) G.

(** [extends G s]: the graph [s] has everything that [G] has: the nodes of
    [G] exist in [s], the adjacency of every node in [s] starts with its
    adjacency in [G], and the flags are the same. *)
Definition extends (G s : Graph) : Prop :=
  upperNodeIdBound G ≤ upperNodeIdBound s
  ∧ isWeighted s = isWeighted G
  ∧ isDirected s = isDirected G
  ∧ hasEdgeIds s = hasEdgeIds G
  ∧ (∀ u, hasNode G u = true → hasNode s u = true)
  ∧ (∀ u, outAdj G u `prefix_of` outAdj s u)
  ∧ (∀ u, inAdj G u `prefix_of` inAdj s u).

(** No record was doubled on the way from [G] to [s]: a node names a
    neighbour as often as in [G], or once if it did not name it in [G]. *)
Definition noDuplicatesAdded (G s : Graph) : Prop :=
  ∀ u v, adjacencyCount s u v = adjacencyCount G u v
         ∨ (adjacencyCount G u v = 0 ∧ adjacencyCount s u v = 1).

Definition symmetricAdjacency (s : Graph) : Prop :=
  isDirected s = false → ∀ u v, adjacencyCount s u v = adjacencyCount s v u.

(** The number of existing nodes below [k]: the dense id of node [k]. *)
Definition rank (G : Graph) (k : node) : nat :=
  length (filter (λ v, hasNode G v = true) (seq 0 k)).

(** The record that [restoreGraph] adds for a record of the graph: the
    neighbour, with the default weight and without an id. *)
Definition restoredAdj (a : Adj) : Adj := mkAdj (neighbor a) defaultEdgeWeight None.

(** The state of the loop of [restoreGraph] over a directed graph [G] when
    the loop has handled the ids below [k]: the restored graph so far and the
    next dense id. *)
Definition restorePrefix (G : Graph) (k : node) (s : Graph * index) : Prop :=
  s.2 = rank G k
  ∧ upperNodeIdBound s.1 = upperNodeIdBound G
  ∧ isDirected s.1 = true
  ∧ hasEdgeIds s.1 = false
  ∧ isWeighted s.1 = isWeighted G
  ∧ length (outEdges s.1) = upperNodeIdBound G
  ∧ (∀ u, u < upperNodeIdBound G →
          hasNode s.1 u = if decide (u < k) then hasNode G u else true)
  ∧ (∀ u, outAdj s.1 u = if decide (u < k) then restoredAdj <$> outAdj G u else []).

(** The body of the loop of [restoreGraph], with the existence test of
    [forNodes]. *)
Definition restoreStep (invertedIdMap : list node) (G : Graph)
    (s : Graph * index) (u : node) : Graph * index :=
  if hasNode s.1 u then
    (λ '(Goriginal, current),
       if bool_decide (invertedIdMap !!! current = u) then
         (forNeighborsOf G current
            (λ v Goriginal, addEdge u (invertedIdMap !!! v) defaultEdgeWeight Goriginal)
            Goriginal,
          S current)
       else (removeNode u Goriginal, current)) s
  else s.

(** How many calls [addEdge (src e) (tgt e)] of a list of calls add an edge
    from [u] to [v]. *)
Definition callsCount {B : Type} (src tgt : B → node) (L : list B) (u v : node) : nat :=
  length (filter (λ e, src e = u ∧ tgt e = v) L).

(** The state of the loop of [restoreGraph] over an undirected graph [G] when
    the loop has handled the ids below [k]: a node below [k] has added its
    neighbours of [G] to its adjacency, and itself to the adjacency of each
    of them. *)
Definition restoreCounts (G : Graph) (k : node) (s : Graph * index) : Prop :=
  s.2 = rank G k
  ∧ upperNodeIdBound s.1 = upperNodeIdBound G
  ∧ isDirected s.1 = false
  ∧ isWeighted s.1 = isWeighted G
  ∧ length (outEdges s.1) = upperNodeIdBound G
  ∧ (∀ u, u < upperNodeIdBound G →
          hasNode s.1 u = if decide (u < k) then hasNode G u else true)
  ∧ (∀ u v, adjacencyCount s.1 u v
            = (if decide (u < k) then adjacencyCount G u v else 0)
              + (if decide (v < k ∧ u ≠ v) then adjacencyCount G v u else 0)).

(** The edges that [append] adds to [G] for the edges of [G1]: the node
    [u] of [G1] gets the id [upperNodeIdBound G + rank G1 u], and the weight
    is that of the edge if [G] is weighted. *)
Definition appendedEdges (G G1 : Graph) : list (node * node * edgeweight) :=
  (λ e, (upperNodeIdBound G + rank G1 e.1.1, upperNodeIdBound G + rank G1 e.1.2,
         if isWeighted G then e.2 else defaultEdgeWeight)) <$> edges G1.

(** How many in-records of [u] name [v]; a directed graph is mirrored if
    every edge sits in the out-adjacency of its source as often as in the
    in-adjacency of its target, as after any sequence of [addEdge]. *)
Definition inAdjacencyCount (g : Graph) (u v : node) : nat :=
  length (filter (λ a, neighbor a = v) (inAdj g u)).

Definition mirrored (g : Graph) : Prop :=
  ∀ u v, adjacencyCount g u v = inAdjacencyCount g v u.

(** The invariant of the aggregate counters (section 3 of the design): the
    edge count is the number of edges that the iteration over the edges
    reports, every undirected edge and every self-loop once, and the
    self-loop count is the number of self-loops among them. *)
Definition countersConsistent (g : Graph) : Prop :=
  numberOfEdges g = length (edges g)
  ∧ numberOfSelfLoops g = length (filter (λ e, e.1.1 = e.1.2) (edges g)).

(** The test of the edge loop of [subgraphFromNodes]. *)
Definition keepsEdge (relevance : node → nat) (u v : node) : bool :=
  bool_decide (2 < relevance u + relevance v).

(** The weight that a graph keeps of a weight it is given. *)
Definition storedWeight (g : Graph) (w : edgeweight) : edgeweight :=
  if isWeighted g then w else defaultEdgeWeight.

(** Reduction of the projections of a graph that is given field by field. *)
Ltac graph_simpl :=
  cbn [numberOfNodes numberOfEdges numberOfSelfLoops upperNodeIdBound upperEdgeIdBound
       isWeighted isDirected hasEdgeIds exists_ outEdges inEdges fst snd].

(** ** Folds *)

Lemma foldl_ext_in {A B : Type} (f g : A → B → A) (l : list B) (a : A) :
  (∀ a x, x ∈ l → f a x = g a x) → foldl f a l = foldl g a l.
Proof.
  revert a. induction l as [|x l IH]; intros a Hfg; [done|]. simpl.
  rewrite Hfg by left. apply IH. intros a' y Hy. apply Hfg. by right.
Qed.

Lemma omap_fmap_compose {A B C : Type} (f : B → option C) (g : A → B) (l : list A) :
  omap f (g <$> l) = omap (λ x, f (g x)) l.
Proof. induction l as [|x l IH]; [done|]. csimpl. by rewrite IH. Qed.

(** A loop whose body leaves the state as it is. *)
Lemma foldl_unchanged {A B : Type} (f : A → B → A) (l : list B) (a : A) :
  (∀ x, x ∈ l → f a x = a) → foldl f a l = a.
Proof.
  induction l as [|x l IH]; intros Hf; [done|]. simpl.
  rewrite Hf by left. apply IH. intros y Hy. apply Hf. by right.
Qed.

(** ** Basic facts about the engine *)

Section engine_facts.
Implicit Types (g : Graph) (u v : node) (adj : list (list Adj)).

Lemma hasNode_lt g v : hasNode g v = true → v < upperNodeIdBound g.
Proof.
  unfold hasNode. intros [H _]%andb_prop. by apply bool_decide_eq_true in H.
Qed.

Lemma elem_of_nodes g v : v ∈ nodes g ↔ hasNode g v = true.
Proof.
  unfold nodes. rewrite list_elem_of_filter, elem_of_seq. split; [tauto|].
  intros H. split; [done|]. apply hasNode_lt in H. lia.
Qed.

Lemma outAdj_ge g u : length (outEdges g) ≤ u → outAdj g u = [].
Proof. intros H. unfold outAdj. by rewrite lookup_ge_None_2. Qed.

Lemma wellFormed_hole_out g u : wellFormed g → hasNode g u = false → outAdj g u = [].
Proof.
  intros (_ & Hout & _ & _ & Hholes & _) Hu.
  destruct (decide (u < upperNodeIdBound g)) as [Hlt|Hge].
  - rewrite Forall_forall in Hholes.
    destruct (Hholes u) as [H _]; [apply elem_of_seq; lia|done|].
    by apply nil_length_inv.
  - apply outAdj_ge. lia.
Qed.

Lemma wellFormed_hole_in g u : wellFormed g → hasNode g u = false → inAdj g u = [].
Proof.
  intros Hwf Hu. pose proof (wellFormed_hole_out g u Hwf Hu) as Ho.
  destruct Hwf as (_ & _ & Hin & _ & Hholes & _).
  destruct (decide (u < upperNodeIdBound g)) as [Hlt|Hge].
  - rewrite Forall_forall in Hholes.
    destruct (Hholes u) as [_ H]; [apply elem_of_seq; lia|done|].
    by apply nil_length_inv.
  - unfold inAdj. destruct (isDirected g); [|done].
    rewrite lookup_ge_None_2; [done|lia].
Qed.
End engine_facts.

(** ** Maximum degree *)

Section max_degree.
Context {A : Type} (f : A → nat).

Lemma foldl_max r0 (l : list A) :
  foldl (λ r u, r `max` f u) r0 l = r0 `max` max_list_with f l.
Proof.
  revert r0. induction l as [|x l IH]; intros r0; simpl; [lia|].
  rewrite IH. lia.
Qed.

Lemma foldl_max_0 (l : list A) :
  foldl (λ r u, r `max` f u) 0 l = max_list_with f l.
Proof. by rewrite foldl_max. Qed.

Lemma max_list_with_filter_zero (P : A → Prop) `{!∀ x, Decision (P x)} (l : list A) :
  (∀ x, x ∈ l → ¬ P x → f x = 0) →
  max_list_with f (filter P l) = max_list_with f l.
Proof.
  induction l as [|x l IH]; intros Hz; [done|].
  rewrite filter_cons. destruct (decide (P x)) as [HP|HP]; simpl.
  - rewrite IH; [done|]. intros y Hy. apply Hz. by right.
  - rewrite IH by (intros y Hy; apply Hz; by right).
    rewrite (Hz x); [done|by left|done].
Qed.

Lemma max_list_with_upper (l : list A) x : x ∈ l → f x ≤ max_list_with f l.
Proof. induction 1; simpl; lia. Qed.

Lemma max_list_with_attained (l : list A) :
  max_list_with f l = 0 ∨ ∃ x, x ∈ l ∧ f x = max_list_with f l.
Proof.
  induction l as [|x l [IH|(y & Hy & IH)]]; simpl; [by left|..].
  - right. exists x. split; [by left|lia].
  - destruct (decide (max_list_with f l ≤ f x)).
    + right. exists x. split; [by left|lia].
    + right. exists y. split; [by right|lia].
Qed.
End max_degree.

Import GraphTools.

Lemma computeMaxDegree_max_list (G : Graph) (inDegree : bool) :
  computeMaxDegree G inDegree
  = max_list_with (if inDegree then degreeIn G else degreeOut G)
                  (seq 0 (upperNodeIdBound G)).
Proof.
  unfold computeMaxDegree.
  rewrite <-(foldl_max_0 (if inDegree then degreeIn G else degreeOut G)).
  apply foldl_ext_in. intros r u _. by destruct inDegree.
Qed.

(** The reduction does not depend on the order in which the workers take the
    ids of the range. *)
Lemma computeMaxDegree_reduction_order (G : Graph) (inDegree : bool) (range : list node) :
  range ≡ₚ seq 0 (upperNodeIdBound G) →
  foldl (λ result u, Nat.max result (if inDegree then degreeIn G u else degreeOut G u))
        0 range
  = computeMaxDegree G inDegree.
Proof.
  intros Hperm. rewrite computeMaxDegree_max_list, <-Hperm.
  rewrite <-(foldl_max_0 (if inDegree then degreeIn G else degreeOut G)).
  apply foldl_ext_in. intros r u _. by destruct inDegree.
Qed.

Lemma computeMaxDegree_omp2_max_list (G : Graph) (inDegree : bool) :
  computeMaxDegree_omp2 G inDegree
  = max_list_with (if inDegree then degreeIn G else degreeOut G) (nodes G).
Proof.
  unfold computeMaxDegree_omp2, forNodesOf.
  rewrite <-(foldl_max_0 (if inDegree then degreeIn G else degreeOut G)).
  apply foldl_ext_in. intros r u _. by destruct inDegree.
Qed.

(** Both builds compute the same number: the holes that the default build
    visits contribute degree 0. *)
Lemma computeMaxDegree_builds_agree (G : Graph) (inDegree : bool) :
  wellFormed G → computeMaxDegree_omp2 G inDegree = computeMaxDegree G inDegree.
Proof.
  intros Hwf. rewrite computeMaxDegree_omp2_max_list, computeMaxDegree_max_list.
  unfold nodes. apply max_list_with_filter_zero.
  intros u _ Hu. apply not_true_is_false in Hu.
  destruct inDegree.
  - unfold degreeIn. by rewrite (wellFormed_hole_in _ _ Hwf Hu).
  - unfold degreeOut. by rewrite (wellFormed_hole_out _ _ Hwf Hu).
Qed.

(** C7: [maxDegree] is the maximum out-degree over the existing nodes and
    [maxInDegree] the maximum in-degree: no existing node has a larger degree,
    and the result is 0 or the degree of an existing node.  The holes that the
    loop over the id range visits do not affect the result (it is what the
    loop over the existing nodes alone computes), and the result is 0 for a
    graph without adjacency records and for the empty graph. *)
Theorem computeMaxDegree_is_maximum (G : Graph) (inDegree : bool) :
  wellFormed G →
  let degree := if inDegree then degreeIn G else degreeOut G in
  let result := computeMaxDegree G inDegree in
  maxDegree G = computeMaxDegree G false
  ∧ maxInDegree G = computeMaxDegree G true
  ∧ (∀ u, hasNode G u = true → degree u ≤ result)
  ∧ (result = 0 ∨ ∃ u, hasNode G u = true ∧ degree u = result)
  ∧ result = computeMaxDegree_omp2 G inDegree
  ∧ ((∀ u, hasNode G u = true → degree u = 0) → result = 0)
  ∧ (upperNodeIdBound G = 0 → result = 0).
Proof.
  intros Hwf degree result.
  assert (Hres : result = max_list_with degree (nodes G)).
  { unfold result. rewrite <-computeMaxDegree_builds_agree by done.
    apply computeMaxDegree_omp2_max_list. }
  split_and!; [done|done|..].
  - intros u Hu. rewrite Hres. apply max_list_with_upper. by apply elem_of_nodes.
  - rewrite Hres.
    destruct (max_list_with_attained degree (nodes G)) as [H0|(u & Hu & Hmax)]; [by left|].
    right. exists u. split; [by apply elem_of_nodes|done].
  - unfold result. by rewrite computeMaxDegree_builds_agree.
  - intros Hzero.
    destruct (max_list_with_attained degree (nodes G)) as [H0|(u & Hu & Hmax)]; [lia|].
    rewrite Hres, <-Hmax. apply Hzero. by apply elem_of_nodes.
  - intros Hz. unfold result. rewrite computeMaxDegree_max_list, Hz. done.
Qed.

Lemma wellFormed_scenarioGraph : wellFormed scenarioGraph.
Proof. apply (bool_decide_unpack _). by vm_compute. Qed.

Lemma computeMaxDegree_is_maximum_witness :
  wellFormed scenarioGraph
  ∧ maxDegree scenarioGraph = 1
  ∧ (∀ u, hasNode scenarioGraph u = true →
          degreeOut scenarioGraph u ≤ computeMaxDegree scenarioGraph false)
  ∧ computeMaxDegree scenarioGraph false = computeMaxDegree_omp2 scenarioGraph false.
Proof.
  pose proof (computeMaxDegree_is_maximum scenarioGraph false wellFormed_scenarioGraph)
    as (_ & _ & Hle & _ & Hsame & _).
  split; [exact wellFormed_scenarioGraph|].
  split; [reflexivity|]. split; [exact Hle|exact Hsame].
Defined.

(** ** Vectors given by a function of the index *)

Section tabulate.
Context {A : Type}.
Implicit Types (f g : nat → A).

Lemma length_tabulate n f : length (tabulate n f) = n.
Proof. unfold tabulate. by rewrite length_fmap, length_seq. Qed.

Lemma lookup_tabulate n f i :
  tabulate n f !! i = if decide (i < n) then Some (f i) else None.
Proof.
  unfold tabulate. rewrite list_lookup_fmap. case_decide.
  - by rewrite lookup_seq_lt.
  - by rewrite lookup_seq_ge by lia.
Qed.

Lemma tabulate_ext n f g : (∀ u, u < n → f u = g u) → tabulate n f = tabulate n g.
Proof.
  intros Hfg. apply list_eq. intros i. rewrite !lookup_tabulate.
  case_decide; [|done]. by rewrite Hfg.
Qed.

Lemma replicate_tabulate n (x : A) : replicate n x = tabulate n (λ _, x).
Proof.
  apply list_eq. intros i. rewrite lookup_tabulate. case_decide.
  - by apply lookup_replicate_2.
  - apply lookup_replicate_None. lia.
Qed.

Lemma alter_tabulate (h : A → A) k n f :
  alter h k (tabulate n f) = tabulate n (λ u, if decide (u = k) then h (f u) else f u).
Proof.
  apply list_eq. intros i. rewrite list_lookup_alter, !lookup_tabulate.
  repeat case_decide; simplify_eq/=; try done; lia.
Qed.

Lemma insert_tabulate k (x : A) n f :
  <[k := x]> (tabulate n f) = tabulate n (λ u, if decide (u = k) then x else f u).
Proof.
  apply list_eq. intros i.
  rewrite list_lookup_insert, !lookup_tabulate, length_tabulate.
  repeat case_decide; simplify_eq/=; try done; try lia.
Qed.

End tabulate.

(** ** Transpose *)

(** C3: [transpose] of an undirected graph, empty or not, does not return a
    graph: it throws the [std::runtime_error] that the caller can catch; for a
    directed graph it returns a graph and throws nothing. *)
Theorem transpose_undirected_throws (G : Graph) :
  (isDirected G = false →
   transpose G = Throws (runtime_error
     "The transpose of an undirected graph is identical to the original graph."))
  ∧ (isDirected G = true → ∃ GTranspose, transpose G = Returns GTranspose)
  ∧ (∀ weighted, ∃ e, transpose (newGraph 0 weighted false) = Throws e).
Proof.
  split_and!.
  - intros Hdir. unfold transpose. by rewrite Hdir.
  - intros Hdir. unfold transpose. rewrite Hdir. simpl. by eexists.
  - intros weighted. by eexists.
Qed.

Lemma transpose_undirected_throws_witness :
  isDirected oneEdgeGraph = false
  ∧ isDirected scenarioGraph = true
  ∧ transpose oneEdgeGraph = Throws (runtime_error
      "The transpose of an undirected graph is identical to the original graph.")
  ∧ ∃ GTranspose, transpose scenarioGraph = Returns GTranspose.
Proof.
  destruct (transpose_undirected_throws oneEdgeGraph) as (Hthrows & _).
  destruct (transpose_undirected_throws scenarioGraph) as (_ & Hreturns & _).
  split; [reflexivity|]. split; [reflexivity|].
  split; [apply Hthrows; reflexivity|apply Hreturns; reflexivity].
Defined.


(** Edge indexing of a graph without edges only sets the flag. *)
Lemma indexOut_replicate (g : Graph) (n : nat) (u : node) (next : edgeid) :
  indexOut g u next (replicate n []) = (replicate n [], next).
Proof.
  revert u. induction n as [|n IH]; intros u; [done|]. simpl. by rewrite IH.
Qed.

Lemma imap_replicate_nil {A B : Type} (f : nat → list A → list B) (n : nat) :
  (∀ u, f u [] = []) → imap f (replicate n []) = replicate n [].
Proof.
  intros Hf. apply list_eq. intros i. rewrite list_lookup_imap.
  destruct (decide (i < n)).
  - rewrite !lookup_replicate_2 by done. simpl. by rewrite Hf.
  - by rewrite !(proj1 (lookup_replicate_None _ _ _)) by lia.
Qed.

Lemma indexEdges_newGraph (n : count) (weighted : bool) :
  indexEdges (newGraph n weighted true)
  = mkGraphRecord n 0 0 n 0 weighted true true
      (replicate n true) (replicate n []) (replicate n []).
Proof.
  unfold indexEdges, newGraph. simpl. rewrite indexOut_replicate. simpl.
  f_equal. by apply imap_replicate_nil.
Qed.

(** A graph with the flags of [G] stores what the iteration over [G] reads. *)
Lemma record_observed (G s : Graph) (a : Adj) :
  isWeighted s = isWeighted G → hasEdgeIds s = hasEdgeIds G →
  record s (neighbor a) (weightIn G a) (idIn G a) = observed G a.
Proof.
  intros Hw Hi. unfold record, observed, weightIn, idIn. rewrite Hw, Hi.
  by destruct (isWeighted G), (hasEdgeIds G).
Qed.

(** The two inner loops of [transpose]: the records go to the end of the
    adjacency of [u], in the order of the iteration. *)
Lemma foldl_addPartialOutEdge (G s : Graph) (u : node) (l : list Adj) :
  isWeighted s = isWeighted G → hasEdgeIds s = hasEdgeIds G →
  foldl (λ s a, addPartialOutEdge u (neighbor a) (weightIn G a) (idIn G a) s) s l
  = withOutEdges (alter (λ x, x ++ (observed G <$> l)) u) s.
Proof.
  revert s. induction l as [|a l IH]; intros s Hw Hi; simpl.
  - destruct s. unfold withOutEdges. graph_simpl. f_equal.
    rewrite list_alter_id; [done|]. intros x. apply app_nil_r.
  - rewrite IH by done. unfold addPartialOutEdge, withOutEdges. graph_simpl. f_equal.
    unfold pushBack. rewrite list_alter_alter_eq, record_observed by done.
    apply list_alter_ext; [|done]. intros x _. simpl. by rewrite <-app_assoc.
Qed.

Lemma foldl_addPartialInEdge (G s : Graph) (u : node) (l : list Adj) :
  isWeighted s = isWeighted G → hasEdgeIds s = hasEdgeIds G →
  foldl (λ s a, addPartialInEdge u (neighbor a) (weightIn G a) (idIn G a) s) s l
  = withInEdges (alter (λ x, x ++ (observed G <$> l)) u) s.
Proof.
  revert s. induction l as [|a l IH]; intros s Hw Hi; simpl.
  - destruct s. unfold withInEdges. graph_simpl. f_equal.
    rewrite list_alter_id; [done|]. intros x. apply app_nil_r.
  - rewrite IH by done. unfold addPartialInEdge, withInEdges. graph_simpl. f_equal.
    unfold pushBack. rewrite list_alter_alter_eq, record_observed by done.
    apply list_alter_ext; [|done]. intros x _. simpl. by rewrite <-app_assoc.
Qed.

Lemma filter_hole_seq_S (G : Graph) (k : node) :
  filter (λ u, hasNode G u = false) (seq 0 (S k))
  = filter (λ u, hasNode G u = false) (seq 0 k)
    ++ (if hasNode G k then [] else [k]).
Proof.
  rewrite seq_S, filter_app. f_equal. simpl.
  rewrite filter_cons, filter_nil. by destruct (hasNode G k).
Qed.

Lemma transposeStep_prefix (G : Graph) (k : node) :
  transposeStep G (transposePrefix G k) k = transposePrefix G (S k).
Proof.
  unfold transposeStep. destruct (hasNode G k) eqn:Hk.
  - unfold preallocateDirected, forInEdgesOf, forEdgesOf.
    rewrite foldl_addPartialOutEdge by done.
    rewrite foldl_addPartialInEdge by done.
    unfold withInEdges, withOutEdges, transposePrefix. graph_simpl.
    rewrite filter_hole_seq_S, Hk, app_nil_r, !alter_tabulate.
    f_equal; apply tabulate_ext; intros u _;
      destruct (decide (u = k)) as [->|Hne];
      repeat case_decide; try done; try lia; by rewrite ?Hk.
  - unfold removeNode, withNumberOfNodes, withExists, transposePrefix. graph_simpl.
    rewrite filter_hole_seq_S, Hk, length_app, insert_tabulate. simpl length.
    f_equal; [lia|..]; apply tabulate_ext; intros u _;
      destruct (decide (u = k)) as [->|Hne];
      repeat case_decide; try done; try lia; by rewrite ?Hk.
Qed.

Lemma transpose_loop (G : Graph) (k : node) :
  foldl (transposeStep G) (transposePrefix G 0) (seq 0 k) = transposePrefix G k.
Proof.
  induction k as [|k IH]; [done|].
  rewrite seq_S, foldl_app, IH. simpl. apply transposeStep_prefix.
Qed.

(** [transpose] of a directed graph returns [transposeResult]. *)
Lemma transpose_returns (G : Graph) :
  isDirected G = true → transpose G = Returns (transposeResult G).
Proof.
  intros Hdir. unfold transpose. rewrite Hdir. simpl. f_equal.
  change (foldl _ ?s ?l) with (foldl (transposeStep G) s l).
  replace (if hasEdgeIds G then _ else _) with (transposePrefix G 0).
  - rewrite transpose_loop. unfold transposePrefix, transposeResult.
    unfold setUpperEdgeIdBound, setNumberOfSelfLoops, setEdgeCount. simpl.
    f_equal; apply tabulate_ext; intros u Hu; by rewrite decide_True.
  - unfold transposePrefix. simpl. rewrite Nat.sub_0_r.
    destruct (hasEdgeIds G) eqn:Hi.
    + rewrite indexEdges_newGraph, !replicate_tabulate. done.
    + unfold newGraph. rewrite !replicate_tabulate. done.
Qed.

(** The graph that [transpose] returns, read through the queries. *)
Lemma hasNode_transposeResult (G : Graph) (u : node) :
  hasNode (transposeResult G) u = hasNode G u.
Proof.
  unfold hasNode at 1. unfold transposeResult. graph_simpl.
  rewrite lookup_tabulate. case_decide as Hu.
  - rewrite bool_decide_eq_true_2 by done. simpl.
    destruct (hasNode G u); [by apply bool_decide_eq_true_2|by apply bool_decide_eq_false_2].
  - rewrite bool_decide_eq_false_2 by done. simpl. symmetry.
    unfold hasNode. by rewrite bool_decide_eq_false_2.
Qed.

Lemma outAdj_transposeResult (G : Graph) (u : node) :
  outAdj (transposeResult G) u = if hasNode G u then observed G <$> inAdj G u else [].
Proof.
  unfold outAdj at 1. unfold transposeResult. graph_simpl.
  rewrite lookup_tabulate. case_decide as Hu; [done|]. simpl.
  destruct (hasNode G u) eqn:Hn; [|done]. apply hasNode_lt in Hn. lia.
Qed.

Lemma inAdj_transposeResult (G : Graph) (u : node) :
  inAdj (transposeResult G) u = if hasNode G u then observed G <$> outAdj G u else [].
Proof.
  unfold inAdj at 1. unfold transposeResult. graph_simpl.
  rewrite lookup_tabulate. case_decide as Hu; [done|]. simpl.
  destruct (hasNode G u) eqn:Hn; [|done]. apply hasNode_lt in Hn. lia.
Qed.

Lemma observed_observed (G G' : Graph) (a : Adj) :
  isWeighted G' = isWeighted G → hasEdgeIds G' = hasEdgeIds G →
  observed G' (observed G a) = observed G a.
Proof.
  intros Hw Hi. unfold observed, weightIn, idIn. simpl. rewrite Hw, Hi.
  by destruct (isWeighted G), (hasEdgeIds G).
Qed.

(** The edges that the iteration reports depend on the graph only through
    what it reads from the adjacency, the bound and the directed flag. *)
Lemma edgesAt_observed (g : Graph) (u : node) :
  edgesAt g u
  = omap (λ a, if isDirected g || bool_decide (neighbor a ≤ u)
               then Some (u, neighbor a, weight a, edgeId a) else None)
         (observed g <$> outAdj g u).
Proof. unfold edgesAt. by rewrite omap_fmap_compose. Qed.

Lemma edgesWithIds_ext (g g' : Graph) :
  upperNodeIdBound g' = upperNodeIdBound g →
  isDirected g' = isDirected g →
  (∀ u, observed g' <$> outAdj g' u = observed g <$> outAdj g u) →
  edgesWithIds g' = edgesWithIds g.
Proof.
  intros Hz Hd Hadj. unfold edgesWithIds. rewrite Hz.
  apply list_bind_ext; [|done]. intros u.
  by rewrite !edgesAt_observed, Hadj, Hd.
Qed.

Lemma length_filter_complement {A : Type} (P : A → Prop) `{!∀ x, Decision (P x)}
    (l : list A) :
  length (filter P l) + length (filter (λ x, ¬ P x) l) = length l.
Proof.
  induction l as [|x l IH]; [done|].
  rewrite !filter_cons. destruct (decide (P x)), (decide (¬ P x)); simpl; try lia; tauto.
Qed.

Lemma length_nodes_holes (g : Graph) :
  upperNodeIdBound g
  - length (filter (λ u, hasNode g u = false) (seq 0 (upperNodeIdBound g)))
  = length (nodes g).
Proof.
  pose proof (length_filter_complement (λ u, hasNode g u = true)
                (seq 0 (upperNodeIdBound g))) as H.
  rewrite length_seq in H. unfold nodes.
  replace (filter (λ u, hasNode g u = false) (seq 0 (upperNodeIdBound g)))
    with (filter (λ u, ¬ hasNode g u = true) (seq 0 (upperNodeIdBound g))); [lia|].
  apply list_filter_iff. intros u. by destruct (hasNode g u).
Qed.

Lemma nodes_transposeResult (G : Graph) : nodes (transposeResult G) = nodes G.
Proof.
  unfold nodes. change (upperNodeIdBound (transposeResult G)) with (upperNodeIdBound G).
  apply list_filter_iff. intros u. by rewrite hasNode_transposeResult.
Qed.

Lemma numberOfNodes_transposeResult (G : Graph) :
  numberOfNodes (transposeResult G) = length (nodes G).
Proof. apply length_nodes_holes. Qed.

(** The transpose of a well-formed directed graph is well-formed. *)
Lemma wellFormed_transposeResult (G : Graph) :
  wellFormed G → isDirected G = true → wellFormed (transposeResult G).
Proof.
  intros Hwf Hdir. pose proof Hwf as (_ & _ & _ & _ & _ & Hnb & _).
  assert (Hnb' : ∀ u a, a ∈ outAdj G u ++ inAdj G u → hasNode G (neighbor a) = true).
  { intros u a Ha. destruct (hasNode G u) eqn:Hu.
    - rewrite Forall_forall in Hnb. specialize (Hnb u).
      rewrite Forall_forall in Hnb. apply Hnb; [|done].
      apply elem_of_seq. apply hasNode_lt in Hu. lia.
    - rewrite (wellFormed_hole_out _ _ Hwf Hu), (wellFormed_hole_in _ _ Hwf Hu) in Ha.
      by apply elem_of_nil in Ha. }
  unfold wellFormed. split_and!.
  - apply length_tabulate.
  - apply length_tabulate.
  - apply length_tabulate.
  - by rewrite numberOfNodes_transposeResult, nodes_transposeResult.
  - apply Forall_forall. intros u _. rewrite hasNode_transposeResult. intros Hu.
    unfold degreeOut, degreeIn.
    by rewrite outAdj_transposeResult, inAdj_transposeResult, Hu.
  - apply Forall_forall. intros u _. apply Forall_forall. intros a.
    rewrite outAdj_transposeResult, inAdj_transposeResult, hasNode_transposeResult.
    destruct (hasNode G u); [|by intros ?%elem_of_nil].
    rewrite <-fmap_app. intros (b & -> & Hb)%list_elem_of_fmap. simpl.
    apply (Hnb' u). apply elem_of_app. apply elem_of_app in Hb. tauto.
  - done.
Qed.

(** C8: the graph that [transpose] returns for a directed graph has the edge
    count, the self-loop count and the edge-id bound of its argument, which
    the three calls after the loop set; the counts fit the adjacency built
    by the loop, in which every existing node has as many out-records as it
    had in-records and the other way round. *)
Theorem transpose_counters (G : Graph) :
  isDirected G = true →
  ∃ GTranspose,
    transpose G = Returns GTranspose
    ∧ numberOfEdges GTranspose = numberOfEdges G
    ∧ numberOfSelfLoops GTranspose = numberOfSelfLoops G
    ∧ upperEdgeIdBound GTranspose = upperEdgeIdBound G
    ∧ (∀ u, hasNode G u = true →
            degreeOut GTranspose u = degreeIn G u
            ∧ degreeIn GTranspose u = degreeOut G u).
Proof.
  intros Hdir. exists (transposeResult G).
  split; [by apply transpose_returns|]. split_and!; try done.
  intros u Hu. unfold degreeOut, degreeIn.
  rewrite outAdj_transposeResult, inAdj_transposeResult, Hu.
  by rewrite !length_fmap.
Qed.

Lemma transpose_counters_witness :
  isDirected scenarioGraph = true
  ∧ ∃ GTranspose,
      transpose scenarioGraph = Returns GTranspose
      ∧ numberOfEdges GTranspose = 3
      ∧ numberOfSelfLoops GTranspose = 0
      ∧ upperEdgeIdBound GTranspose = 0
      ∧ degreeOut GTranspose 0 = 1.
Proof.
  split; [reflexivity|].
  destruct (transpose_counters scenarioGraph eq_refl)
    as (GTranspose & Hret & Hm & Hl & Hid & Hdeg).
  exists GTranspose. split_and!; [done..|].
  by destruct (Hdeg 0 eq_refl) as [-> _].
Defined.

(** C2: for a directed graph with edge ids, both transposes are graphs again
    (well-formed), and the transpose of the transpose has
    the id bound, the existing nodes and the holes of the graph, the same
    directed edges with the same weights and the same edge ids (the iteration
    over all edges reports the same list, and every node has the same out- and
    in-adjacency), the same self-loop count and the same edge count. *)
Theorem transpose_involution (G : Graph) :
  wellFormed G → isDirected G = true → hasEdgeIds G = true →
  ∃ GT GTT,
    transpose G = Returns GT ∧ transpose GT = Returns GTT
    ∧ wellFormed GT ∧ wellFormed GTT
    ∧ upperNodeIdBound GTT = upperNodeIdBound G
    ∧ (∀ u, hasNode GTT u = hasNode G u)
    ∧ numberOfNodes GTT = numberOfNodes G
    ∧ edgesWithIds GTT = edgesWithIds G
    ∧ (∀ u, observed GTT <$> outAdj GTT u = observed G <$> outAdj G u)
    ∧ (∀ u, observed GTT <$> inAdj GTT u = observed G <$> inAdj G u)
    ∧ numberOfSelfLoops GTT = numberOfSelfLoops G
    ∧ numberOfEdges GTT = numberOfEdges G
    ∧ hasEdgeIds GTT = true
    ∧ upperEdgeIdBound GTT = upperEdgeIdBound G
    ∧ isWeighted GTT = isWeighted G
    ∧ isDirected GTT = true.
Proof.
  intros Hwf Hdir Hids.
  exists (transposeResult G), (transposeResult (transposeResult G)).
  assert (Hout : ∀ u, observed (transposeResult (transposeResult G))
                        <$> outAdj (transposeResult (transposeResult G)) u
                      = observed G <$> outAdj G u).
  { intros u. rewrite outAdj_transposeResult, hasNode_transposeResult,
      inAdj_transposeResult.
    destruct (hasNode G u) eqn:Hu.
    - rewrite <-!list_fmap_compose. apply list_fmap_ext. intros _ a _. simpl.
      by rewrite !observed_observed.
    - by rewrite (wellFormed_hole_out _ _ Hwf Hu). }
  assert (Hin : ∀ u, observed (transposeResult (transposeResult G))
                       <$> inAdj (transposeResult (transposeResult G)) u
                     = observed G <$> inAdj G u).
  { intros u. rewrite inAdj_transposeResult, hasNode_transposeResult,
      outAdj_transposeResult.
    destruct (hasNode G u) eqn:Hu.
    - rewrite <-!list_fmap_compose. apply list_fmap_ext. intros _ a _. simpl.
      by rewrite !observed_observed.
    - by rewrite (wellFormed_hole_in _ _ Hwf Hu). }
  split_and!; try done.
  - by apply transpose_returns.
  - by apply transpose_returns.
  - by apply wellFormed_transposeResult.
  - by apply wellFormed_transposeResult; [apply wellFormed_transposeResult|].
  - intros u. by rewrite !hasNode_transposeResult.
  - rewrite numberOfNodes_transposeResult, nodes_transposeResult.
    by destruct Hwf as (_ & _ & _ & -> & _).
  - by apply edgesWithIds_ext.
Qed.

Lemma wellFormed_scenarioGraphIndexed : wellFormed scenarioGraphIndexed.
Proof. apply (bool_decide_unpack _). by vm_compute. Qed.

Lemma transpose_involution_witness :
  wellFormed scenarioGraphIndexed
  ∧ isDirected scenarioGraphIndexed = true
  ∧ hasEdgeIds scenarioGraphIndexed = true
  ∧ ∃ GT GTT,
      transpose scenarioGraphIndexed = Returns GT ∧ transpose GT = Returns GTT
      ∧ edgesWithIds GTT = edgesWithIds scenarioGraphIndexed
      ∧ numberOfEdges GTT = 3.
Proof.
  split; [exact wellFormed_scenarioGraphIndexed|].
  split; [reflexivity|]. split; [reflexivity|].
  destruct (transpose_involution scenarioGraphIndexed
              wellFormed_scenarioGraphIndexed eq_refl eq_refl)
    as (GT & GTT & H1 & H2 & _ & _ & _ & _ & _ & H3 & _ & _ & _ & H4 & _).
  exists GT, GTT. by split_and!.
Defined.

(** ** Continuous node ids *)

Lemma StronglySorted_seq_lt (j n : nat) : StronglySorted lt (seq j n).
Proof.
  revert j. induction n as [|n IH]; intros j; simpl; constructor; [apply IH|].
  apply Forall_forall. intros x Hx%elem_of_seq. lia.
Qed.

Lemma StronglySorted_filter {A : Type} (R : relation A) (P : A → Prop)
    `{!∀ x, Decision (P x)} (l : list A) :
  StronglySorted R l → StronglySorted R (filter P l).
Proof.
  induction 1 as [|x l Hl IH Hx]; [constructor|].
  rewrite filter_cons. case_decide; [|done].
  constructor; [done|]. rewrite Forall_forall in Hx.
  apply Forall_forall. intros y [_ Hy]%list_elem_of_filter. by apply Hx.
Qed.

Lemma StronglySorted_lookup {A : Type} (R : relation A) (l : list A) (i j : nat) (x y : A) :
  StronglySorted R l → l !! i = Some x → l !! j = Some y → i < j → R x y.
Proof.
  intros Hl. revert i j. induction Hl as [|z l Hl IH Hz]; intros i j Hi Hj Hij; [done|].
  destruct i as [|i], j as [|j]; simplify_eq/=; try lia.
  - rewrite Forall_forall in Hz. apply Hz. by eapply list_elem_of_lookup_2.
  - eapply IH; [done..|lia].
Qed.

Lemma nodes_NoDup (g : Graph) : NoDup (nodes g).
Proof. apply NoDup_filter, NoDup_seq. Qed.

Lemma nodes_sorted (g : Graph) : StronglySorted lt (nodes g).
Proof. apply StronglySorted_filter, StronglySorted_seq_lt. Qed.

(** The loop of [getContinuousNodeIds] over a list of distinct new keys. *)
Lemma foldl_mapInsert (l : list node) (m0 : gmap node node) (c0 : count) :
  NoDup l → (∀ v, v ∈ l → m0 !! v = None) →
  let r := foldl (λ s v, (λ '(nodeIdMap, continuousId),
                            (mapInsert v continuousId nodeIdMap, S continuousId)) s)
                 (m0, c0) l in
  r.2 = c0 + length l
  ∧ size r.1 = size m0 + length l
  ∧ ∀ v i, r.1 !! v = Some i ↔ m0 !! v = Some i ∨ ∃ j, l !! j = Some v ∧ i = c0 + j.
Proof.
  revert m0 c0. induction l as [|x l IH]; intros m0 c0 Hnd Hfresh; simpl.
  { split_and!; [lia..|]. intros v i. split; [by left|]. by intros [?|(j & ? & _)]. }
  apply NoDup_cons in Hnd as [Hx Hnd].
  assert (Hm0 : mapInsert x c0 m0 = <[x := c0]> m0).
  { unfold mapInsert. by rewrite Hfresh by left. }
  rewrite Hm0.
  destruct (IH (<[x := c0]> m0) (S c0) Hnd) as (Hc & Hsz & Hlk).
  { intros v Hv. rewrite lookup_insert_ne; [apply Hfresh; by right|]. by intros ->. }
  split_and!.
  - rewrite Hc. lia.
  - rewrite Hsz, map_size_insert_None; [lia|]. apply Hfresh. by left.
  - intros v i. rewrite Hlk. split.
    + intros [Hv|(j & Hj & ->)].
      * destruct (decide (x = v)) as [->|Hne].
        -- rewrite lookup_insert_eq in Hv. simplify_eq. right. exists 0. split; [done|lia].
        -- rewrite lookup_insert_ne in Hv by done. by left.
      * right. exists (S j). split; [done|lia].
    + intros [Hv|([|j] & Hj & ->)].
      * left. rewrite lookup_insert_ne; [done|]. intros ->.
        rewrite Hfresh in Hv; [done|by left].
      * simplify_eq/=. left. rewrite lookup_insert_eq. f_equal. lia.
      * right. exists j. split; [done|lia].
Qed.

(** The dense id of a node is its position among the existing nodes. *)
Lemma getContinuousNodeIds_lookup (G : Graph) (v i : node) :
  getContinuousNodeIds G !! v = Some i ↔ nodes G !! i = Some v.
Proof.
  unfold getContinuousNodeIds, forNodesOf.
  destruct (foldl_mapInsert (nodes G) ∅ 0 (nodes_NoDup G)) as (_ & _ & Hlk); [done|].
  rewrite Hlk, lookup_empty. split.
  - intros [?|(j & Hj & ->)]; [done|]. done.
  - intros Hi. right. by exists i.
Qed.

Lemma getContinuousNodeIds_size (G : Graph) :
  size (getContinuousNodeIds G) = length (nodes G).
Proof.
  unfold getContinuousNodeIds, forNodesOf.
  destruct (foldl_mapInsert (nodes G) ∅ 0 (nodes_NoDup G)) as (_ & Hsz & _); [done|].
  by rewrite Hsz, map_size_empty.
Qed.

(** The loop of [invertContinuousNodeIds], for a map that sends its keys to
    distinct ids below the node count: whatever the order in which the loop
    takes the entries, every entry is written to its own slot and the slot of
    the bound is left alone. *)
Lemma invertContinuousNodeIds_spec (nodeIdMap : gmap node node) (G : Graph) :
  (∀ k v, nodeIdMap !! k = Some v → v < numberOfNodes G) →
  (∀ k1 k2 v, nodeIdMap !! k1 = Some v → nodeIdMap !! k2 = Some v → k1 = k2) →
  let invertedIdMap := invertContinuousNodeIds nodeIdMap G in
  length invertedIdMap = numberOfNodes G + 1
  ∧ invertedIdMap !! numberOfNodes G = Some (upperNodeIdBound G)
  ∧ ∀ k v, nodeIdMap !! k = Some v → invertedIdMap !! v = Some k.
Proof.
  unfold invertContinuousNodeIds.
  set (n := numberOfNodes G). set (z := upperNodeIdBound G).
  set (init := <[n := z]> (replicate (n + 1) 0)).
  revert nodeIdMap.
  refine (map_fold_weak_ind
    (λ r m, (∀ k v, m !! k = Some v → v < n) →
            (∀ k1 k2 v, m !! k1 = Some v → m !! k2 = Some v → k1 = k2) →
            length r = n + 1 ∧ r !! n = Some z ∧ ∀ k v, m !! k = Some v → r !! v = Some k)
    _ init _ _).
  - intros _ _. unfold init. split_and!.
    + by rewrite length_insert, length_replicate.
    + apply list_lookup_insert_eq. rewrite length_replicate. lia.
    + intros k v. by rewrite lookup_empty.
  - intros i x m r Hi IH Hlt Hinj.
    destruct IH as (Hlen & Hn & Hlk).
    { intros k v Hk. apply (Hlt k). rewrite lookup_insert_ne; [done|]. by intros ->; simplify_eq. }
    { intros k1 k2 v Hk1 Hk2. apply (Hinj k1 k2 v);
        (rewrite lookup_insert_ne; [done|]; by intros ->; simplify_eq). }
    assert (Hx : x < n) by (apply (Hlt i); by rewrite lookup_insert_eq).
    split_and!.
    + by rewrite length_insert.
    + rewrite list_lookup_insert_ne; [done|lia].
    + intros k v Hk. destruct (decide (i = k)) as [->|Hne].
      * rewrite lookup_insert_eq in Hk. simplify_eq.
        apply list_lookup_insert_eq. lia.
      * rewrite lookup_insert_ne in Hk by done.
        rewrite list_lookup_insert_ne; [by apply Hlk|].
        intros ->. apply Hne. apply (Hinj i k v).
        -- by rewrite lookup_insert_eq.
        -- by rewrite lookup_insert_ne.
Qed.

(** The inverted array of the continuous ids of a well-formed graph: the
    existing nodes in ascending order, then the id bound. *)
Lemma invertContinuousNodeIds_nodes (G : Graph) :
  wellFormed G →
  invertContinuousNodeIds (getContinuousNodeIds G) G = nodes G ++ [upperNodeIdBound G].
Proof.
  intros Hwf.
  assert (Hn : numberOfNodes G = length (nodes G)) by (by destruct Hwf as (_ & _ & _ & ? & _)).
  destruct (invertContinuousNodeIds_spec (getContinuousNodeIds G) G)
    as (Hlen & Hlast & Hinv).
  { intros v i Hv%getContinuousNodeIds_lookup. rewrite Hn. by eapply lookup_lt_Some. }
  { intros u v i Hu%getContinuousNodeIds_lookup Hv%getContinuousNodeIds_lookup. congruence. }
  apply list_eq. intros i. destruct (decide (i < numberOfNodes G)) as [Hi|Hi].
  - rewrite lookup_app_l by lia.
    destruct (lookup_lt_is_Some_2 (nodes G) i) as [v Hv]; [lia|].
    rewrite Hv. apply Hinv. by apply getContinuousNodeIds_lookup.
  - destruct (decide (i = numberOfNodes G)) as [->|Hne].
    + rewrite Hlast, lookup_app_r by lia. by rewrite Hn, Nat.sub_diag.
    + rewrite !lookup_ge_None_2; [done|..].
      * rewrite length_app. simpl. lia.
      * lia.
Qed.

(** C6: [getContinuousNodeIds] maps the existing node ids one-to-one onto
    [0, numberOfNodes), in ascending order of the original ids; the size of
    the map is the node count, as [invertContinuousNodeIds] asserts, and the
    inverted array has one entry more than there are nodes, holds at each
    dense id the original id, and ends with the id bound.  The same holds of
    the inverted array of any node id map (one-to-one, onto the ids below its
    size) whose size is the node count. *)
Theorem continuousNodeIds_bijection (G : Graph) :
  wellFormed G →
  let nodeIdMap := getContinuousNodeIds G in
  let invertedIdMap := invertContinuousNodeIds nodeIdMap G in
  (∀ v, is_Some (nodeIdMap !! v) ↔ hasNode G v = true)
  ∧ (∀ v i, nodeIdMap !! v = Some i → i < numberOfNodes G)
  ∧ (∀ u v i, nodeIdMap !! u = Some i → nodeIdMap !! v = Some i → u = v)
  ∧ (∀ i, i < numberOfNodes G → ∃ v, nodeIdMap !! v = Some i)
  ∧ (∀ u v i j, nodeIdMap !! u = Some i → nodeIdMap !! v = Some j → u < v → i < j)
  ∧ size nodeIdMap = numberOfNodes G
  ∧ length invertedIdMap = numberOfNodes G + 1
  ∧ (∀ v i, nodeIdMap !! v = Some i → invertedIdMap !! i = Some v)
  ∧ invertedIdMap !! numberOfNodes G = Some (upperNodeIdBound G)
  ∧ List.last invertedIdMap 0 = upperNodeIdBound G
  ∧ invertedIdMap = nodes G ++ [upperNodeIdBound G]
  ∧ (∀ anyIdMap : gmap node node,
       size anyIdMap = numberOfNodes G →
       (∀ k v, anyIdMap !! k = Some v → v < size anyIdMap) →
       (∀ k1 k2 v, anyIdMap !! k1 = Some v → anyIdMap !! k2 = Some v → k1 = k2) →
       length (invertContinuousNodeIds anyIdMap G) = numberOfNodes G + 1
       ∧ (∀ k v, anyIdMap !! k = Some v →
                 invertContinuousNodeIds anyIdMap G !! v = Some k)
       ∧ invertContinuousNodeIds anyIdMap G !! numberOfNodes G
         = Some (upperNodeIdBound G)).
Proof.
  intros Hwf nodeIdMap invertedIdMap.
  assert (Hn : numberOfNodes G = length (nodes G)) by (by destruct Hwf as (_ & _ & _ & ? & _)).
  assert (Heq : invertedIdMap = nodes G ++ [upperNodeIdBound G])
    by (by apply invertContinuousNodeIds_nodes).
  split_and!; try done.
  - intros v. rewrite <-elem_of_nodes, list_elem_of_lookup. split.
    + intros [i Hi]. exists i. by apply getContinuousNodeIds_lookup.
    + intros [i Hi]. exists i. by apply getContinuousNodeIds_lookup.
  - intros v i Hv%getContinuousNodeIds_lookup. rewrite Hn. by eapply lookup_lt_Some.
  - intros u v i Hu%getContinuousNodeIds_lookup Hv%getContinuousNodeIds_lookup. congruence.
  - intros i Hi. destruct (lookup_lt_is_Some_2 (nodes G) i) as [v Hv]; [lia|].
    exists v. by apply getContinuousNodeIds_lookup.
  - intros u v i j Hu%getContinuousNodeIds_lookup Hv%getContinuousNodeIds_lookup Huv.
    destruct (decide (i < j)) as [|Hge]; [done|].
    destruct (decide (i = j)) as [->|Hne]; [simplify_eq; lia|].
    pose proof (StronglySorted_lookup lt (nodes G) j i v u (nodes_sorted G) Hv Hu). lia.
  - unfold nodeIdMap. by rewrite getContinuousNodeIds_size.
  - rewrite Heq, length_app. simpl. lia.
  - intros v i Hv%getContinuousNodeIds_lookup. rewrite Heq. by apply lookup_app_l_Some.
  - rewrite Heq, Hn. by apply list_lookup_middle.
  - rewrite Heq. apply last_last.
  - intros anyIdMap Hsize Hdense Hinj.
    destruct (invertContinuousNodeIds_spec anyIdMap G) as (Hlen & Hlast & Hinv);
      [by rewrite <-Hsize|done|]. by split_and!.
Qed.

Lemma continuousNodeIds_bijection_witness :
  wellFormed scenarioGraph
  ∧ getContinuousNodeIds scenarioGraph = {[0 := 0; 1 := 1; 3 := 2]}
  ∧ invertContinuousNodeIds (getContinuousNodeIds scenarioGraph) scenarioGraph
    = nodes scenarioGraph ++ [upperNodeIdBound scenarioGraph]
  ∧ invertContinuousNodeIds (getContinuousNodeIds scenarioGraph) scenarioGraph
    = [0; 1; 3; 4].
Proof.
  split; [exact wellFormed_scenarioGraph|].
  split; [vm_compute; reflexivity|].
  split; [|reflexivity].
  apply (continuousNodeIds_bijection scenarioGraph wellFormed_scenarioGraph).
Defined.

(** ** Adding edges *)

Section add_edge.
Implicit Types (g : Graph) (u v x : node) (w : edgeweight) (adj : list (list Adj)).

Lemma lookup_pushBack_eq adj u (a : Adj) :
  u < length adj → default [] (pushBack u a adj !! u) = default [] (adj !! u) ++ [a].
Proof.
  intros Hu. unfold pushBack. rewrite list_lookup_alter_eq.
  destruct (lookup_lt_is_Some_2 adj u Hu) as [l ->]. done.
Qed.

Lemma lookup_pushBack_ne adj u x (a : Adj) :
  x ≠ u → pushBack u a adj !! x = adj !! x.
Proof. intros Hne. unfold pushBack. by rewrite list_lookup_alter_ne. Qed.

Lemma length_pushBack adj u (a : Adj) : length (pushBack u a adj) = length adj.
Proof. apply length_alter. Qed.

(** The fields that [addEdge] leaves alone. *)
Lemma addEdge_frame g u v w :
  upperNodeIdBound (addEdge u v w g) = upperNodeIdBound g
  ∧ isWeighted (addEdge u v w g) = isWeighted g
  ∧ isDirected (addEdge u v w g) = isDirected g
  ∧ hasEdgeIds (addEdge u v w g) = hasEdgeIds g
  ∧ exists_ (addEdge u v w g) = exists_ g
  ∧ numberOfNodes (addEdge u v w g) = numberOfNodes g
  ∧ length (outEdges (addEdge u v w g)) = length (outEdges g).
Proof.
  unfold addEdge. graph_simpl. split_and!; try done.
  destruct (isDirected g || bool_decide (u = v)); by rewrite ?length_pushBack.
Qed.

Lemma hasNode_addEdge g u v w x : hasNode (addEdge u v w g) x = hasNode g x.
Proof. done. Qed.

(** The out-adjacency after [addEdge]. *)
Lemma outAdj_addEdge_source g u v w :
  u < length (outEdges g) →
  outAdj (addEdge u v w g) u
  = outAdj g u
    ++ [record g v w (if hasEdgeIds g then Some (upperEdgeIdBound g) else None)].
Proof.
  intros Hu. unfold outAdj, addEdge. graph_simpl.
  destruct (isDirected g || bool_decide (u = v)) eqn:Hc.
  - by rewrite lookup_pushBack_eq.
  - rewrite lookup_pushBack_ne; [by rewrite lookup_pushBack_eq|].
    apply orb_false_elim in Hc as [_ Hc]. by apply bool_decide_eq_false in Hc.
Qed.

Lemma outAdj_addEdge_target g u v w :
  isDirected g = false → u ≠ v → v < length (outEdges g) →
  outAdj (addEdge u v w g) v
  = outAdj g v
    ++ [record g u w (if hasEdgeIds g then Some (upperEdgeIdBound g) else None)].
Proof.
  intros Hd Hne Hv. unfold outAdj, addEdge. graph_simpl.
  rewrite Hd, bool_decide_eq_false_2 by done. simpl.
  rewrite lookup_pushBack_eq by (by rewrite length_pushBack).
  by rewrite lookup_pushBack_ne.
Qed.

Lemma outAdj_addEdge_other g u v w x :
  x ≠ u → (isDirected g = true ∨ x ≠ v) → outAdj (addEdge u v w g) x = outAdj g x.
Proof.
  intros Hxu Hxv. unfold outAdj, addEdge. graph_simpl.
  destruct (isDirected g) eqn:Hd; simpl.
  - by rewrite lookup_pushBack_ne.
  - destruct Hxv as [?|Hxv]; [done|].
    destruct (bool_decide (u = v)); by rewrite !lookup_pushBack_ne.
Qed.

Lemma outAdj_addEdge_target_ge g u v w :
  length (outEdges g) ≤ v → u ≠ v → outAdj (addEdge u v w g) v = outAdj g v.
Proof.
  intros Hv Hne. unfold outAdj, addEdge. graph_simpl.
  destruct (isDirected g || bool_decide (u = v)).
  - by rewrite lookup_pushBack_ne.
  - rewrite !lookup_ge_None_2; [done|done|by rewrite !length_pushBack].
Qed.

Lemma edgesAt_flags g g' x :
  isDirected g' = isDirected g → isWeighted g' = isWeighted g →
  hasEdgeIds g' = hasEdgeIds g → outAdj g' x = outAdj g x →
  edgesAt g' x = edgesAt g x.
Proof.
  intros Hd Hw Hi Ha. unfold edgesAt, useEdgeInIteration, weightIn, idIn.
  by rewrite Hd, Hw, Hi, Ha.
Qed.

Lemma edgesAt_app g g' x (l : list Adj) :
  isDirected g' = isDirected g → isWeighted g' = isWeighted g →
  hasEdgeIds g' = hasEdgeIds g → outAdj g' x = outAdj g x ++ l →
  edgesAt g' x
  = edgesAt g x
    ++ omap (λ a, if useEdgeInIteration g x (neighbor a)
                  then Some (x, neighbor a, weightIn g a, idIn g a) else None) l.
Proof.
  intros Hd Hw Hi Ha. unfold edgesAt at 1. unfold useEdgeInIteration, weightIn, idIn.
  rewrite Hd, Hw, Hi, Ha. by rewrite omap_app.
Qed.

(** [addEdge u v w] adds one edge to what the iteration over all edges
    reports, provided [(u, v)] is written the way the iteration reports an
    edge: from a source below the bound and, in an undirected graph, from the
    endpoint with the larger id. *)
Lemma edgesWithIds_addEdge g u v w :
  length (outEdges g) = upperNodeIdBound g →
  u < upperNodeIdBound g →
  (isDirected g = true ∨ v ≤ u) →
  edgesWithIds (addEdge u v w g)
  ≡ₚ edgesWithIds g
     ++ [(u, v, storedWeight g w,
          if hasEdgeIds g then Some (upperEdgeIdBound g) else None)].
Proof.
  intros Hlen Hu Hdir.
  pose proof (addEdge_frame g u v w) as (Hz & Hw & Hd & Hi & _).
  unfold edgesWithIds. rewrite Hz.
  assert (Hsplit : seq 0 (upperNodeIdBound g)
                   = seq 0 u ++ [u] ++ seq (S u) (upperNodeIdBound g - S u)).
  { replace (upperNodeIdBound g) with (u + S (upperNodeIdBound g - S u)) at 1 by lia.
    by rewrite seq_app. }
  rewrite Hsplit, !bind_app, !bind_singleton.
  assert (Hother : ∀ x, x ≠ u → edgesAt (addEdge u v w g) x = edgesAt g x).
  { intros x Hx.
    destruct (decide (isDirected g = true ∨ x ≠ v)) as [Hc|Hc].
    - apply edgesAt_flags; [done..|]. by apply outAdj_addEdge_other.
    - assert (isDirected g = false ∧ x = v) as [Hund ->].
      { split; [apply not_true_is_false|apply dec_stable]; intros ?; apply Hc; auto. }
      destruct (decide (v < length (outEdges g))) as [Hv|Hv].
      + rewrite (edgesAt_app g _ v
          [record g u w (if hasEdgeIds g then Some (upperEdgeIdBound g) else None)]);
          [|done..|by apply outAdj_addEdge_target].
        simpl. unfold useEdgeInIteration. rewrite Hund. simpl.
        rewrite bool_decide_eq_false_2; [by rewrite app_nil_r|].
        destruct Hdir as [?|?]; [congruence|lia].
      + apply edgesAt_flags; [done..|].
        apply outAdj_addEdge_target_ge; [lia|done]. }
  rewrite (Forall_bind_ext (edgesAt (addEdge u v w g)) (edgesAt g) (seq 0 u)).
  2:{ apply Forall_forall. intros x Hx%elem_of_seq. apply Hother. lia. }
  rewrite (Forall_bind_ext (edgesAt (addEdge u v w g)) (edgesAt g) (seq (S u) _)).
  2:{ apply Forall_forall. intros x Hx%elem_of_seq. apply Hother. lia. }
  rewrite (edgesAt_app g _ u
    [record g v w (if hasEdgeIds g then Some (upperEdgeIdBound g) else None)]);
    [|done..|apply outAdj_addEdge_source; lia].
  assert (Huse : useEdgeInIteration g u v = true).
  { unfold useEdgeInIteration. destruct Hdir as [Hd'|Hvu]; [by rewrite Hd'|].
    rewrite (bool_decide_eq_true_2 _ Hvu). apply orb_true_r. }
  simpl. rewrite Huse.
  replace (weightIn g (record g v w _)) with (storedWeight g w)
    by (unfold weightIn, storedWeight, record; simpl; by destruct (isWeighted g)).
  replace (idIn g (record g v w _))
    with (if hasEdgeIds g then Some (upperEdgeIdBound g) else None)
    by (unfold idIn, record; simpl; by destruct (hasEdgeIds g)).
  rewrite <-!app_assoc.
  apply Permutation_app_head, Permutation_app_head. simpl.
  by rewrite Permutation_app_comm.
Qed.

Lemma edges_addEdge g u v w :
  length (outEdges g) = upperNodeIdBound g →
  u < upperNodeIdBound g →
  (isDirected g = true ∨ v ≤ u) →
  edges (addEdge u v w g) ≡ₚ edges g ++ [(u, v, storedWeight g w)].
Proof.
  intros Hlen Hu Hdir. unfold edges.
  rewrite (edgesWithIds_addEdge g u v w Hlen Hu Hdir), fmap_app. done.
Qed.

(** What the iteration over all edges reports is written that way. *)
Lemma elem_of_edgesWithIds g u v w (id : option edgeid) :
  (u, v, w, id) ∈ edgesWithIds g
  ↔ u < upperNodeIdBound g
    ∧ ∃ a, a ∈ outAdj g u ∧ useEdgeInIteration g u (neighbor a) = true
           ∧ v = neighbor a ∧ w = weightIn g a ∧ id = idIn g a.
Proof.
  unfold edgesWithIds. rewrite list_elem_of_bind. split.
  - intros (x & Hin & Hx%elem_of_seq). unfold edgesAt in Hin.
    apply list_elem_of_omap in Hin as (a & Ha & Hsome).
    destruct (useEdgeInIteration g x (neighbor a)) eqn:Huse; [|done].
    simplify_eq. split; [lia|]. by exists a.
  - intros (Hu & a & Ha & Huse & -> & -> & ->). exists u.
    split; [|apply elem_of_seq; lia].
    unfold edgesAt. apply list_elem_of_omap. exists a. split; [done|]. by rewrite Huse.
Qed.

Lemma elem_of_edges g u v w :
  (u, v, w) ∈ edges g
  ↔ u < upperNodeIdBound g
    ∧ ∃ a, a ∈ outAdj g u ∧ useEdgeInIteration g u (neighbor a) = true
           ∧ v = neighbor a ∧ w = weightIn g a.
Proof.
  unfold edges. rewrite list_elem_of_fmap. split.
  - intros ([[[u' v'] w'] id] & Heq & Hin). simplify_eq/=.
    apply elem_of_edgesWithIds in Hin as (Hu & a & ? & ? & ? & ? & ?).
    split; [done|]. by exists a.
  - intros (Hu & a & Ha & Huse & -> & ->). exists (u, neighbor a, weightIn g a, idIn g a).
    split; [done|]. apply elem_of_edgesWithIds. split; [done|]. by exists a.
Qed.

Lemma edges_reported g u v w :
  (u, v, w) ∈ edges g →
  u < upperNodeIdBound g ∧ (isDirected g = true ∨ v ≤ u) ∧ storedWeight g w = w.
Proof.
  intros (Hu & a & _ & Huse & -> & ->)%elem_of_edges. split_and!; [done| |].
  - unfold useEdgeInIteration in Huse. apply orb_prop in Huse as [?|Hle]; [by left|].
    right. by apply bool_decide_eq_true in Hle.
  - unfold storedWeight, weightIn. by destruct (isWeighted g).
Qed.
End add_edge.

(** A loop that adds some of the edges of a list to a graph. *)
Lemma foldl_addEdge_frame (keep : node → node → edgeweight → Graph → bool)
    (L : list (node * node * edgeweight)) (s : Graph) :
  let s' := foldl (λ s e, if keep e.1.1 e.1.2 e.2 s then addEdge e.1.1 e.1.2 e.2 s else s)
                  s L in
  upperNodeIdBound s' = upperNodeIdBound s
  ∧ isWeighted s' = isWeighted s
  ∧ isDirected s' = isDirected s
  ∧ hasEdgeIds s' = hasEdgeIds s
  ∧ exists_ s' = exists_ s
  ∧ numberOfNodes s' = numberOfNodes s
  ∧ length (outEdges s') = length (outEdges s).
Proof.
  revert s. induction L as [|e L IH]; intros s; simpl; [done|].
  destruct (keep e.1.1 e.1.2 e.2 s); [|apply IH].
  destruct (IH (addEdge e.1.1 e.1.2 e.2 s)) as (-> & -> & -> & -> & -> & -> & ->).
  apply addEdge_frame.
Qed.

Lemma edges_foldl_addEdge (keep : node → node → bool)
    (L : list (node * node * edgeweight)) (s : Graph) :
  length (outEdges s) = upperNodeIdBound s →
  (∀ u v w, (u, v, w) ∈ L →
     u < upperNodeIdBound s ∧ (isDirected s = true ∨ v ≤ u) ∧ storedWeight s w = w) →
  edges (foldl (λ s e, if keep e.1.1 e.1.2 then addEdge e.1.1 e.1.2 e.2 s else s) s L)
  ≡ₚ edges s ++ filter (λ e, keep e.1.1 e.1.2 = true) L.
Proof.
  revert s. induction L as [|[[u v] w] L IH]; intros s Hlen HL; simpl.
  { by rewrite app_nil_r. }
  destruct (HL u v w) as (Hu & Hdir & Hw); [by left|].
  destruct (keep u v) eqn:Hkeep.
  - pose proof (addEdge_frame s u v w) as (Hz & Hwt & Hd & _ & _ & _ & Hl).
    rewrite filter_cons_True by done. rewrite IH.
    + rewrite edges_addEdge by done. rewrite Hw, <-app_assoc. done.
    + by rewrite Hl, Hz.
    + intros u' v' w' Hin. rewrite Hz, Hd. unfold storedWeight. rewrite Hwt.
      apply HL. by right.
  - rewrite filter_cons_False by (simpl; congruence). apply IH; [done|].
    intros u' v' w' Hin. apply HL. by right.
Qed.

(** ** Subgraph from nodes *)

Lemma foldl_insert_elem_of (l : list node) (nb : gset node) (v : node) :
  v ∈ foldl (λ nb v, {[v]} ∪ nb) nb l ↔ v ∈ nb ∨ v ∈ l.
Proof.
  revert nb. induction l as [|x l IH]; intros nb; simpl.
  - split; [by left|]. intros [?|?%elem_of_nil]; done.
  - rewrite IH, elem_of_union, elem_of_singleton, elem_of_cons. tauto.
Qed.

Lemma foldl_neighbors_elem_of (G : Graph) (includeOutNeighbors includeInNeighbors : bool)
    (l : list node) (nb : gset node) (v : node) :
  v ∈ foldl (λ neighbors u,
               let neighbors :=
                 if includeOutNeighbors
                 then foldl (λ nb v, {[v]} ∪ nb) neighbors (neighborRange G u)
                 else neighbors in
               if includeInNeighbors
               then foldl (λ nb v, {[v]} ∪ nb) neighbors (inNeighborRange G u)
               else neighbors) nb l
  ↔ v ∈ nb ∨ ∃ u, u ∈ l
       ∧ ((includeOutNeighbors = true ∧ v ∈ neighborRange G u)
          ∨ (includeInNeighbors = true ∧ v ∈ inNeighborRange G u)).
Proof.
  revert nb. induction l as [|x l IH]; intros nb; simpl.
  { split; [by left|]. intros [?|(u & ?%elem_of_nil & _)]; done. }
  rewrite IH. clear IH. split.
  - intros [Hv|(u & Hu & Hc)].
    + destruct includeOutNeighbors, includeInNeighbors;
        rewrite ?foldl_insert_elem_of in Hv;
        try (destruct Hv as [[Hv|Hv]|Hv] || destruct Hv as [Hv|Hv]);
        first [by left|right; exists x; split; [by left|]; auto].
    + right. exists u. split; [by right|done].
  - intros [Hv|(u & [->|Hu]%elem_of_cons & Hc)].
    + left. destruct includeOutNeighbors, includeInNeighbors;
        rewrite ?foldl_insert_elem_of; auto.
    + left. destruct includeOutNeighbors, includeInNeighbors;
        rewrite ?foldl_insert_elem_of; destruct Hc as [[? ?]|[? ?]]; try done; auto.
    + right. by exists u.
Qed.


Section subgraph.
Context (G : Graph) (nodes : gset node) (includeOutNeighbors includeInNeighbors : bool).

Let neighbors : gset node :=
  subgraphNeighbors G nodes includeOutNeighbors includeInNeighbors.
Let relevance : node → nat := isRelevantNode nodes neighbors.

Lemma isRelevantNode_cases (u : node) :
  (relevance u = 2 ∧ u ∈ nodes)
  ∨ (relevance u = 1 ∧ (u ∉ nodes) ∧ u ∈ neighbors)
  ∨ (relevance u = 0 ∧ (u ∉ nodes) ∧ (u ∉ neighbors)).
Proof.
  unfold relevance, isRelevantNode.
  destruct (decide (u ∈ nodes)) as [Hin|Hout].
  - left. by rewrite bool_decide_eq_true_2.
  - right. rewrite (bool_decide_eq_false_2 _ Hout).
    destruct (decide (u ∈ neighbors)) as [Hn|Hn].
    + left. rewrite (bool_decide_eq_true_2 _ Hn), bool_decide_eq_false_2; [done|].
      intros Hempty. rewrite Hempty in Hn. by apply not_elem_of_empty in Hn.
    + right. rewrite (bool_decide_eq_false_2 _ Hn), andb_false_r. done.
Qed.

(** The neighbour set: empty without a flag, and else the out-neighbours
    and/or in-neighbours of the nodes of the set. *)
Lemma elem_of_subgraphNeighbors (v : node) :
  v ∈ neighbors
  ↔ ∃ u, u ∈ nodes
         ∧ ((includeOutNeighbors = true ∧ v ∈ neighborRange G u)
            ∨ (includeInNeighbors = true ∧ v ∈ inNeighborRange G u)).
Proof.
  unfold neighbors, subgraphNeighbors.
  destruct (negb includeOutNeighbors && negb includeInNeighbors) eqn:Hflags.
  { apply andb_prop in Hflags as [Ho%negb_true_iff Hi%negb_true_iff].
    split; [by intros ?%not_elem_of_empty|].
    intros (u & _ & [[? _]|[? _]]); congruence. }
  rewrite foldl_neighbors_elem_of. setoid_rewrite elem_of_elements.
  split; [intros [?%not_elem_of_empty|?]; done|by right].
Qed.

Lemma hasNode_subgraphNodesPrefix (k : node) :
  k < upperNodeIdBound G → hasNode (subgraphNodesPrefix G relevance k) k = true.
Proof.
  intros Hk. unfold hasNode, subgraphNodesPrefix. graph_simpl.
  rewrite lookup_tabulate, decide_True, decide_False by lia.
  by rewrite !bool_decide_eq_true_2.
Qed.

Lemma subgraphFromNodes_node_step (k : node) :
  k < upperNodeIdBound G →
  (let s := subgraphNodesPrefix G relevance k in
   if hasNode (id s) k
   then (if bool_decide (relevance k = 0) then removeNode k s else s)
   else s)
  = subgraphNodesPrefix G relevance (S k).
Proof.
  intros Hk. simpl. rewrite hasNode_subgraphNodesPrefix by done.
  unfold subgraphNodesPrefix.
  rewrite seq_S, filter_app, length_app, filter_cons, filter_nil. simpl.
  case_bool_decide as Hrel.
  - unfold removeNode, withNumberOfNodes, withExists. graph_simpl.
    rewrite insert_tabulate, decide_True by done. simpl.
    f_equal; [lia|]. apply tabulate_ext. intros u _.
    destruct (decide (u = k)) as [->|Hne]; repeat case_decide;
      first [done|lia|by rewrite bool_decide_eq_false_2 by tauto].
  - rewrite decide_False by done. simpl.
    f_equal; [lia|]. apply tabulate_ext. intros u _.
    destruct (decide (u = k)) as [->|Hne]; repeat case_decide;
      first [done|lia|by rewrite bool_decide_eq_true_2].
Qed.

Lemma subgraphFromNodes_node_loop :
  forNodes id
    (λ u S, if bool_decide (relevance u = 0) then removeNode u S else S)
    (newGraph (upperNodeIdBound G) (isWeighted G) (isDirected G))
  = subgraphNodesOnly G relevance.
Proof.
  unfold forNodes. simpl.
  assert (Hinit : newGraph (upperNodeIdBound G) (isWeighted G) (isDirected G)
                  = subgraphNodesPrefix G relevance 0).
  { unfold newGraph, subgraphNodesPrefix. simpl. rewrite Nat.sub_0_r.
    f_equal. rewrite replicate_tabulate. by apply tabulate_ext. }
  rewrite Hinit.
  assert (Hloop : ∀ k, k ≤ upperNodeIdBound G →
    foldl (λ s v, if hasNode (id s) v
                  then (if bool_decide (relevance v = 0) then removeNode v s else s)
                  else s)
          (subgraphNodesPrefix G relevance 0) (seq 0 k)
    = subgraphNodesPrefix G relevance k).
  { induction k as [|k IH]; intros Hk; [done|].
    rewrite seq_S, foldl_app, IH by lia. simpl.
    apply subgraphFromNodes_node_step. lia. }
  rewrite Hloop by done.
  unfold subgraphNodesPrefix, subgraphNodesOnly. f_equal.
  apply tabulate_ext. intros u Hu. by rewrite decide_True.
Qed.

Lemma edges_subgraphNodesOnly : edges (subgraphNodesOnly G relevance) = [].
Proof.
  unfold edges, edgesWithIds. simpl.
  assert (Hnil : ∀ l : list node,
    l ≫= edgesAt (subgraphNodesOnly G relevance) = []).
  { induction l as [|u l IH]; [done|]. rewrite bind_cons, IH, app_nil_r.
    unfold edgesAt, outAdj, subgraphNodesOnly. graph_simpl.
    destruct (decide (u < upperNodeIdBound G)).
    - by rewrite lookup_replicate_2.
    - by rewrite (proj1 (lookup_replicate_None _ _ _)) by lia. }
  by rewrite Hnil.
Qed.

(** [subgraphFromNodes] is the node-only graph with the kept edges added. *)
Lemma subgraphFromNodes_unfold :
  subgraphFromNodes G nodes includeOutNeighbors includeInNeighbors
  = foldl (λ s e, if keepsEdge relevance e.1.1 e.1.2
                  then addEdge e.1.1 e.1.2 e.2 s else s)
          (subgraphNodesOnly G relevance) (edges G).
Proof.
  unfold subgraphFromNodes, forEdges.
  fold neighbors. fold relevance. by rewrite subgraphFromNodes_node_loop.
Qed.

Lemma hasNode_subgraphFromNodes (u : node) :
  hasNode (subgraphFromNodes G nodes includeOutNeighbors includeInNeighbors) u
  = bool_decide (u < upperNodeIdBound G) && bool_decide (relevance u ≠ 0).
Proof.
  rewrite subgraphFromNodes_unfold.
  destruct (foldl_addEdge_frame (λ u v _ _, keepsEdge relevance u v)
              (edges G) (subgraphNodesOnly G relevance))
    as (Hz & _ & _ & _ & He & _).
  unfold hasNode. rewrite Hz, He. unfold subgraphNodesOnly. graph_simpl.
  rewrite lookup_tabulate.
  case_decide as Hu.
  - rewrite (bool_decide_eq_true_2 _ Hu). simpl.
    destruct (bool_decide (relevance u ≠ 0));
      [by apply bool_decide_eq_true_2|by apply bool_decide_eq_false_2].
  - by rewrite (bool_decide_eq_false_2 _ Hu).
Qed.
End subgraph.

(** C9: every node of the node set that exists in [G] exists in the result of
    [subgraphFromNodes], whatever edges survive (a node of the result exists
    exactly if its id is below the bound and its relevance score is not 0);
    a node with relevance score 0 does not exist in the result; and the result
    has the id bound, the weighted flag and the directed flag of [G]. *)
Theorem subgraphFromNodes_keeps_nodes (G : Graph) (nodes : gset node)
    (includeOutNeighbors includeInNeighbors : bool) :
  let S := subgraphFromNodes G nodes includeOutNeighbors includeInNeighbors in
  let relevance :=
    isRelevantNode nodes
      (subgraphNeighbors G nodes includeOutNeighbors includeInNeighbors) in
  (∀ u, u ∈ nodes → hasNode G u = true → hasNode S u = true)
  ∧ (∀ u, relevance u = 0 → hasNode S u = false)
  ∧ (∀ u, hasNode S u
          = bool_decide (u < upperNodeIdBound G) && bool_decide (relevance u ≠ 0))
  ∧ upperNodeIdBound S = upperNodeIdBound G
  ∧ isWeighted S = isWeighted G
  ∧ isDirected S = isDirected G.
Proof.
  intros S relevance.
  assert (Hnode : ∀ u, hasNode S u
            = bool_decide (u < upperNodeIdBound G) && bool_decide (relevance u ≠ 0))
    by apply hasNode_subgraphFromNodes.
  pose proof (foldl_addEdge_frame (λ u v _ _, keepsEdge relevance u v)
                (edges G) (subgraphNodesOnly G relevance)) as Hframe.
  cbv zeta in Hframe. destruct Hframe as (Hz & Hw & Hd & _).
  split_and!; [| |done|..].
  - intros u Hu Hex. rewrite Hnode.
    apply hasNode_lt in Hex. rewrite (bool_decide_eq_true_2 _ Hex). simpl.
    apply bool_decide_eq_true_2.
    destruct (isRelevantNode_cases G nodes includeOutNeighbors includeInNeighbors u)
      as [[Hr _]|[[_ [Hno _]]|[_ [Hno _]]]]; [|done..].
    fold relevance in Hr. lia.
  - intros u Hrel. rewrite Hnode, (bool_decide_eq_false_2 (relevance u ≠ 0)) by tauto.
    apply andb_false_r.
  - unfold S. rewrite subgraphFromNodes_unfold. exact Hz.
  - unfold S. rewrite subgraphFromNodes_unfold. exact Hw.
  - unfold S. rewrite subgraphFromNodes_unfold. exact Hd.
Qed.

(** Node 1 of the scenario graph alone: it is kept although none of its
    edges is. *)
Lemma subgraphFromNodes_keeps_nodes_witness :
  let S := subgraphFromNodes scenarioGraph {[1]} false false in
  1 ∈ ({[1]} : gset node) ∧ hasNode scenarioGraph 1 = true
  ∧ hasNode S 1 = true ∧ edges S = [] ∧ hasNode S 0 = false.
Proof.
  destruct (subgraphFromNodes_keeps_nodes scenarioGraph {[1]} false false)
    as (Hkeep & Hdrop & _).
  split; [by apply elem_of_singleton|]. split; [reflexivity|].
  split; [apply Hkeep; [by apply elem_of_singleton|reflexivity]|].
  split; [by vm_compute|]. apply Hdrop. by vm_compute.
Defined.

(** C4: the edges of the result of [subgraphFromNodes] are the edges
    [(u, v)] of [G] with [relevance u + relevance v > 2], each as often as
    [G] has it and with its weight, where the relevance is 2 for a member of
    the node set, 1 for a node outside the set that is an out-neighbour (if
    [includeOutNeighbors]) or in-neighbour (if [includeInNeighbors]) of a
    member, and 0 otherwise.  So no edge of the result has both endpoints
    outside the node set, and without the two flags both endpoints of every
    edge are in the node set. *)
Theorem subgraphFromNodes_edges (G : Graph) (nodes : gset node)
    (includeOutNeighbors includeInNeighbors : bool) :
  let S := subgraphFromNodes G nodes includeOutNeighbors includeInNeighbors in
  let neighbors := subgraphNeighbors G nodes includeOutNeighbors includeInNeighbors in
  let relevance := isRelevantNode nodes neighbors in
  edges S ≡ₚ filter (λ e, 2 < relevance e.1.1 + relevance e.1.2) (edges G)
  ∧ (∀ u v w, (u, v, w) ∈ edges S
              ↔ (u, v, w) ∈ edges G ∧ 2 < relevance u + relevance v)
  ∧ (∀ u v w, (u, v, w) ∈ edges S → u ∈ nodes ∨ v ∈ nodes)
  ∧ (∀ u v w, (u, v, w) ∈ edges (subgraphFromNodes G nodes false false) →
              u ∈ nodes ∧ v ∈ nodes)
  ∧ (∀ u, relevance u
          = if bool_decide (u ∈ nodes) then 2
            else if bool_decide (u ∈ neighbors) then 1 else 0)
  ∧ (∀ v, v ∈ neighbors
          ↔ ∃ u, u ∈ nodes
                 ∧ ((includeOutNeighbors = true ∧ v ∈ neighborRange G u)
                    ∨ (includeInNeighbors = true ∧ v ∈ inNeighborRange G u))).
Proof.
  intros S neighbors relevance.
  assert (Hperm : ∀ o i,
    edges (subgraphFromNodes G nodes o i)
    ≡ₚ filter (λ e, 2 < isRelevantNode nodes (subgraphNeighbors G nodes o i) e.1.1
                        + isRelevantNode nodes (subgraphNeighbors G nodes o i) e.1.2)
              (edges G)).
  { intros o i. rewrite subgraphFromNodes_unfold.
    etrans.
    { apply (edges_foldl_addEdge
               (keepsEdge (isRelevantNode nodes (subgraphNeighbors G nodes o i)))).
      - unfold subgraphNodesOnly. graph_simpl. apply length_replicate.
      - intros u v w Hin. by apply edges_reported in Hin. }
    rewrite edges_subgraphNodesOnly. simpl.
    rewrite (list_filter_iff _ (λ e, 2 < isRelevantNode nodes (subgraphNeighbors G nodes o i) e.1.1
                        + isRelevantNode nodes (subgraphNeighbors G nodes o i) e.1.2));
      [done|]. intros e. apply bool_decide_eq_true. }
  assert (Hmem : ∀ o i u v w,
    (u, v, w) ∈ edges (subgraphFromNodes G nodes o i)
    ↔ (u, v, w) ∈ edges G
      ∧ 2 < isRelevantNode nodes (subgraphNeighbors G nodes o i) u
            + isRelevantNode nodes (subgraphNeighbors G nodes o i) v).
  { intros o i u v w. rewrite (Hperm o i), list_elem_of_filter. simpl. tauto. }
  split_and!.
  - apply Hperm.
  - apply Hmem.
  - intros u v w [_ Hrel]%Hmem.
    destruct (isRelevantNode_cases G nodes includeOutNeighbors includeInNeighbors u)
      as [[_ ?]|[[Hu _]|[Hu _]]]; [by left|..];
    destruct (isRelevantNode_cases G nodes includeOutNeighbors includeInNeighbors v)
      as [[_ ?]|[[Hv _]|[Hv _]]]; try (by right); lia.
  - intros u v w [_ Hrel]%Hmem.
    assert (Hempty : ∀ x, x ∉ subgraphNeighbors G nodes false false)
      by (intros x; apply not_elem_of_empty).
    destruct (isRelevantNode_cases G nodes false false u)
      as [[Hu ?]|[[_ [_ Hu]]|[Hu _]]]; [|by apply Hempty in Hu|];
    destruct (isRelevantNode_cases G nodes false false v)
      as [[Hv ?]|[[_ [_ Hv]]|[Hv _]]]; first [done|by apply Hempty in Hv|lia].
  - intros u.
    destruct (isRelevantNode_cases G nodes includeOutNeighbors includeInNeighbors u)
      as [[Hr Hu]|[[Hr [Hu Hn]]|[Hr [Hu Hn]]]]; fold neighbors in Hr;
      fold relevance in Hr; rewrite Hr.
    + by rewrite bool_decide_eq_true_2.
    + by rewrite bool_decide_eq_false_2, bool_decide_eq_true_2.
    + by rewrite !bool_decide_eq_false_2.
  - apply elem_of_subgraphNeighbors.
Qed.

(** Node 0 of the scenario graph with its out-neighbours: the edge 0→1
    stays; 1→3 and 3→0 go, since 3 is no out-neighbour of 0. *)
Lemma subgraphFromNodes_edges_witness :
  edges (subgraphFromNodes scenarioGraph {[0]} true false) ≡ₚ [(0, 1, 1%float)]
  ∧ edges (subgraphFromNodes scenarioGraph {[0; 1]} false false) ≡ₚ [(0, 1, 1%float)].
Proof.
  destruct (subgraphFromNodes_edges scenarioGraph {[0]} true false) as (H1 & _).
  destruct (subgraphFromNodes_edges scenarioGraph {[0; 1]} false false) as (H2 & _).
  split; [rewrite H1|rewrite H2]; by vm_compute.
Defined.

(** ** Merge *)

Lemma merge_phases (G G1 : Graph) :
  merge G G1 = mergeEdges (mergeRestore (mergeGrow G G1) G1) G1.
Proof. reflexivity. Qed.

Section extends.
Implicit Types (G s : Graph) (u v i : node).

Lemma extends_refl G : extends G G.
Proof. unfold extends. by split_and!. Qed.

Lemma extends_trans G s s' : extends G s → extends s s' → extends G s'.
Proof.
  intros (Hz & Hw & Hd & Hi & Hn & Ho & Hin) (Hz' & Hw' & Hd' & Hi' & Hn' & Ho' & Hin').
  unfold extends. split_and!; try congruence.
  - lia.
  - intros u Hu. by apply Hn', Hn.
  - intros u. etrans; [apply Ho|apply Ho'].
  - intros u. etrans; [apply Hin|apply Hin'].
Qed.

Lemma hasNode_addNode s u : hasNode s u = true → hasNode (addNode s).1 u = true.
Proof.
  unfold hasNode, addNode. graph_simpl.
  intros [Hlt%bool_decide_eq_true Hex%bool_decide_eq_true]%andb_prop.
  rewrite bool_decide_eq_true_2 by lia. simpl.
  apply bool_decide_eq_true_2. by apply lookup_app_l_Some.
Qed.

Lemma outAdj_addNode s u : outAdj (addNode s).1 u = outAdj s u.
Proof.
  unfold outAdj, addNode. graph_simpl.
  destruct (decide (u < length (outEdges s))) as [Hu|Hu].
  - by rewrite lookup_app_l.
  - rewrite (lookup_ge_None_2 (outEdges s)) by lia. simpl.
    destruct (decide (u = length (outEdges s))) as [->|Hne].
    + by rewrite list_lookup_middle.
    + rewrite lookup_ge_None_2; [done|]. rewrite length_app. simpl. lia.
Qed.

Lemma inAdj_addNode s u : inAdj (addNode s).1 u = inAdj s u.
Proof.
  unfold inAdj. change (isDirected (addNode s).1) with (isDirected s).
  destruct (isDirected s) eqn:Hd; [|apply outAdj_addNode].
  unfold addNode. graph_simpl. rewrite Hd.
  destruct (decide (u < length (inEdges s))) as [Hu|Hu].
  - by rewrite lookup_app_l.
  - rewrite (lookup_ge_None_2 (inEdges s)) by lia. simpl.
    destruct (decide (u = length (inEdges s))) as [->|Hne].
    + by rewrite list_lookup_middle.
    + rewrite lookup_ge_None_2; [done|]. rewrite length_app. simpl. lia.
Qed.

Lemma extends_addNode s : extends s (addNode s).1.
Proof.
  unfold extends. split_and!; try done.
  - simpl. lia.
  - apply hasNode_addNode.
  - intros u. by rewrite outAdj_addNode.
  - intros u. by rewrite inAdj_addNode.
Qed.

Lemma hasNode_removeNode_ne s i u : u ≠ i → hasNode (removeNode i s) u = hasNode s u.
Proof.
  intros Hne. unfold hasNode, removeNode, withNumberOfNodes, withExists. graph_simpl.
  by rewrite list_lookup_insert_ne.
Qed.

(** Removing a node above the bound of [G] takes nothing of [G] away. *)
Lemma extends_removeNode G s i :
  upperNodeIdBound G ≤ i → extends G s → extends G (removeNode i s).
Proof.
  intros Hi (Hz & Hw & Hd & Hids & Hn & Ho & Hin).
  unfold extends. split_and!; try done.
  intros u Hu. rewrite hasNode_removeNode_ne; [by apply Hn|].
  apply hasNode_lt in Hu. lia.
Qed.

Lemma hasNode_restoreNode s i u :
  hasNode s u = true → hasNode (restoreNode i s) u = true.
Proof.
  unfold hasNode, restoreNode, withNumberOfNodes, withExists. graph_simpl.
  intros [Hlt Hex%bool_decide_eq_true]%andb_prop. rewrite Hlt. simpl.
  apply bool_decide_eq_true_2. rewrite list_lookup_insert.
  destruct (decide (i = u ∧ i < length (exists_ s))); done.
Qed.

Lemma extends_restoreNode s i : extends s (restoreNode i s).
Proof.
  unfold extends. split_and!; try done. intros u. apply hasNode_restoreNode.
Qed.

Lemma outAdj_addEdge_prefix s u v (w : edgeweight) x :
  outAdj s x `prefix_of` outAdj (addEdge u v w s) x.
Proof.
  destruct (decide (x = u)) as [->|Hxu].
  - destruct (decide (u < length (outEdges s))) as [Hu|Hu].
    + rewrite outAdj_addEdge_source by done. by apply prefix_app_r.
    + rewrite (outAdj_ge s u) by lia. apply prefix_nil.
  - destruct (decide (isDirected s = true ∨ x ≠ v)) as [Hc|Hc].
    + by rewrite outAdj_addEdge_other.
    + assert (isDirected s = false ∧ x = v) as [Hund ->].
      { split; [apply not_true_is_false|apply dec_stable]; intros ?; apply Hc; auto. }
      destruct (decide (v < length (outEdges s))) as [Hv|Hv].
      * rewrite outAdj_addEdge_target by done. by apply prefix_app_r.
      * rewrite (outAdj_ge s v) by lia. apply prefix_nil.
Qed.

Lemma inAdj_addEdge_prefix s u v (w : edgeweight) x :
  inAdj s x `prefix_of` inAdj (addEdge u v w s) x.
Proof.
  unfold inAdj. change (isDirected (addEdge u v w s)) with (isDirected s).
  destruct (isDirected s) eqn:Hd; [|apply outAdj_addEdge_prefix].
  unfold addEdge. graph_simpl. rewrite Hd.
  destruct (decide (x = v)) as [->|Hne].
  - unfold pushBack. rewrite list_lookup_alter_eq.
    destruct (inEdges s !! v); simpl; [by apply prefix_app_r|done].
  - by rewrite lookup_pushBack_ne.
Qed.

Lemma extends_addEdge s u v (w : edgeweight) : extends s (addEdge u v w s).
Proof.
  unfold extends. split_and!; try done.
  - intros x. apply outAdj_addEdge_prefix.
  - intros x. apply inAdj_addEdge_prefix.
Qed.

Lemma extends_foldl {B : Type} (f : Graph → B → Graph) (l : list B) G s :
  (∀ s x, x ∈ l → extends G s → extends G (f s x)) →
  extends G s → extends G (foldl f s l).
Proof.
  revert s. induction l as [|x l IH]; intros s Hf Hs; [done|]. simpl.
  apply IH.
  - intros s' y Hy. apply Hf. by right.
  - apply Hf; [by left|done].
Qed.

Lemma extends_mergeGrow G G1 : extends G (mergeGrow G G1).
Proof.
  unfold mergeGrow. case_bool_decide as Hlt; [|apply extends_refl]. simpl.
  apply extends_foldl.
  - intros s i Hi%elem_of_seq Hs.
    destruct (negb (hasNode G1 i)); [|done]. apply extends_removeNode; [lia|done].
  - apply extends_foldl; [|apply extends_refl].
    intros s _ _ Hs. eapply extends_trans; [done|apply extends_addNode].
Qed.

Lemma extends_mergeRestore G G1 : extends G (mergeRestore G G1).
Proof.
  unfold mergeRestore. apply extends_foldl; [|apply extends_refl].
  intros s i _ Hs. destruct (negb (hasNode s i) && hasNode G1 i); [|done].
  eapply extends_trans; [done|apply extends_restoreNode].
Qed.

Lemma extends_mergeEdges G G1 : extends G (mergeEdges G G1).
Proof.
  unfold mergeEdges, forEdges. apply extends_foldl; [|apply extends_refl].
  intros s e _ Hs. destruct (negb (hasEdge s e.1.1 e.1.2)); [|done].
  eapply extends_trans; [done|apply extends_addEdge].
Qed.

Lemma extends_merge G G1 : extends G (merge G G1).
Proof.
  rewrite merge_phases.
  eapply extends_trans; [apply extends_mergeGrow|].
  eapply extends_trans; [apply extends_mergeRestore|apply extends_mergeEdges].
Qed.

(** What is in [G] is found in a graph that extends [G]. *)
Lemma extends_edgesWithIds G s u v (w : edgeweight) (id : option edgeid) :
  extends G s → (u, v, w, id) ∈ edgesWithIds G → (u, v, w, id) ∈ edgesWithIds s.
Proof.
  intros (Hz & Hw & Hd & Hi & _ & Ho & _).
  rewrite !elem_of_edgesWithIds.
  intros (Hu & a & Ha & Huse & -> & -> & ->). split; [lia|].
  exists a. split_and!.
  - destruct (Ho u) as [k ->]. apply elem_of_app. by left.
  - unfold useEdgeInIteration in *. by rewrite Hd.
  - done.
  - unfold weightIn. by rewrite Hw.
  - unfold idIn. by rewrite Hi.
Qed.

Lemma extends_hasEdge G s u v :
  extends G s → hasEdge G u v = true → hasEdge s u v = true.
Proof.
  intros (Hz & _ & _ & _ & _ & Ho & _). unfold hasEdge.
  intros [[Hu%bool_decide_eq_true Hv%bool_decide_eq_true]%andb_prop
          Hin%bool_decide_eq_true]%andb_prop.
  rewrite !bool_decide_eq_true_2; [done| | |]; try lia.
  destruct (Ho u) as [k ->]. rewrite fmap_app. apply elem_of_app. by left.
Qed.
End extends.

(** C10: [merge] takes nothing away from the target: every node of the target
    still exists, every node has its adjacency records of before, unchanged and
    in place, in front of the new ones (so every edge is still there, with its
    weight and its id), the flags are the same and the id bound is not
    smaller. *)
Theorem merge_frame (G G1 : Graph) :
  (∀ u, hasNode G u = true → hasNode (merge G G1) u = true)
  ∧ (∀ u, outAdj G u `prefix_of` outAdj (merge G G1) u)
  ∧ (∀ u, inAdj G u `prefix_of` inAdj (merge G G1) u)
  ∧ (∀ u v w id, (u, v, w, id) ∈ edgesWithIds G → (u, v, w, id) ∈ edgesWithIds (merge G G1))
  ∧ (∀ u v w, (u, v, w) ∈ edges G → (u, v, w) ∈ edges (merge G G1))
  ∧ (∀ u v, hasEdge G u v = true → hasEdge (merge G G1) u v = true)
  ∧ upperNodeIdBound G ≤ upperNodeIdBound (merge G G1)
  ∧ isWeighted (merge G G1) = isWeighted G
  ∧ isDirected (merge G G1) = isDirected G.
Proof.
  pose proof (extends_merge G G1) as Hext.
  pose proof Hext as (Hz & Hw & Hd & Hi & Hn & Ho & Hin).
  split_and!; try done.
  - intros u v w id. by apply extends_edgesWithIds.
  - intros u v w. unfold edges. rewrite !list_elem_of_fmap.
    intros ([[[u' v'] w'] id] & Heq & Hin'). simplify_eq/=.
    exists (u', v', w', id). split; [done|]. by apply (extends_edgesWithIds G).
  - intros u v. by apply extends_hasEdge.
Qed.

(** *** The three phases *)

Section merge_phases.
Implicit Types (G s : Graph) (u v i j : node).

(** The part of a graph that only [addNode] changes. *)
Lemma foldl_addNode {B : Type} (l : list B) s :
  length (exists_ s) = upperNodeIdBound s →
  length (outEdges s) = upperNodeIdBound s →
  let s' := foldl (λ G (_ : B), (addNode G).1) s l in
  upperNodeIdBound s' = upperNodeIdBound s + length l
  ∧ length (exists_ s') = upperNodeIdBound s'
  ∧ length (outEdges s') = upperNodeIdBound s'
  ∧ (∀ u, outAdj s' u = outAdj s u)
  ∧ isDirected s' = isDirected s
  ∧ (∀ i, upperNodeIdBound s ≤ i < upperNodeIdBound s + length l → hasNode s' i = true).
Proof.
  revert s. induction l as [|x l IH]; intros s He Ho; cbn [foldl].
  { simpl. split_and!; first [done|lia|intros i ?; lia]. }
  destruct (IH (addNode s).1) as (Hz & He' & Ho' & Hadj & Hd & Hnew).
  { unfold addNode. graph_simpl. rewrite length_app. simpl. lia. }
  { unfold addNode. graph_simpl. rewrite length_app. simpl. lia. }
  split_and!; try done.
  - rewrite Hz. simpl. lia.
  - intros u. by rewrite Hadj, outAdj_addNode.
  - intros i Hi. destruct (decide (i = upperNodeIdBound s)) as [->|Hne].
    + assert (Hhere : hasNode (addNode s).1 (upperNodeIdBound s) = true).
      { unfold hasNode, addNode. graph_simpl.
        rewrite bool_decide_eq_true_2 by lia. simpl. apply bool_decide_eq_true_2.
        rewrite <-He. by rewrite list_lookup_middle. }
      clear -Hhere. revert Hhere. generalize (addNode s).1 as t.
      induction l as [|y l IHl]; intros t Ht; [done|]. simpl.
      apply IHl. by apply hasNode_addNode.
    + apply Hnew. simpl in Hi |- *. lia.
Qed.

Lemma foldl_removeNode_absent (G1 : Graph) (l : list node) s :
  let s' := foldl (λ G i, if negb (hasNode G1 i) then removeNode i G else G) s l in
  upperNodeIdBound s' = upperNodeIdBound s
  ∧ length (exists_ s') = length (exists_ s)
  ∧ outEdges s' = outEdges s
  ∧ isDirected s' = isDirected s
  ∧ (∀ j, hasNode G1 j = true → hasNode s' j = hasNode s j).
Proof.
  revert s. induction l as [|x l IH]; intros s; simpl; [done|].
  destruct (hasNode G1 x) eqn:Hx; simpl; [apply IH|].
  destruct (IH (removeNode x s)) as (Hz & He & Ho & Hd & Hn).
  split_and!; try done.
  - rewrite He. unfold removeNode, withNumberOfNodes, withExists. graph_simpl.
    apply length_insert.
  - intros j Hj. rewrite Hn by done. apply hasNode_removeNode_ne. congruence.
Qed.

(** After the first phase the target spans the id range of the source, and
    the new ids that are nodes of the source exist. *)
Lemma mergeGrow_spec G (G1 : Graph) :
  length (exists_ G) = upperNodeIdBound G →
  length (outEdges G) = upperNodeIdBound G →
  let s := mergeGrow G G1 in
  upperNodeIdBound s = upperNodeIdBound G `max` upperNodeIdBound G1
  ∧ length (exists_ s) = upperNodeIdBound s
  ∧ length (outEdges s) = upperNodeIdBound s
  ∧ (∀ u, outAdj s u = outAdj G u)
  ∧ isDirected s = isDirected G
  ∧ (∀ i, upperNodeIdBound G ≤ i → hasNode G1 i = true → hasNode s i = true).
Proof.
  intros He Ho. unfold mergeGrow. case_bool_decide as Hlt; cbv zeta.
  - destruct (foldl_addNode
                (seq (upperNodeIdBound G) (upperNodeIdBound G1 - upperNodeIdBound G))
                G He Ho) as (Hz & He' & Ho' & Hadj & Hd & Hnew).
    destruct (foldl_removeNode_absent G1
                (seq (upperNodeIdBound G) (upperNodeIdBound G1 - upperNodeIdBound G))
                (foldl (λ G (_ : node), (addNode G).1) G
                   (seq (upperNodeIdBound G) (upperNodeIdBound G1 - upperNodeIdBound G))))
      as (Hz2 & He2 & Ho2 & Hd2 & Hn2).
    rewrite length_seq in Hz, Hnew.
    split_and!.
    + rewrite Hz2, Hz. lia.
    + by rewrite Hz2, He2.
    + by rewrite Hz2, Ho2.
    + intros u. unfold outAdj at 1. rewrite Ho2. apply Hadj.
    + by rewrite Hd2.
    + intros i Hi Hi1. rewrite Hn2 by done. apply Hnew.
      apply hasNode_lt in Hi1. lia.
  - split_and!; try done; [lia|].
    intros i Hi Hi1%hasNode_lt. lia.
Qed.

Lemma foldl_restoreNode (G1 : Graph) (l : list node) s :
  let s' := foldl (λ G i, if negb (hasNode G i) && hasNode G1 i
                          then restoreNode i G else G) s l in
  upperNodeIdBound s' = upperNodeIdBound s
  ∧ length (exists_ s') = length (exists_ s)
  ∧ outEdges s' = outEdges s
  ∧ isDirected s' = isDirected s
  ∧ (∀ j, hasNode s j = true → hasNode s' j = true)
  ∧ (∀ j, j ∈ l → j < upperNodeIdBound s → j < length (exists_ s) →
          hasNode G1 j = true → hasNode s' j = true).
Proof.
  revert s. induction l as [|x l IH]; intros s; simpl.
  { split_and!; try done. intros j Hj. by apply elem_of_nil in Hj. }
  set (s1 := if negb (hasNode s x) && hasNode G1 x then restoreNode x s else s).
  destruct (IH s1) as (Hz & He & Ho & Hd & Hmono & Hin).
  assert (Hz1 : upperNodeIdBound s1 = upperNodeIdBound s)
    by (unfold s1; by destruct (negb (hasNode s x) && hasNode G1 x)).
  assert (He1 : length (exists_ s1) = length (exists_ s)).
  { unfold s1. destruct (negb (hasNode s x) && hasNode G1 x); [|done].
    unfold restoreNode, withNumberOfNodes, withExists. graph_simpl. apply length_insert. }
  assert (Ho1 : outEdges s1 = outEdges s)
    by (unfold s1; by destruct (negb (hasNode s x) && hasNode G1 x)).
  assert (Hd1 : isDirected s1 = isDirected s)
    by (unfold s1; by destruct (negb (hasNode s x) && hasNode G1 x)).
  assert (Hmono1 : ∀ j, hasNode s j = true → hasNode s1 j = true).
  { intros j Hj. unfold s1. destruct (negb (hasNode s x) && hasNode G1 x); [|done].
    by apply hasNode_restoreNode. }
  split_and!; try congruence.
  - intros j Hj. by apply Hmono, Hmono1.
  - intros j [->|Hj]%elem_of_cons Hjz Hje Hj1.
    + apply Hmono. unfold s1. rewrite Hj1, andb_true_r.
      destruct (hasNode s x) eqn:Hx; simpl; [done|].
      unfold hasNode, restoreNode, withNumberOfNodes, withExists. graph_simpl.
      rewrite bool_decide_eq_true_2 by done. simpl. apply bool_decide_eq_true_2.
      by apply list_lookup_insert_eq.
    + apply Hin; [done|lia|lia|done].
Qed.

Lemma mergeRestore_spec s (G1 : Graph) :
  length (exists_ s) = upperNodeIdBound s →
  let s' := mergeRestore s G1 in
  upperNodeIdBound s' = upperNodeIdBound s
  ∧ length (exists_ s') = upperNodeIdBound s'
  ∧ outEdges s' = outEdges s
  ∧ isDirected s' = isDirected s
  ∧ (∀ j, hasNode s j = true → hasNode s' j = true)
  ∧ (∀ j, j < upperNodeIdBound s → hasNode G1 j = true → hasNode s' j = true).
Proof.
  intros He. unfold mergeRestore.
  destruct (foldl_restoreNode G1 (seq 0 (upperNodeIdBound s)) s)
    as (Hz & He' & Ho & Hd & Hmono & Hin).
  split_and!; try done; [congruence|].
  intros j Hj Hj1. apply Hin; [apply elem_of_seq; lia|done|lia|done].
Qed.

Lemma hasEdge_addEdge s u v (w : edgeweight) :
  u < upperNodeIdBound s → v < upperNodeIdBound s → u < length (outEdges s) →
  hasEdge (addEdge u v w s) u v = true.
Proof.
  intros Hu Hv Hlen. unfold hasEdge.
  change (upperNodeIdBound (addEdge u v w s)) with (upperNodeIdBound s).
  rewrite (bool_decide_eq_true_2 _ Hu), (bool_decide_eq_true_2 _ Hv). simpl.
  apply bool_decide_eq_true_2.
  rewrite outAdj_addEdge_source by done. rewrite fmap_app.
  apply elem_of_app. right. simpl. by left.
Qed.

Lemma foldl_addEdge_missing (L : list (node * node * edgeweight)) s :
  let s' := foldl (λ G e, if negb (hasEdge G e.1.1 e.1.2)
                          then addEdge e.1.1 e.1.2 e.2 G else G) s L in
  upperNodeIdBound s' = upperNodeIdBound s
  ∧ exists_ s' = exists_ s
  ∧ length (outEdges s') = length (outEdges s)
  ∧ (∀ u v, hasEdge s u v = true → hasEdge s' u v = true)
  ∧ (∀ u v w, (u, v, w) ∈ L → u < upperNodeIdBound s → v < upperNodeIdBound s →
              u < length (outEdges s) → hasEdge s' u v = true).
Proof.
  revert s. induction L as [|[[a b] c] L IH]; intros s; simpl.
  { split_and!; try done. intros u v w Hin. by apply elem_of_nil in Hin. }
  set (s1 := if negb (hasEdge s a b) then addEdge a b c s else s).
  destruct (IH s1) as (Hz & He & Ho & Hmono & Hin).
  assert (Hz1 : upperNodeIdBound s1 = upperNodeIdBound s)
    by (unfold s1; by destruct (negb (hasEdge s a b))).
  assert (He1 : exists_ s1 = exists_ s)
    by (unfold s1; by destruct (negb (hasEdge s a b))).
  assert (Ho1 : length (outEdges s1) = length (outEdges s)).
  { unfold s1. destruct (negb (hasEdge s a b)); [|done]. apply addEdge_frame. }
  assert (Hmono1 : ∀ u v, hasEdge s u v = true → hasEdge s1 u v = true).
  { intros u v Huv. unfold s1. destruct (negb (hasEdge s a b)); [|done].
    by apply (extends_hasEdge s), Huv; apply extends_addEdge. }
  split_and!; try congruence.
  - intros u v Huv. by apply Hmono, Hmono1.
  - intros u v w [Heq|Hin']%elem_of_cons Hu Hv Hlen.
    + simplify_eq. apply Hmono. unfold s1.
      destruct (hasEdge s a b) eqn:Hab; simpl; [done|]. by apply hasEdge_addEdge.
    + eapply Hin; [done|lia|lia|lia].
Qed.
End merge_phases.

(** *** Merging twice *)

Lemma wellFormed_lengths (G : Graph) :
  wellFormed G →
  length (exists_ G) = upperNodeIdBound G ∧ length (outEdges G) = upperNodeIdBound G.
Proof. by intros (? & ? & _). Qed.

Lemma wellFormed_edges_in_range (G : Graph) (u v : node) (w : edgeweight) :
  wellFormed G → (u, v, w) ∈ edges G → u < upperNodeIdBound G ∧ v < upperNodeIdBound G.
Proof.
  intros (_ & _ & _ & _ & _ & Hnb & _) (Hu & a & Ha & _ & -> & _)%elem_of_edges.
  split; [done|]. apply hasNode_lt.
  rewrite Forall_forall in Hnb. specialize (Hnb u).
  rewrite Forall_forall in Hnb. apply Hnb; [apply elem_of_seq; lia|].
  apply elem_of_app. by left.
Qed.

(** After a merge the target has the nodes and the edges of the source. *)
Lemma merge_contains_source (G G1 : Graph) :
  wellFormed G → wellFormed G1 →
  upperNodeIdBound (merge G G1) = upperNodeIdBound G `max` upperNodeIdBound G1
  ∧ (∀ i, hasNode G1 i = true → hasNode (merge G G1) i = true)
  ∧ (∀ u v w, (u, v, w) ∈ edges G1 → hasEdge (merge G G1) u v = true).
Proof.
  intros [He Ho]%wellFormed_lengths Hwf1. rewrite merge_phases.
  destruct (mergeGrow_spec G G1 He Ho) as (Hz & He' & Ho' & _ & _ & Hnew).
  destruct (mergeRestore_spec (mergeGrow G G1) G1 He')
    as (Hz2 & He2 & Ho2 & _ & Hmono2 & Hres).
  unfold mergeEdges, forEdges.
  destruct (foldl_addEdge_missing (edges G1) (mergeRestore (mergeGrow G G1) G1))
    as (Hz3 & He3 & Ho3 & _ & Hedges).
  split_and!.
  - rewrite Hz3, Hz2, Hz. done.
  - intros i Hi. unfold hasNode. rewrite Hz3, He3. fold (hasNode (mergeRestore (mergeGrow G G1) G1) i).
    apply Hres; [|done]. rewrite Hz. apply hasNode_lt in Hi. lia.
  - intros u v w Hin.
    destruct (wellFormed_edges_in_range G1 u v w Hwf1 Hin) as [Hu Hv].
    apply (Hedges u v w Hin); rewrite ?Ho2, ?Ho', ?Hz2, Hz; lia.
Qed.

Lemma merge_unchanged (G G1 : Graph) :
  upperNodeIdBound G1 ≤ upperNodeIdBound G →
  (∀ i, hasNode G1 i = true → hasNode G i = true) →
  (∀ u v w, (u, v, w) ∈ edges G1 → hasEdge G u v = true) →
  merge G G1 = G.
Proof.
  intros Hz Hnodes Hedges. rewrite merge_phases.
  assert (Hgrow : mergeGrow G G1 = G).
  { unfold mergeGrow. by rewrite bool_decide_eq_false_2 by lia. }
  assert (Hrestore : mergeRestore G G1 = G).
  { unfold mergeRestore. apply foldl_unchanged. intros i _.
    destruct (hasNode G1 i) eqn:Hi; [|by rewrite andb_false_r].
    by rewrite (Hnodes i Hi). }
  rewrite Hgrow, Hrestore. unfold mergeEdges, forEdges.
  apply foldl_unchanged. intros [[u v] w] Hin. simpl.
  by rewrite (Hedges u v w Hin).
Qed.

Lemma merge_twice (G G1 : Graph) :
  wellFormed G → wellFormed G1 → merge (merge G G1) G1 = merge G G1.
Proof.
  intros Hwf Hwf1.
  destruct (merge_contains_source G G1 Hwf Hwf1) as (Hz & Hn & He).
  apply merge_unchanged; [lia|done|done].
Qed.

(** *** No duplicate edges *)

Lemma adjacencyCount_zero (s : Graph) (u v : node) :
  adjacencyCount s u v = 0 ↔ v ∉ neighbor <$> outAdj s u.
Proof.
  unfold adjacencyCount. induction (outAdj s u) as [|a l IH]; simpl.
  - split; [intros _ ?%elem_of_nil; done|done].
  - rewrite filter_cons, not_elem_of_cons. case_decide as Ha; simpl.
    + split; [done|]. intros [Hne _]. by destruct Hne.
    + rewrite IH. split; [intros ?; split; [congruence|done]|tauto].
Qed.

Lemma hasEdge_false_count (s : Graph) (u v : node) :
  u < upperNodeIdBound s → v < upperNodeIdBound s →
  hasEdge s u v = false → adjacencyCount s u v = 0.
Proof.
  intros Hu Hv. unfold hasEdge.
  rewrite (bool_decide_eq_true_2 _ Hu), (bool_decide_eq_true_2 _ Hv). simpl.
  intros Hin%bool_decide_eq_false. by apply adjacencyCount_zero.
Qed.

Lemma adjacencyCount_addEdge (s : Graph) (a b : node) (w : edgeweight) (u v : node) :
  a < length (outEdges s) → b < length (outEdges s) →
  adjacencyCount (addEdge a b w s) u v
  = adjacencyCount s u v
    + (if decide (u = a ∧ v = b) then 1 else 0)
    + (if decide (isDirected s = false ∧ a ≠ b ∧ u = b ∧ v = a) then 1 else 0).
Proof.
  intros Ha Hb. unfold adjacencyCount.
  destruct (decide (u = a)) as [->|Hua].
  - rewrite outAdj_addEdge_source, filter_app, length_app by done.
    rewrite filter_cons, filter_nil. simpl.
    repeat case_decide; simpl; try lia; exfalso; intuition congruence.
  - destruct (decide (isDirected s = true ∨ u ≠ b)) as [Hc|Hc].
    + rewrite outAdj_addEdge_other by done.
      repeat case_decide; simpl; try lia; exfalso; intuition congruence.
    + assert (isDirected s = false ∧ u = b) as [Hund ->].
      { split; [apply not_true_is_false|apply dec_stable]; intros ?; apply Hc; auto. }
      rewrite outAdj_addEdge_target, filter_app, length_app by done.
      rewrite filter_cons, filter_nil. simpl.
      repeat case_decide; simpl; try lia; exfalso; intuition congruence.
Qed.

Lemma foldl_addEdge_noDuplicates (G : Graph) (L : list (node * node * edgeweight))
    (s : Graph) :
  length (outEdges s) = upperNodeIdBound s →
  (∀ u v w, (u, v, w) ∈ L → u < upperNodeIdBound s ∧ v < upperNodeIdBound s) →
  noDuplicatesAdded G s → symmetricAdjacency s →
  noDuplicatesAdded G
    (foldl (λ G e, if negb (hasEdge G e.1.1 e.1.2)
                   then addEdge e.1.1 e.1.2 e.2 G else G) s L).
Proof.
  revert s. induction L as [|[[a b] c] L IH]; intros s Hlen HL Hinv Hsym; [done|].
  simpl. destruct (HL a b c) as [Ha Hb]; [by left|].
  destruct (hasEdge s a b) eqn:Hab; simpl.
  { apply IH; [done| |done|done]. intros u v w Hin. apply (HL u v w). by right. }
  pose proof (hasEdge_false_count s a b Ha Hb Hab) as Hzero.
  pose proof (addEdge_frame s a b c) as (Hz & _ & Hd & _ & _ & _ & Hl).
  assert (Hcount : ∀ u v,
    adjacencyCount (addEdge a b c s) u v
    = adjacencyCount s u v
      + (if decide (u = a ∧ v = b) then 1 else 0)
      + (if decide (isDirected s = false ∧ a ≠ b ∧ u = b ∧ v = a) then 1 else 0)).
  { intros u v. apply adjacencyCount_addEdge; lia. }
  apply IH.
  - by rewrite Hl, Hz.
  - intros u v w Hin. rewrite Hz. apply (HL u v w). by right.
  - intros u v. rewrite Hcount.
    destruct (decide (u = a ∧ v = b)) as [[-> ->]|Hsrc].
    + rewrite decide_False by tauto.
      destruct (Hinv a b) as [?|[? ?]]; lia.
    + destruct (decide (isDirected s = false ∧ a ≠ b ∧ u = b ∧ v = a))
        as [(Hund & Hne & -> & ->)|Htgt].
      * pose proof (Hsym Hund a b). destruct (Hinv b a) as [?|[? ?]]; lia.
      * destruct (Hinv u v) as [?|[? ?]]; [left; lia|right; lia].
  - intros Hund u v. rewrite Hd in Hund. rewrite !Hcount.
    pose proof (Hsym Hund u v).
    destruct (decide (a = b)); repeat case_decide; try lia;
      exfalso; intuition congruence.
Qed.

Lemma adjacencyCount_entry (g : Graph) (u v : node) :
  adjacencyCount g u v ≠ 0 → ∃ a, a ∈ outAdj g u ∧ neighbor a = v.
Proof.
  intros Hne.
  assert (Hin : v ∈ neighbor <$> outAdj g u).
  { apply dec_stable. intros Hnot. by apply Hne, adjacencyCount_zero. }
  apply list_elem_of_fmap in Hin as (a & -> & Ha). by exists a.
Qed.

Lemma wellFormed_symmetric (g : Graph) : wellFormed g → symmetricAdjacency g.
Proof.
  intros (_ & Hout & _ & _ & _ & _ & Hsym) Hund.
  specialize (Hsym Hund). rewrite Forall_forall in Hsym.
  assert (Hentry : ∀ u v, adjacencyCount g u v ≠ 0 →
                          adjacencyCount g u v = adjacencyCount g v u).
  { intros u v (a & Ha & <-)%adjacencyCount_entry.
    assert (Hu : u < upperNodeIdBound g).
    { destruct (decide (u < upperNodeIdBound g)) as [|Hge]; [done|].
      rewrite outAdj_ge in Ha by lia. by apply elem_of_nil in Ha. }
    specialize (Hsym u). rewrite Forall_forall in Hsym.
    apply Hsym; [apply elem_of_seq; lia|done]. }
  intros u v.
  destruct (decide (adjacencyCount g u v = 0)) as [Huv|Huv]; [|by apply Hentry].
  destruct (decide (adjacencyCount g v u = 0)) as [Hvu|Hvu]; [congruence|].
  symmetry. by apply Hentry.
Qed.

Lemma merge_noDuplicatesAdded (G G1 : Graph) :
  wellFormed G → wellFormed G1 → noDuplicatesAdded G (merge G G1).
Proof.
  intros Hwf Hwf1. pose proof (wellFormed_lengths G Hwf) as [He Ho].
  rewrite merge_phases.
  destruct (mergeGrow_spec G G1 He Ho) as (Hz & He' & Ho' & Hadj & Hd & _).
  destruct (mergeRestore_spec (mergeGrow G G1) G1 He')
    as (Hz2 & He2 & Ho2 & Hd2 & _ & _).
  assert (Hcount : ∀ u v, adjacencyCount (mergeRestore (mergeGrow G G1) G1) u v
                          = adjacencyCount G u v).
  { intros u v. unfold adjacencyCount. f_equal. f_equal.
    unfold outAdj at 1. rewrite Ho2. apply Hadj. }
  unfold mergeEdges, forEdges. apply foldl_addEdge_noDuplicates.
  - by rewrite Ho2, Ho', Hz2.
  - intros u v w Hin.
    destruct (wellFormed_edges_in_range G1 u v w Hwf1 Hin). rewrite Hz2, Hz. lia.
  - intros u v. left. apply Hcount.
  - intros Hund u v. rewrite !Hcount. apply (wellFormed_symmetric G Hwf). congruence.
Qed.

(** C5: [merge] adds an edge of the source only between endpoints that the
    target does not join yet: no node of the merged target names a neighbour
    more often than before, unless it did not name it before and now names it
    once; every edge of the source is an edge of the merged target; and a
    second merge of the same source gives back the merged target as it is. *)
Theorem merge_no_duplicates_idempotent (G G1 : Graph) :
  wellFormed G → wellFormed G1 →
  merge (merge G G1) G1 = merge G G1
  ∧ (∀ u v, adjacencyCount (merge G G1) u v = adjacencyCount G u v
            ∨ (adjacencyCount G u v = 0 ∧ adjacencyCount (merge G G1) u v = 1))
  ∧ (∀ u v, hasEdge G u v = true →
            adjacencyCount (merge G G1) u v = adjacencyCount G u v)
  ∧ (∀ u v w, (u, v, w) ∈ edges G1 → hasEdge (merge G G1) u v = true).
Proof.
  intros Hwf Hwf1.
  pose proof (merge_noDuplicatesAdded G G1 Hwf Hwf1) as Hnodup.
  split_and!.
  - by apply merge_twice.
  - apply Hnodup.
  - intros u v Huv. destruct (Hnodup u v) as [?|[Hzero _]]; [done|].
    apply adjacencyCount_zero in Hzero. unfold hasEdge in Huv.
    apply andb_prop in Huv as [_ Hin%bool_decide_eq_true]. done.
  - by apply merge_contains_source.
Qed.

(** The scenario of section 8: A has node 0 only, B has the nodes 0 and 1 and
    the edge between them. *)
Lemma merge_no_duplicates_idempotent_witness :
  let A := newGraph 1 false false in
  let B := oneEdgeGraph in
  wellFormed A ∧ wellFormed B
  ∧ nodes (merge A B) = [0; 1]
  ∧ edges (merge A B) = [(1, 0, 1%float)]
  ∧ numberOfEdges (merge A B) = 1
  ∧ merge (merge A B) B = merge A B.
Proof.
  assert (HA : wellFormed (newGraph 1 false false))
    by (apply (bool_decide_unpack _); by vm_compute).
  assert (HB : wellFormed oneEdgeGraph)
    by (apply (bool_decide_unpack _); by vm_compute).
  split; [exact HA|]. split; [exact HB|].
  split; [reflexivity|]. split; [reflexivity|]. split; [reflexivity|].
  apply (merge_no_duplicates_idempotent _ _ HA HB).
Defined.

(** The scenario graph merged into a graph of two nodes joined by an edge. *)
Lemma merge_frame_witness :
  hasNode (merge oneEdgeGraph scenarioGraph) 0 = true
  ∧ hasNode (merge oneEdgeGraph scenarioGraph) 1 = true
  ∧ (1, 0, 1%float) ∈ edges (merge oneEdgeGraph scenarioGraph)
  ∧ isDirected (merge oneEdgeGraph scenarioGraph) = false.
Proof.
  destruct (merge_frame oneEdgeGraph scenarioGraph)
    as (Hn & _ & _ & _ & He & _ & _ & _ & Hd).
  split; [by apply Hn|]. split; [by apply Hn|].
  split; [apply He; by vm_compute; left|exact Hd].
Defined.

(** ** Compacting a graph *)

Section rank.
Context (G : Graph).

Lemma rank_S (k : node) :
  rank G (S k) = if hasNode G k then S (rank G k) else rank G k.
Proof.
  unfold rank. rewrite seq_S, filter_app, length_app, Nat.add_0_l.
  destruct (hasNode G k) eqn:Hk.
  - rewrite filter_cons_True by done. simpl. lia.
  - rewrite filter_cons_False by (cbn beta; congruence). simpl. lia.
Qed.

Lemma nodes_split (k : node) :
  k ≤ upperNodeIdBound G →
  nodes G = filter (λ v, hasNode G v = true) (seq 0 k)
            ++ filter (λ v, hasNode G v = true) (seq k (upperNodeIdBound G - k)).
Proof.
  intros Hk. unfold nodes. rewrite <-filter_app, <-seq_app. do 2 f_equal. lia.
Qed.

Lemma nodes_lookup_rank (k : node) :
  hasNode G k = true → nodes G !! rank G k = Some k.
Proof.
  intros Hk. pose proof (hasNode_lt _ _ Hk) as Hlt.
  rewrite (nodes_split k) by lia. unfold rank. rewrite lookup_app_r by done.
  rewrite Nat.sub_diag.
  replace (upperNodeIdBound G - k) with (S (upperNodeIdBound G - S k)) by lia.
  simpl. by rewrite filter_cons_True.
Qed.

Lemma nodes_lookup_rank_hole (k v : node) :
  k < upperNodeIdBound G → hasNode G k = false →
  nodes G !! rank G k = Some v → k < v.
Proof.
  intros Hlt Hk. rewrite (nodes_split k) by lia. unfold rank.
  rewrite lookup_app_r by done. rewrite Nat.sub_diag.
  replace (upperNodeIdBound G - k) with (S (upperNodeIdBound G - S k)) by lia.
  simpl. rewrite filter_cons_False by (cbn beta; congruence).
  intros Hv%list_elem_of_lookup_2. apply list_elem_of_filter in Hv as [_ Hv].
  apply elem_of_seq in Hv. lia.
Qed.

Lemma rank_le (k : node) : k ≤ upperNodeIdBound G → rank G k ≤ length (nodes G).
Proof.
  intros Hk. rewrite (nodes_split k Hk), length_app. unfold rank. lia.
Qed.

Lemma rank_bound : rank G (upperNodeIdBound G) = length (nodes G).
Proof. done. Qed.

Lemma getContinuousNodeIds_rank (u : node) :
  hasNode G u = true → getContinuousNodeIds G !! u = Some (rank G u).
Proof. intros Hu. by apply getContinuousNodeIds_lookup, nodes_lookup_rank. Qed.

Lemma getContinuousNodeIds_rank_lt (u : node) :
  hasNode G u = true → rank G u < length (nodes G).
Proof. intros Hu. eapply lookup_lt_Some. by apply nodes_lookup_rank. Qed.

(** The test of [restoreGraph]: the entry at the next dense id is the id
    that the loop has reached exactly if that id is a node. *)
Lemma inverted_lookup_rank (k : node) :
  k < upperNodeIdBound G →
  (nodes G ++ [upperNodeIdBound G]) !!! rank G k = k ↔ hasNode G k = true.
Proof.
  intros Hk. split.
  - intros Heq. destruct (hasNode G k) eqn:Hn; [done|]. exfalso.
    destruct (decide (rank G k < length (nodes G))) as [Hlt|Hge].
    + rewrite lookup_total_app_l in Heq by done.
      destruct (lookup_lt_is_Some_2 (nodes G) (rank G k) Hlt) as [v Hv].
      rewrite (list_lookup_total_correct _ _ _ Hv) in Heq. subst v.
      pose proof (nodes_lookup_rank_hole k k Hk Hn Hv). lia.
    + pose proof (rank_le k ltac:(lia)).
      assert (Hr : rank G k = length (nodes G)) by lia.
      rewrite Hr in Heq.
      rewrite (list_lookup_total_correct _ _ (upperNodeIdBound G)) in Heq; [lia|].
      by apply list_lookup_middle.
  - intros Hn. apply list_lookup_total_correct, lookup_app_l_Some.
    by apply nodes_lookup_rank.
Qed.
End rank.

(** Adding a list of edges to a directed graph without edge ids. *)
Lemma foldl_addEdge_directed {B : Type} (src tgt : B → node) (wt : B → edgeweight)
    (L : list B) (s : Graph) :
  isDirected s = true → hasEdgeIds s = false →
  (∀ e, e ∈ L → src e < length (outEdges s)) →
  let s' := foldl (λ s e, addEdge (src e) (tgt e) (wt e) s) s L in
  upperNodeIdBound s' = upperNodeIdBound s
  ∧ exists_ s' = exists_ s
  ∧ isDirected s' = true
  ∧ hasEdgeIds s' = false
  ∧ isWeighted s' = isWeighted s
  ∧ length (outEdges s') = length (outEdges s)
  ∧ ∀ j, outAdj s' j
         = outAdj s j
           ++ omap (λ e, if decide (src e = j)
                         then Some (mkAdj (tgt e) (storedWeight s (wt e)) None)
                         else None) L.
Proof.
  revert s. induction L as [|e L IH]; intros s Hd Hids Hsrc; cbn [foldl].
  { split_and!; try done. intros j. by rewrite app_nil_r. }
  pose proof (addEdge_frame s (src e) (tgt e) (wt e)) as (Hz1 & Hw1 & Hd1 & Hi1 & He1 & _ & Hl1).
  destruct (IH (addEdge (src e) (tgt e) (wt e) s)) as (Hz & He & Hd' & Hi' & Hw & Hl & Hadj).
  { congruence. } { congruence. }
  { intros e' He'. rewrite Hl1. apply Hsrc. by right. }
  split_and!; try congruence.
  intros j. rewrite Hadj. unfold storedWeight. rewrite Hw1.
  change (omap ?f (e :: L)) with
    (match f e with Some y => y :: omap f L | None => omap f L end).
  destruct (decide (src e = j)) as [<-|Hne].
  - rewrite outAdj_addEdge_source by (apply Hsrc; by left).
    rewrite <-app_assoc, decide_True by done. simpl. do 2 f_equal.
    unfold record. by rewrite Hids.
  - rewrite outAdj_addEdge_other; [|congruence|by left].
    by rewrite decide_False.
Qed.

Lemma bind_unique {A B : Type} (F : A → list B) (l : list A) (x0 : A) :
  NoDup l → x0 ∈ l → (∀ x, x ∈ l → x ≠ x0 → F x = []) → l ≫= F = F x0.
Proof.
  induction 1 as [|x l Hx Hnd IH]; intros Hin HF; [by apply elem_of_nil in Hin|].
  rewrite bind_cons. apply elem_of_cons in Hin as [->|Hin].
  - assert (Hrest : l ≫= F = []).
    { clear IH. induction l as [|y l IHl]; [done|].
      rewrite bind_cons, IHl.
      - rewrite HF; [done|right; by left|]. intros ->. apply Hx. by left.
      - intros Hc. apply Hx. by right.
      - by apply NoDup_cons in Hnd as [_ ?].
      - intros z Hz Hne. apply HF; [|done]. apply elem_of_cons in Hz as [->|Hz].
        + by left.
        + right. by right. }
    by rewrite Hrest, app_nil_r.
  - rewrite HF; [|by left|by intros ->]. simpl. apply IH; [done|].
    intros y Hy Hne. apply HF; [by right|done].
Qed.

Lemma omap_Some_fmap {A B : Type} (h : A → option B) (g : A → B) (l : list A) :
  (∀ x, h x = Some (g x)) → omap h l = g <$> l.
Proof. intros Hh. induction l as [|x l IH]; [done|]. csimpl. by rewrite Hh, IH. Qed.

Lemma omap_None_nil {A B : Type} (h : A → option B) (l : list A) :
  (∀ x, h x = None) → omap h l = [].
Proof. intros Hh. induction l as [|x l IH]; [done|]. csimpl. by rewrite Hh. Qed.

Lemma omap_bind {A B C : Type} (h : B → option C) (F : A → list B) (l : list A) :
  omap h (l ≫= F) = l ≫= (λ x, omap h (F x)).
Proof.
  induction l as [|x l IH]; [done|]. by rewrite !bind_cons, omap_app, IH.
Qed.

(** The edges of a directed graph, node by node. *)
Lemma edges_directed (g : Graph) :
  isDirected g = true →
  edges g = seq 0 (upperNodeIdBound g)
            ≫= (λ u, (λ a, (u, neighbor a, weightIn g a)) <$> outAdj g u).
Proof.
  intros Hd. unfold edges, edgesWithIds.
  induction (seq 0 (upperNodeIdBound g)) as [|u l IH]; [done|].
  rewrite !bind_cons, fmap_app, IH. f_equal.
  unfold edgesAt, useEdgeInIteration. rewrite Hd. simpl.
  induction (outAdj g u) as [|a k IHk]; [done|]. csimpl. by rewrite IHk.
Qed.

(** The compacted graph of a directed graph: the dense id of a node has the
    dense ids of the neighbours of the node, in order. *)
Lemma getCompactedGraph_directed (G : Graph) :
  wellFormed G → isDirected G = true →
  let Gc := getCompactedGraph G (getContinuousNodeIds G) in
  isDirected Gc = true
  ∧ isWeighted Gc = isWeighted G
  ∧ ∀ u, hasNode G u = true →
         neighbor <$> outAdj Gc (rank G u)
         = (λ a, rank G (neighbor a)) <$> outAdj G u.
Proof.
  intros Hwf Hd Gc.
  set (f := λ u : node, default 0 (getContinuousNodeIds G !! u)).
  assert (Hsrc : ∀ e, e ∈ edges G → f e.1.1 < length (nodes G)).
  { intros [[u v] w] (Hu & a & Ha & _)%elem_of_edges. simpl.
    destruct (hasNode G u) eqn:Hn.
    - unfold f. rewrite getContinuousNodeIds_rank by done. simpl.
      by apply getContinuousNodeIds_rank_lt.
    - rewrite (wellFormed_hole_out _ _ Hwf Hn) in Ha. by apply elem_of_nil in Ha. }
  destruct (foldl_addEdge_directed (λ e, f e.1.1) (λ e, f e.1.2)
              (λ e : node * node * edgeweight, e.2) (edges G)
              (newGraph (size (getContinuousNodeIds G)) (isWeighted G) (isDirected G)))
    as (_ & _ & Hd' & _ & Hw' & _ & Hadj).
  { unfold newGraph. graph_simpl. done. }
  { done. }
  { intros e He. unfold newGraph. graph_simpl.
    rewrite length_replicate, getContinuousNodeIds_size. by apply Hsrc. }
  split_and!; [exact Hd'|exact Hw'|].
  intros u Hu.
  transitivity (neighbor <$> omap (λ e : node * node * edgeweight,
      if decide (f e.1.1 = rank G u)
      then Some (mkAdj (f e.1.2)
                   (storedWeight (newGraph (size (getContinuousNodeIds G))
                                    (isWeighted G) (isDirected G)) e.2) None)
      else None) (edges G)).
  { f_equal. unfold Gc, getCompactedGraph, getRemappedGraph, forEdges.
    etrans; [apply (Hadj (rank G u))|].
    unfold outAdj at 1, newGraph. graph_simpl.
    by destruct (replicate _ _ !! _) as [l|] eqn:Hl;
      [apply lookup_replicate_1 in Hl as [-> _]|]. }
  assert (Hf : ∀ v, hasNode G v = true → f v = rank G v).
  { intros v Hv. unfold f. by rewrite getContinuousNodeIds_rank. }
  assert (Hnb : ∀ x a, a ∈ outAdj G x → hasNode G x = true ∧ hasNode G (neighbor a) = true).
  { intros x a Ha. destruct (hasNode G x) eqn:Hx.
    - split; [done|]. destruct Hwf as (_ & _ & _ & _ & _ & Hnb & _).
      rewrite Forall_forall in Hnb. specialize (Hnb x).
      rewrite Forall_forall in Hnb. apply Hnb.
      + apply elem_of_seq. apply hasNode_lt in Hx. lia.
      + apply elem_of_app. by left.
    - rewrite (wellFormed_hole_out _ _ Hwf Hx) in Ha. by apply elem_of_nil in Ha. }
  rewrite edges_directed, omap_bind by done.
  rewrite (bind_unique _ _ u).
  - rewrite omap_fmap_compose.
    rewrite (omap_Some_fmap _ (λ a, mkAdj (f (neighbor a))
               (storedWeight (newGraph (size (getContinuousNodeIds G))
                                (isWeighted G) (isDirected G)) (weightIn G a)) None))
      by (intros a; simpl; by rewrite (Hf u Hu), decide_True).
    rewrite <-list_fmap_compose. apply list_fmap_ext. intros i a Ha. simpl.
    apply Hf. by eapply Hnb, list_elem_of_lookup_2.
  - apply NoDup_seq.
  - apply elem_of_seq. apply hasNode_lt in Hu. lia.
  - intros x _ Hne. rewrite omap_fmap_compose. simpl.
    destruct (outAdj G x) as [|a l] eqn:Hx; [done|].
    assert (Hex : hasNode G x = true) by (apply (Hnb x a); rewrite Hx; by left).
    assert (Hrank : rank G x ≠ rank G u).
    { intros Heq. apply Hne.
      pose proof (nodes_lookup_rank G x Hex) as H1.
      pose proof (nodes_lookup_rank G u Hu) as H2. congruence. }
    apply omap_None_nil. intros b. simpl. by rewrite (Hf x Hex), decide_False.
Qed.

(** ** Restoring a compacted graph *)

Lemma hasNode_ext (s s' : Graph) (u : node) :
  upperNodeIdBound s' = upperNodeIdBound s → exists_ s' = exists_ s →
  hasNode s' u = hasNode s u.
Proof. intros Hz He. unfold hasNode. by rewrite Hz, He. Qed.

Lemma hasNode_removeNode_eq (s : Graph) (i : node) : hasNode (removeNode i s) i = false.
Proof.
  unfold hasNode, removeNode, withNumberOfNodes, withExists. graph_simpl.
  rewrite list_lookup_insert. case_decide.
  - rewrite (bool_decide_eq_false_2 (Some false = Some true)) by congruence.
    apply andb_false_r.
  - rewrite (bool_decide_eq_false_2 (exists_ s !! i = Some true)); [apply andb_false_r|].
    intros Hi. apply lookup_lt_Some in Hi. tauto.
Qed.

Lemma restorePrefix_init (G : Graph) (weighted : bool) :
  weighted = isWeighted G →
  restorePrefix G 0 (newGraph (upperNodeIdBound G) weighted true, 0).
Proof.
  intros ->. unfold restorePrefix, newGraph. graph_simpl. split_and!; try done.
  - apply length_replicate.
  - intros u Hu. rewrite decide_False by lia. unfold hasNode. graph_simpl.
    rewrite lookup_replicate_2 by done. by rewrite !bool_decide_eq_true_2.
  - intros u. rewrite decide_False by lia. unfold outAdj. graph_simpl.
    by destruct (replicate _ _ !! _) as [l|] eqn:Hl;
      [apply lookup_replicate_1 in Hl as [-> _]|].
Qed.

Lemma restoreStep_prefix (G : Graph) (k : node) (s : Graph * index) :
  wellFormed G → isDirected G = true → k < upperNodeIdBound G →
  restorePrefix G k s →
  restorePrefix G (S k)
    (restoreStep (nodes G ++ [upperNodeIdBound G])
                 (getCompactedGraph G (getContinuousNodeIds G)) s k).
Proof.
  intros Hwf Hdir Hk. destruct s as [R c].
  intros (Hc & Hz & Hd & Hids & Hw & Hlen & Hnodes & Hadj). simpl in *.
  unfold restoreStep. simpl.
  assert (Hhere : hasNode R k = true) by (rewrite Hnodes by done; by rewrite decide_False by lia).
  rewrite Hhere. subst c.
  destruct (hasNode G k) eqn:HGk.
  - rewrite bool_decide_eq_true_2 by (by apply inverted_lookup_rank).
    unfold forNeighborsOf, forEdgesOf.
    destruct (foldl_addEdge_directed (λ _ : Adj, k)
                (λ a, (nodes G ++ [upperNodeIdBound G]) !!! neighbor a)
                (λ _, defaultEdgeWeight)
                (outAdj (getCompactedGraph G (getContinuousNodeIds G)) (rank G k)) R Hd Hids)
      as (Hz' & He' & Hd' & Hi' & Hw' & Hl' & Hadj').
    { intros _ _. lia. }
    unfold restorePrefix. simpl. split_and!; try congruence.
    + by rewrite rank_S, HGk.
    + intros u Hu. rewrite (hasNode_ext R _ u Hz' He'), Hnodes by done.
      destruct (decide (u = k)) as [->|Hne]; repeat case_decide; try done; lia.
    + intros u. rewrite Hadj', Hadj.
      destruct (decide (u = k)) as [->|Hne].
      * rewrite decide_False, decide_True by lia. simpl.
        rewrite (omap_Some_fmap _ (λ a, mkAdj
                   ((nodes G ++ [upperNodeIdBound G]) !!! neighbor a)
                   (storedWeight R defaultEdgeWeight) None))
          by (intros a; by rewrite decide_True).
        destruct (getCompactedGraph_directed G Hwf Hdir) as (_ & _ & Hc).
        transitivity
          ((λ v, mkAdj ((nodes G ++ [upperNodeIdBound G]) !!! v)
                   (storedWeight R defaultEdgeWeight) None)
           <$> (neighbor <$> outAdj (getCompactedGraph G (getContinuousNodeIds G))
                               (rank G k))).
        { by rewrite <-list_fmap_compose. }
        rewrite (Hc k HGk), <-list_fmap_compose.
        apply list_fmap_ext. intros i a Ha. simpl. unfold restoredAdj. f_equal.
        -- assert (Hex : hasNode G (neighbor a) = true).
           { destruct Hwf as (_ & _ & _ & _ & _ & Hnb & _).
             rewrite Forall_forall in Hnb. specialize (Hnb k).
             rewrite Forall_forall in Hnb. apply Hnb; [apply elem_of_seq; lia|].
             apply elem_of_app. left. by eapply list_elem_of_lookup_2. }
           apply inverted_lookup_rank; [by apply hasNode_lt|done].
        -- unfold storedWeight. by destruct (isWeighted R).
      * rewrite omap_None_nil by (intros a; by rewrite decide_False).
        rewrite app_nil_r. repeat case_decide; try done; lia.
  - rewrite bool_decide_eq_false_2.
    2:{ intros Heq. apply inverted_lookup_rank in Heq; [congruence|done]. }
    unfold restorePrefix. simpl. split_and!; try done.
    + by rewrite rank_S, HGk.
    + intros u Hu. destruct (decide (u = k)) as [->|Hne].
      * by rewrite hasNode_removeNode_eq, decide_True by lia.
      * rewrite hasNode_removeNode_ne, Hnodes by done.
        repeat case_decide; try done; lia.
    + intros u. change (outAdj (removeNode k R) u) with (outAdj R u). rewrite Hadj.
      destruct (decide (u = k)) as [->|Hne].
      * rewrite decide_False, decide_True by lia.
        by rewrite (wellFormed_hole_out _ _ Hwf HGk).
      * repeat case_decide; try done; lia.
Qed.

Lemma restore_loop (G : Graph) (k : node) (s : Graph * index) :
  wellFormed G → isDirected G = true → k ≤ upperNodeIdBound G →
  restorePrefix G 0 s →
  restorePrefix G k
    (foldl (restoreStep (nodes G ++ [upperNodeIdBound G])
                        (getCompactedGraph G (getContinuousNodeIds G))) s (seq 0 k)).
Proof.
  intros Hwf Hdir. induction k as [|k IH]; intros Hk Hinit; [done|].
  rewrite seq_S, foldl_app. simpl. apply restoreStep_prefix; [done|done|lia|].
  apply IH; [lia|done].
Qed.

(** The round trip of a directed graph: [restoreGraph] gives back the id
    bound, the nodes and the holes, and for every node the neighbours of its
    out-adjacency in their order, each with the default weight and no id. *)
Lemma restoreGraph_directed (G : Graph) :
  wellFormed G → isDirected G = true →
  let nodeIdMap := getContinuousNodeIds G in
  let restored :=
    restoreGraph (invertContinuousNodeIds nodeIdMap G) (getCompactedGraph G nodeIdMap) in
  upperNodeIdBound restored = upperNodeIdBound G
  ∧ isDirected restored = true
  ∧ isWeighted restored = isWeighted G
  ∧ (∀ u, hasNode restored u = hasNode G u)
  ∧ (∀ u, outAdj restored u = restoredAdj <$> outAdj G u).
Proof.
  intros Hwf Hdir nodeIdMap restored.
  destruct (getCompactedGraph_directed G Hwf Hdir) as (Hcd & Hcw & _).
  assert (Hloop : restorePrefix G (upperNodeIdBound G) (
    foldl (restoreStep (nodes G ++ [upperNodeIdBound G])
             (getCompactedGraph G (getContinuousNodeIds G)))
          (newGraph (upperNodeIdBound G) (isWeighted G) true, 0)
          (seq 0 (upperNodeIdBound G)))).
  { apply restore_loop; [done|done|lia|]. by apply restorePrefix_init. }
  assert (Hres : restored
    = (foldl (restoreStep (nodes G ++ [upperNodeIdBound G])
                (getCompactedGraph G (getContinuousNodeIds G)))
             (newGraph (upperNodeIdBound G) (isWeighted G) true, 0)
             (seq 0 (upperNodeIdBound G))).1).
  { subst restored nodeIdMap. unfold restoreGraph.
    rewrite (invertContinuousNodeIds_nodes G Hwf), last_last, Hcd, Hcw.
    reflexivity. }
  rewrite Hres.
  destruct Hloop as (_ & Hz & Hd & _ & Hw & Hlen & Hnodes & Hadj).
  split_and!; try done.
  - intros u. destruct (decide (u < upperNodeIdBound G)) as [Hu|Hu].
    + rewrite Hnodes by done. by rewrite decide_True.
    + unfold hasNode. rewrite Hz.
      by rewrite !(bool_decide_eq_false_2 (u < upperNodeIdBound G)).
  - intros u. rewrite Hadj. case_decide as Hu; [done|].
    rewrite (outAdj_ge G u); [done|].
    destruct Hwf as (_ & -> & _). lia.
Qed.

(** The round trip of a directed graph (what holds of C1): compacting a
    directed graph with its continuous node ids and restoring it with the
    inverted map gives a graph with the id bound, the existing nodes and the
    holes of the graph and with the same edges between the same endpoints, in
    the same order; every restored edge has the default weight. *)
Theorem restoreGraph_directed_round_trip (G : Graph) :
  wellFormed G → isDirected G = true →
  let nodeIdMap := getContinuousNodeIds G in
  let restored :=
    restoreGraph (invertContinuousNodeIds nodeIdMap G) (getCompactedGraph G nodeIdMap) in
  upperNodeIdBound restored = upperNodeIdBound G
  ∧ (∀ u, hasNode restored u = hasNode G u)
  ∧ nodes restored = nodes G
  ∧ (∀ u, neighborRange restored u = neighborRange G u)
  ∧ edges restored = (λ e, (e.1.1, e.1.2, defaultEdgeWeight)) <$> edges G
  ∧ isDirected restored = isDirected G
  ∧ isWeighted restored = isWeighted G.
Proof.
  intros Hwf Hdir nodeIdMap restored.
  destruct (restoreGraph_directed G Hwf Hdir) as (Hz & Hd & Hw & Hn & Hadj).
  fold nodeIdMap in Hz, Hd, Hw, Hn, Hadj. fold restored in Hz, Hd, Hw, Hn, Hadj.
  split_and!; try done; [| | |congruence].
  - unfold nodes. rewrite Hz. apply list_filter_iff. intros u. by rewrite Hn.
  - intros u. unfold neighborRange. rewrite Hadj, <-list_fmap_compose.
    by apply list_fmap_ext.
  - rewrite !edges_directed, Hz by done.
    induction (seq 0 (upperNodeIdBound G)) as [|u l IH]; [done|].
    rewrite !bind_cons, fmap_app, IH. f_equal.
    rewrite Hadj, <-!list_fmap_compose. apply list_fmap_ext. intros i a _. simpl.
    unfold weightIn. by destruct (isWeighted restored).
Qed.

(** The scenario of section 8: the three directed edges come back, the edge
    3→0 of weight 2.5 with weight 1. *)
Lemma restoreGraph_directed_round_trip_witness :
  let nodeIdMap := getContinuousNodeIds scenarioGraph in
  let restored :=
    restoreGraph (invertContinuousNodeIds nodeIdMap scenarioGraph)
                 (getCompactedGraph scenarioGraph nodeIdMap) in
  wellFormed scenarioGraph ∧ isDirected scenarioGraph = true
  ∧ nodes restored = [0; 1; 3]
  ∧ edges scenarioGraph = [(0, 1, 1%float); (1, 3, 1%float); (3, 0, 2.5%float)]
  ∧ edges restored = [(0, 1, 1%float); (1, 3, 1%float); (3, 0, 1%float)].
Proof.
  destruct (restoreGraph_directed_round_trip scenarioGraph wellFormed_scenarioGraph eq_refl)
    as (_ & _ & Hnodes & _ & Hedges & _).
  split; [exact wellFormed_scenarioGraph|]. split; [reflexivity|].
  split; [by rewrite Hnodes|]. split; [reflexivity|]. by rewrite Hedges.
Defined.

(** *** Undirected graphs: counting adjacency records *)

Section calls_count.
Context {B : Type} (src tgt : B → node).

Lemma callsCount_cons (e : B) (L : list B) (u v : node) :
  callsCount src tgt (e :: L) u v
  = (if decide (src e = u ∧ tgt e = v) then 1 else 0) + callsCount src tgt L u v.
Proof. unfold callsCount. rewrite filter_cons. by case_decide. Qed.

Lemma callsCount_app (L L' : list B) (u v : node) :
  callsCount src tgt (L ++ L') u v = callsCount src tgt L u v + callsCount src tgt L' u v.
Proof. unfold callsCount. by rewrite filter_app, length_app. Qed.

Lemma callsCount_none (L : list B) (u v : node) :
  (∀ e, e ∈ L → ¬ (src e = u ∧ tgt e = v)) → callsCount src tgt L u v = 0.
Proof.
  induction L as [|e L IH]; intros HL; [done|].
  rewrite callsCount_cons, decide_False by (apply HL; by left).
  apply IH. intros e' He'. apply HL. by right.
Qed.

Lemma callsCount_some (L : list B) (u v : node) :
  callsCount src tgt L u v ≠ 0 → ∃ e, e ∈ L ∧ src e = u ∧ tgt e = v.
Proof.
  induction L as [|e L IH]; [done|]. rewrite callsCount_cons.
  destruct (decide (src e = u ∧ tgt e = v)) as [Hhere|_].
  - intros _. exists e. split; [by left|done].
  - intros (e' & He' & Hsrc)%IH. exists e'. split; [by right|done].
Qed.

Lemma callsCount_ext_in {C : Type} (src' tgt' : C → node) (h : B → C) (L : list B)
    (u v u' v' : node) :
  (∀ e, e ∈ L → (src e = u ∧ tgt e = v) ↔ (src' (h e) = u' ∧ tgt' (h e) = v')) →
  callsCount src tgt L u v = callsCount src' tgt' (h <$> L) u' v'.
Proof.
  unfold callsCount. induction L as [|e L IH]; intros HL; [done|].
  rewrite fmap_cons, !filter_cons. pose proof (HL e ltac:(by left)).
  specialize (IH (λ e' He', HL e' (list_elem_of_further _ _ _ He'))).
  repeat case_decide; simpl; try done; try tauto. by rewrite IH.
Qed.

Lemma callsCount_bind {A : Type} (F : A → list B) (l : list A) (x0 : A) (u v : node) :
  NoDup l → x0 ∈ l →
  (∀ x, x ∈ l → x ≠ x0 → callsCount src tgt (F x) u v = 0) →
  callsCount src tgt (l ≫= F) u v = callsCount src tgt (F x0) u v.
Proof.
  induction 1 as [|x l Hx Hnd IH]; intros Hin HF; [by apply elem_of_nil in Hin|].
  rewrite bind_cons, callsCount_app.
  assert (Hrest : x0 ∉ l → callsCount src tgt (l ≫= F) u v = 0).
  { intros Hnot. clear IH Hnd Hx Hin. induction l as [|y l IHl]; [done|].
    rewrite bind_cons, callsCount_app, HF, IHl; [done| | |right; by left|].
    - intros z Hz. apply HF. apply elem_of_cons in Hz as [->|Hz]; [by left|].
      right. by right.
    - intros Hc. apply Hnot. by right.
    - intros ->. apply Hnot. by left. }
  apply elem_of_cons in Hin as [->|Hin].
  - rewrite Hrest by done. lia.
  - rewrite HF, IH; [done|done| |by left|by intros ->].
    intros y Hy Hne. apply HF; [by right|done].
Qed.

Lemma callsCount_bind_none {A : Type} (F : A → list B) (l : list A) (u v : node) :
  (∀ x, x ∈ l → callsCount src tgt (F x) u v = 0) →
  callsCount src tgt (l ≫= F) u v = 0.
Proof.
  induction l as [|x l IH]; intros HF; [done|].
  rewrite bind_cons, callsCount_app, HF, IH; [done| |by left].
  intros y Hy. apply HF. by right.
Qed.
End calls_count.

(** The adjacency records after a list of calls of [addEdge]. *)
Lemma foldl_addEdge_count {B : Type} (src tgt : B → node) (wt : B → edgeweight)
    (L : list B) (s : Graph) :
  (∀ e, e ∈ L → src e < length (outEdges s) ∧ tgt e < length (outEdges s)) →
  let s' := foldl (λ s e, addEdge (src e) (tgt e) (wt e) s) s L in
  upperNodeIdBound s' = upperNodeIdBound s
  ∧ isWeighted s' = isWeighted s
  ∧ isDirected s' = isDirected s
  ∧ exists_ s' = exists_ s
  ∧ length (outEdges s') = length (outEdges s)
  ∧ ∀ u v, adjacencyCount s' u v
           = adjacencyCount s u v + callsCount src tgt L u v
             + (if isDirected s then 0
                else if decide (u = v) then 0 else callsCount src tgt L v u).
Proof.
  revert s. induction L as [|e L IH]; intros s HL; cbn [foldl].
  { split_and!; try done. intros u v. unfold callsCount. simpl.
    destruct (isDirected s); [lia|]. case_decide; lia. }
  pose proof (addEdge_frame s (src e) (tgt e) (wt e)) as (Hz1 & Hw1 & Hd1 & _ & He1 & _ & Hl1).
  destruct (HL e) as [Hsrc Htgt]; [by left|].
  destruct (IH (addEdge (src e) (tgt e) (wt e) s)) as (Hz & Hw & Hd & He & Hl & Hcount).
  { intros e' He'. rewrite Hl1. apply HL. by right. }
  split_and!; try congruence.
  intros u v. rewrite Hcount, Hd1, (adjacencyCount_addEdge s _ _ _ u v Hsrc Htgt).
  rewrite !callsCount_cons.
  destruct (isDirected s) eqn:Hdir; repeat case_decide; try lia;
    exfalso; intuition congruence.
Qed.

Lemma adjacencyCount_newGraph (n : count) (weighted directed : bool) (u v : node) :
  adjacencyCount (newGraph n weighted directed) u v = 0.
Proof.
  unfold adjacencyCount, outAdj, newGraph. graph_simpl.
  by destruct (replicate _ _ !! _) as [l|] eqn:Hl;
    [apply lookup_replicate_1 in Hl as [-> _]|].
Qed.

(** How often the iteration over all edges reports an edge from [u] to
    [v]: as often as [u] names [v], if it reports the edge from [u]. *)
Lemma callsCount_edgesAt (g : Graph) (x u v : node) :
  callsCount (λ e : node * node * edgeweight * option edgeid, e.1.1.1)
             (λ e, e.1.1.2) (edgesAt g x) u v
  = if decide (x = u) then
      if useEdgeInIteration g u v then adjacencyCount g u v else 0
    else 0.
Proof.
  destruct (decide (x = u)) as [->|Hne].
  - unfold edgesAt, adjacencyCount.
    induction (outAdj g u) as [|a l IH]; csimpl.
    { by destruct (useEdgeInIteration g u v). }
    rewrite filter_cons.
    destruct (useEdgeInIteration g u (neighbor a)) eqn:Huse.
    + rewrite callsCount_cons, IH. simpl.
      destruct (decide (neighbor a = v)) as [<-|Hnv].
      * rewrite decide_True, Huse by done. simpl. lia.
      * rewrite decide_False by (intros [_ ?]; done).
        by destruct (useEdgeInIteration g u v).
    + rewrite IH.
      destruct (decide (neighbor a = v)) as [<-|Hnv]; [by rewrite Huse|done].
  - apply callsCount_none. intros e (a & _ & Hsome)%list_elem_of_omap [Hsrc _].
    destruct (useEdgeInIteration g x (neighbor a)); [|done]. by simplify_eq/=.
Qed.

Lemma callsCount_edges (g : Graph) (u v : node) :
  length (outEdges g) ≤ upperNodeIdBound g →
  callsCount (λ e : node * node * edgeweight, e.1.1) (λ e, e.1.2) (edges g) u v
  = if useEdgeInIteration g u v then adjacencyCount g u v else 0.
Proof.
  intros Hlen. unfold edges.
  rewrite <-(callsCount_ext_in (λ e : node * node * edgeweight * option edgeid, e.1.1.1)
               (λ e, e.1.1.2) _ _ _ _ u v u v) by done.
  unfold edgesWithIds.
  destruct (decide (u < upperNodeIdBound g)) as [Hu|Hu].
  - rewrite (callsCount_bind _ _ _ _ u); [|apply NoDup_seq|apply elem_of_seq; lia|].
    + by rewrite callsCount_edgesAt, decide_True.
    + intros x _ Hne. by rewrite callsCount_edgesAt, decide_False.
  - rewrite callsCount_bind_none.
    + unfold adjacencyCount. rewrite outAdj_ge by lia.
      by destruct (useEdgeInIteration g u v).
    + intros x Hx%elem_of_seq. rewrite callsCount_edgesAt, decide_False; [done|lia].
Qed.

Lemma rank_inj (G : Graph) (u v : node) :
  hasNode G u = true → hasNode G v = true → rank G u = rank G v → u = v.
Proof.
  intros Hu Hv Heq.
  pose proof (nodes_lookup_rank G u Hu) as H1.
  pose proof (nodes_lookup_rank G v Hv) as H2. congruence.
Qed.

Lemma wellFormed_neighbor (G : Graph) (u : node) (a : Adj) :
  wellFormed G → a ∈ outAdj G u → hasNode G u = true ∧ hasNode G (neighbor a) = true.
Proof.
  intros Hwf Ha. destruct (hasNode G u) eqn:Hu.
  - split; [done|]. destruct Hwf as (_ & _ & _ & _ & _ & Hnb & _).
    rewrite Forall_forall in Hnb. specialize (Hnb u).
    rewrite Forall_forall in Hnb. apply Hnb.
    + apply elem_of_seq. apply hasNode_lt in Hu. lia.
    + apply elem_of_app. by left.
  - rewrite (wellFormed_hole_out _ _ Hwf Hu) in Ha. by apply elem_of_nil in Ha.
Qed.

Lemma adjacencyCount_hole (G : Graph) (u v : node) :
  wellFormed G → hasNode G u = false ∨ hasNode G v = false → adjacencyCount G u v = 0.
Proof.
  intros Hwf Hhole. apply adjacencyCount_zero. intros (a & -> & Ha)%list_elem_of_fmap.
  destruct (wellFormed_neighbor G u a Hwf Ha). destruct Hhole; congruence.
Qed.

(** The compacted graph of a graph, directed or not: the dense id of a node
    names the dense id of another node as often as the node names the other,
    and it names nothing else. *)
Lemma getCompactedGraph_count (G : Graph) :
  wellFormed G →
  let Gc := getCompactedGraph G (getContinuousNodeIds G) in
  isDirected Gc = isDirected G
  ∧ isWeighted Gc = isWeighted G
  ∧ (∀ u v, hasNode G u = true → hasNode G v = true →
            adjacencyCount Gc (rank G u) (rank G v) = adjacencyCount G u v)
  ∧ (∀ c a, a ∈ outAdj Gc c → ∃ v, hasNode G v = true ∧ neighbor a = rank G v).
Proof.
  intros Hwf Gc.
  set (f := λ u : node, default 0 (getContinuousNodeIds G !! u)).
  assert (Hf : ∀ v, hasNode G v = true → f v = rank G v).
  { intros v Hv. unfold f. by rewrite getContinuousNodeIds_rank. }
  assert (Hends : ∀ e, e ∈ edges G → hasNode G e.1.1 = true ∧ hasNode G e.1.2 = true).
  { intros [[u v] w] (Hu & a & Ha & _ & -> & _)%elem_of_edges. simpl.
    by apply wellFormed_neighbor. }
  destruct (foldl_addEdge_count (λ e, f e.1.1) (λ e, f e.1.2)
              (λ e : node * node * edgeweight, e.2) (edges G)
              (newGraph (size (getContinuousNodeIds G)) (isWeighted G) (isDirected G)))
    as (_ & Hw' & Hd' & _ & _ & Hcount).
  { intros e He. destruct (Hends e He) as [H1 H2]. unfold newGraph. graph_simpl.
    rewrite length_replicate, getContinuousNodeIds_size, !Hf by done.
    split; by apply getContinuousNodeIds_rank_lt. }
  assert (Hcalls : ∀ u v, hasNode G u = true → hasNode G v = true →
    callsCount (λ e : node * node * edgeweight, f e.1.1) (λ e, f e.1.2) (edges G)
               (rank G u) (rank G v)
    = if useEdgeInIteration G u v then adjacencyCount G u v else 0).
  { intros u v Hu Hv.
    rewrite <-callsCount_edges by (destruct Hwf as (_ & -> & _); lia).
    rewrite <-(list_fmap_id (edges G)) at 2.
    apply callsCount_ext_in. intros e He. destruct (Hends e He) as [H1 H2].
    rewrite !Hf by done. simpl. split.
    - intros [? ?]. split; by apply (rank_inj G).
    - intros [-> ->]. done. }
  assert (Hgc : ∀ c c',
    adjacencyCount Gc c c'
    = callsCount (λ e : node * node * edgeweight, f e.1.1) (λ e, f e.1.2) (edges G) c c'
      + (if isDirected G then 0
         else if decide (c = c') then 0
         else callsCount (λ e : node * node * edgeweight, f e.1.1) (λ e, f e.1.2)
                         (edges G) c' c)).
  { intros c c'. etrans; [apply (Hcount c c')|]. by rewrite adjacencyCount_newGraph. }
  split_and!; [exact Hd'|exact Hw'| |].
  - intros u v Hu Hv. rewrite Hgc, !Hcalls by done. unfold useEdgeInIteration.
    destruct (isDirected G) eqn:Hdir; simpl; [lia|].
    pose proof (wellFormed_symmetric G Hwf Hdir u v) as Hsym.
    destruct (decide (rank G u = rank G v)) as [Heq|Hne].
    + apply (rank_inj G) in Heq as ->; [|done..].
      rewrite bool_decide_eq_true_2 by lia. lia.
    + assert (u ≠ v) by (intros ->; done).
      destruct (decide (v ≤ u)) as [Hle|Hgt].
      * rewrite (bool_decide_eq_true_2 (v ≤ u)), (bool_decide_eq_false_2 (u ≤ v)) by lia.
        lia.
      * rewrite (bool_decide_eq_false_2 (v ≤ u)), (bool_decide_eq_true_2 (u ≤ v)) by lia.
        lia.
  - intros c a Ha.
    assert (Hne : adjacencyCount Gc c (neighbor a) ≠ 0).
    { intros Hz%adjacencyCount_zero. apply Hz, list_elem_of_fmap. by exists a. }
    rewrite Hgc in Hne.
    destruct (decide (callsCount (λ e : node * node * edgeweight, f e.1.1)
                        (λ e, f e.1.2) (edges G) c (neighbor a) = 0)) as [Hz|Hnz].
    + destruct (decide (callsCount (λ e : node * node * edgeweight, f e.1.1)
                          (λ e, f e.1.2) (edges G) (neighbor a) c = 0)) as [Hz'|Hnz'].
      { exfalso. apply Hne. rewrite Hz, Hz'.
        destruct (isDirected _); [done|]. by case_decide. }
      apply callsCount_some in Hnz' as (e & He & Hsrc & _).
      destruct (Hends e He) as [H1 _]. exists e.1.1. split; [done|].
      by rewrite <-Hsrc, Hf.
    + apply callsCount_some in Hnz as (e & He & _ & Htgt).
      destruct (Hends e He) as [_ H2]. exists e.1.2. split; [done|].
      by rewrite <-Htgt, Hf.
Qed.

Lemma adjacencyCount_callsCount (g : Graph) (u v : node) :
  adjacencyCount g u v = callsCount (λ _ : Adj, u) neighbor (outAdj g u) u v.
Proof.
  unfold adjacencyCount, callsCount. f_equal. apply list_filter_iff. intros a. tauto.
Qed.

(** The calls of [addEdge] that [restoreGraph] makes at node [k]: one for
    every record of [k] in the graph. *)
Lemma restore_calls_count (G : Graph) (k x y : node) :
  wellFormed G → hasNode G k = true →
  callsCount (λ _ : Adj, k) (λ a, (nodes G ++ [upperNodeIdBound G]) !!! neighbor a)
             (outAdj (getCompactedGraph G (getContinuousNodeIds G)) (rank G k)) x y
  = if decide (x = k) then adjacencyCount G k y else 0.
Proof.
  intros Hwf Hk. destruct (getCompactedGraph_count G Hwf) as (_ & _ & Hc & Hnb).
  assert (Hinv : ∀ a, a ∈ outAdj (getCompactedGraph G (getContinuousNodeIds G)) (rank G k) →
    ∃ v, hasNode G v = true ∧ neighbor a = rank G v
         ∧ (nodes G ++ [upperNodeIdBound G]) !!! neighbor a = v).
  { intros a (v & Hv & Ha)%Hnb. exists v. split_and!; [done..|]. rewrite Ha.
    apply inverted_lookup_rank; [by apply hasNode_lt|done]. }
  destruct (decide (x = k)) as [->|Hne].
  - destruct (hasNode G y) eqn:Hy.
    + rewrite <-(Hc k y Hk Hy), adjacencyCount_callsCount.
      rewrite <-(list_fmap_id (outAdj _ (rank G k))) at 2.
      apply callsCount_ext_in. intros a (v & Hv & Ha & Hi)%Hinv.
      unfold id. rewrite Hi, Ha. split.
      * intros [_ ->]. done.
      * intros [_ Heq]. split; [done|]. by apply (rank_inj G).
    + rewrite adjacencyCount_hole by (done || by right).
      apply callsCount_none. intros a (v & Hv & Ha & Hi)%Hinv [_ Heq]. congruence.
  - apply callsCount_none. intros a _ [Heq _]. congruence.
Qed.

Lemma restoreCounts_init (G : Graph) (weighted : bool) :
  weighted = isWeighted G →
  restoreCounts G 0 (newGraph (upperNodeIdBound G) weighted false, 0).
Proof.
  intros ->. unfold restoreCounts. graph_simpl. split_and!; try done.
  - apply length_replicate.
  - intros u Hu. rewrite decide_False by lia. unfold hasNode, newGraph. graph_simpl.
    rewrite lookup_replicate_2 by done. by rewrite !bool_decide_eq_true_2.
  - intros u v. rewrite adjacencyCount_newGraph. repeat case_decide; lia.
Qed.

Lemma restoreStep_counts (G : Graph) (k : node) (s : Graph * index) :
  wellFormed G → isDirected G = false → k < upperNodeIdBound G →
  restoreCounts G k s →
  restoreCounts G (S k)
    (restoreStep (nodes G ++ [upperNodeIdBound G])
                 (getCompactedGraph G (getContinuousNodeIds G)) s k).
Proof.
  intros Hwf Hdir Hk. destruct s as [R c].
  intros (Hc & Hz & Hd & Hw & Hlen & Hnodes & Hadj). simpl in *.
  unfold restoreStep. simpl.
  assert (Hhere : hasNode R k = true) by (rewrite Hnodes by done; by rewrite decide_False by lia).
  rewrite Hhere. subst c.
  destruct (hasNode G k) eqn:HGk.
  - rewrite bool_decide_eq_true_2 by (by apply inverted_lookup_rank).
    unfold forNeighborsOf, forEdgesOf.
    destruct (foldl_addEdge_count (λ _ : Adj, k)
                (λ a, (nodes G ++ [upperNodeIdBound G]) !!! neighbor a)
                (λ _, defaultEdgeWeight)
                (outAdj (getCompactedGraph G (getContinuousNodeIds G)) (rank G k)) R)
      as (Hz' & Hw' & Hd' & He' & Hl' & Hcount').
    { intros a Ha. rewrite Hlen. split; [done|].
      destruct (getCompactedGraph_count G Hwf) as (_ & _ & _ & Hnb).
      destruct (Hnb _ _ Ha) as (v & Hv & ->).
      pose proof (hasNode_lt _ _ Hv).
      by rewrite (proj2 (inverted_lookup_rank G v ltac:(done)) Hv). }
    unfold restoreCounts. simpl. split_and!; try congruence.
    + by rewrite rank_S, HGk.
    + intros u Hu. rewrite (hasNode_ext R _ u Hz' He'), Hnodes by done.
      destruct (decide (u = k)) as [->|Hne]; repeat case_decide; try done; lia.
    + intros u v. rewrite Hcount', Hd, Hadj, !restore_calls_count by done.
      destruct (decide (u = k)) as [->|Huk]; destruct (decide (v = k)) as [->|Hvk];
        repeat case_decide; try lia.
  - rewrite bool_decide_eq_false_2.
    2:{ intros Heq. apply inverted_lookup_rank in Heq; [congruence|done]. }
    assert (Hk0 : ∀ y, adjacencyCount G k y = 0).
    { intros y. apply adjacencyCount_hole; [done|by left]. }
    unfold restoreCounts. simpl. split_and!; try done.
    + by rewrite rank_S, HGk.
    + intros u Hu. destruct (decide (u = k)) as [->|Hne].
      * by rewrite hasNode_removeNode_eq, decide_True by lia.
      * rewrite hasNode_removeNode_ne, Hnodes by done.
        repeat case_decide; try done; lia.
    + intros u v.
      change (adjacencyCount (removeNode k R) u v) with (adjacencyCount R u v).
      rewrite Hadj.
      destruct (decide (u = k)) as [->|Huk]; destruct (decide (v = k)) as [->|Hvk];
        rewrite ?Hk0; repeat case_decide; try lia.
Qed.

Lemma restore_loop_counts (G : Graph) (k : node) (s : Graph * index) :
  wellFormed G → isDirected G = false → k ≤ upperNodeIdBound G →
  restoreCounts G 0 s →
  restoreCounts G k
    (foldl (restoreStep (nodes G ++ [upperNodeIdBound G])
                        (getCompactedGraph G (getContinuousNodeIds G))) s (seq 0 k)).
Proof.
  intros Hwf Hdir. induction k as [|k IH]; intros Hk Hinit; [done|].
  rewrite seq_S, foldl_app. simpl. apply restoreStep_counts; [done|done|lia|].
  apply IH; [lia|done].
Qed.

(** The round trip of an undirected graph: [restoreGraph] gives back the id
    bound, the nodes and the holes; a node names itself as often as in the
    graph, and another node twice as often. *)
Lemma restoreGraph_undirected (G : Graph) :
  wellFormed G → isDirected G = false →
  let nodeIdMap := getContinuousNodeIds G in
  let restored :=
    restoreGraph (invertContinuousNodeIds nodeIdMap G) (getCompactedGraph G nodeIdMap) in
  upperNodeIdBound restored = upperNodeIdBound G
  ∧ isDirected restored = false
  ∧ isWeighted restored = isWeighted G
  ∧ (∀ u, hasNode restored u = hasNode G u)
  ∧ (∀ u v, adjacencyCount restored u v
            = if decide (u = v) then adjacencyCount G u v
              else 2 * adjacencyCount G u v).
Proof.
  intros Hwf Hdir nodeIdMap restored.
  destruct (getCompactedGraph_count G Hwf) as (Hcd & Hcw & _).
  assert (Hloop : restoreCounts G (upperNodeIdBound G) (
    foldl (restoreStep (nodes G ++ [upperNodeIdBound G])
             (getCompactedGraph G (getContinuousNodeIds G)))
          (newGraph (upperNodeIdBound G) (isWeighted G) false, 0)
          (seq 0 (upperNodeIdBound G)))).
  { apply restore_loop_counts; [done|done|lia|]. by apply restoreCounts_init. }
  assert (Hres : restored
    = (foldl (restoreStep (nodes G ++ [upperNodeIdBound G])
                (getCompactedGraph G (getContinuousNodeIds G)))
             (newGraph (upperNodeIdBound G) (isWeighted G) false, 0)
             (seq 0 (upperNodeIdBound G))).1).
  { subst restored nodeIdMap. unfold restoreGraph.
    rewrite (invertContinuousNodeIds_nodes G Hwf), last_last, Hcd, Hcw, Hdir.
    reflexivity. }
  rewrite Hres.
  destruct Hloop as (_ & Hz & Hd & Hw & Hlen & Hnodes & Hadj).
  split_and!; try done.
  - intros u. destruct (decide (u < upperNodeIdBound G)) as [Hu|Hu].
    + rewrite Hnodes by done. by rewrite decide_True.
    + unfold hasNode. rewrite Hz.
      by rewrite !(bool_decide_eq_false_2 (u < upperNodeIdBound G)).
  - intros u v. rewrite Hadj.
    pose proof (wellFormed_symmetric G Hwf Hdir u v) as Hsym.
    assert (Hge : ∀ x y, ¬ x < upperNodeIdBound G → adjacencyCount G x y = 0).
    { intros x y Hx. apply adjacencyCount_hole; [done|]. left.
      unfold hasNode. by rewrite bool_decide_eq_false_2. }
    destruct (decide (u < upperNodeIdBound G)) as [Hu|Hu];
      destruct (decide (v < upperNodeIdBound G)) as [Hv|Hv];
      rewrite ?(Hge u v Hu), ?(Hge v u Hv) in *;
      repeat case_decide; try lia.
Qed.

Lemma wellFormed_oneEdgeGraph : wellFormed oneEdgeGraph.
Proof. apply (bool_decide_unpack _). by vm_compute. Qed.

Lemma wellFormed_undirectedScenarioGraph : wellFormed undirectedScenarioGraph.
Proof. apply (bool_decide_unpack _). by vm_compute. Qed.

(** The round trip of an undirected graph (what holds of C1, and what does
    not): compacting an undirected graph with its continuous node ids and
    restoring it with the inverted map gives a graph with the id bound, the
    existing nodes and the holes of the graph, in which every node has the
    neighbours that it has in the graph and no other; but a node names
    another node twice as often as in the graph, so every edge that is no
    self-loop comes back twice. *)
Theorem restoreGraph_undirected_round_trip (G : Graph) :
  wellFormed G → isDirected G = false →
  let nodeIdMap := getContinuousNodeIds G in
  let restored :=
    restoreGraph (invertContinuousNodeIds nodeIdMap G) (getCompactedGraph G nodeIdMap) in
  upperNodeIdBound restored = upperNodeIdBound G
  ∧ (∀ u, hasNode restored u = hasNode G u)
  ∧ nodes restored = nodes G
  ∧ (∀ u v, adjacencyCount restored u v
            = if decide (u = v) then adjacencyCount G u v
              else 2 * adjacencyCount G u v)
  ∧ (∀ u v, v ∈ neighborRange restored u ↔ v ∈ neighborRange G u)
  ∧ (∀ u v, hasEdge restored u v = hasEdge G u v)
  ∧ isDirected restored = isDirected G
  ∧ isWeighted restored = isWeighted G.
Proof.
  intros Hwf Hdir nodeIdMap restored.
  destruct (restoreGraph_undirected G Hwf Hdir) as (Hz & Hd & Hw & Hn & Hadj).
  fold nodeIdMap in Hz, Hd, Hw, Hn, Hadj. fold restored in Hz, Hd, Hw, Hn, Hadj.
  assert (Hmem : ∀ u v, v ∈ neighborRange restored u ↔ v ∈ neighborRange G u).
  { intros u v. unfold neighborRange.
    pose proof (adjacencyCount_zero restored u v) as H1.
    pose proof (adjacencyCount_zero G u v) as H2.
    specialize (Hadj u v).
    destruct (decide (v ∈ neighbor <$> outAdj restored u)) as [Hin|Hout];
      destruct (decide (v ∈ neighbor <$> outAdj G u)) as [Hin'|Hout']; try tauto.
    - exfalso. apply proj2 in H2. specialize (H2 Hout'). apply H1; [|done].
      rewrite Hadj, H2. by case_decide.
    - exfalso. apply proj2 in H1. specialize (H1 Hout). apply H2; [|done].
      rewrite H1 in Hadj. case_decide; lia. }
  split_and!; try done; [| |congruence].
  - unfold nodes. rewrite Hz. apply list_filter_iff. intros u. by rewrite Hn.
  - intros u v. unfold hasEdge. rewrite Hz. f_equal.
    apply bool_decide_ext, Hmem.
Qed.

(** The nodes {0,1,3} with hole 2, edges {0,1} and {0,3} and a self-loop
    at 3: the restored graph has the three nodes; node 0 names node 1 twice
    and node 3 itself once. *)
Lemma restoreGraph_undirected_round_trip_witness :
  let G := undirectedScenarioGraph in
  let nodeIdMap := getContinuousNodeIds G in
  let restored :=
    restoreGraph (invertContinuousNodeIds nodeIdMap G) (getCompactedGraph G nodeIdMap) in
  wellFormed G ∧ isDirected G = false
  ∧ nodes restored = [0; 1; 3]
  ∧ adjacencyCount G 0 1 = 1 ∧ adjacencyCount restored 0 1 = 2
  ∧ adjacencyCount G 3 3 = 1 ∧ adjacencyCount restored 3 3 = 1
  ∧ hasEdge restored 0 3 = true ∧ hasEdge restored 1 3 = false.
Proof.
  destruct (restoreGraph_undirected_round_trip undirectedScenarioGraph
              wellFormed_undirectedScenarioGraph eq_refl)
    as (_ & _ & Hnodes & Hcount & _ & Hedge & _).
  split; [exact wellFormed_undirectedScenarioGraph|]. split; [reflexivity|].
  split; [by rewrite Hnodes|]. split; [reflexivity|].
  split; [by rewrite (Hcount 0 1)|]. split; [reflexivity|].
  split; [by rewrite (Hcount 3 3)|].
  split; [by rewrite (Hedge 0 3)|by rewrite (Hedge 1 3)].
Defined.

(** C1 (the code at the failing input): the round trip of the graph of two
    nodes joined by one undirected edge.  The compacted graph is the graph
    itself; [restoreGraph] visits both nodes and adds the edge once from the
    adjacency of each, so the restored graph has the nodes and the id bound
    of the graph but two edges between 0 and 1 where the graph has one. *)
Theorem restoreGraph_undirected_doubles_edges :
  let G := oneEdgeGraph in
  let nodeIdMap := getContinuousNodeIds G in
  let restored :=
    restoreGraph (invertContinuousNodeIds nodeIdMap G) (getCompactedGraph G nodeIdMap) in
  wellFormed G
  ∧ getCompactedGraph G nodeIdMap = G
  ∧ nodes restored = nodes G
  ∧ upperNodeIdBound restored = upperNodeIdBound G
  ∧ edges G = [(1, 0, 1%float)]
  ∧ edges restored = [(1, 0, 1%float); (1, 0, 1%float)]
  ∧ numberOfEdges G = 1 ∧ numberOfEdges restored = 2
  ∧ neighborRange G 0 = [1] ∧ neighborRange restored 0 = [1; 1].
Proof.
  split; [exact wellFormed_oneEdgeGraph|].
  split_and!; reflexivity.
Qed.

(** * Further properties of the transformations *)

(** ** The invariant, pointwise *)

Lemma hasNode_newGraph (n : count) (weighted directed : bool) (u : node) :
  hasNode (newGraph n weighted directed) u = bool_decide (u < n).
Proof.
  unfold hasNode, newGraph. graph_simpl. case_bool_decide as Hu; simpl; [|done].
  rewrite lookup_replicate_2 by done. by apply bool_decide_eq_true_2.
Qed.

Lemma outAdj_newGraph (n : count) (weighted directed : bool) (u : node) :
  outAdj (newGraph n weighted directed) u = [].
Proof.
  unfold outAdj, newGraph. graph_simpl.
  by destruct (replicate _ _ !! _) as [l|] eqn:Hl;
    [apply lookup_replicate_1 in Hl as [-> _]|].
Qed.

Lemma inAdj_newGraph (n : count) (weighted directed : bool) (u : node) :
  inAdj (newGraph n weighted directed) u = [].
Proof.
  unfold inAdj. destruct directed; [|apply outAdj_newGraph].
  unfold newGraph. graph_simpl.
  by destruct (replicate _ _ !! _) as [l|] eqn:Hl;
    [apply lookup_replicate_1 in Hl as [-> _]|].
Qed.

Lemma inAdj_ge (g : Graph) (u : node) :
  length (outEdges g) ≤ u → length (inEdges g) ≤ u → inAdj g u = [].
Proof.
  intros Ho Hi. unfold inAdj, outAdj. destruct (isDirected g); by rewrite lookup_ge_None_2.
Qed.

(** The invariant, stated node by node. *)
Lemma wellFormed_pointwise (g : Graph) :
  wellFormed g ↔
  length (exists_ g) = upperNodeIdBound g
  ∧ length (outEdges g) = upperNodeIdBound g
  ∧ length (inEdges g) = (if isDirected g then upperNodeIdBound g else 0)
  ∧ numberOfNodes g = length (nodes g)
  ∧ (∀ u, hasNode g u = false → outAdj g u = [] ∧ inAdj g u = [])
  ∧ (∀ u a, a ∈ outAdj g u ∨ a ∈ inAdj g u → hasNode g (neighbor a) = true)
  ∧ (isDirected g = false → ∀ u v, adjacencyCount g u v = adjacencyCount g v u).
Proof.
  split.
  - intros Hwf. pose proof Hwf as (H1 & H2 & H3 & H4 & H5 & H6 & H7).
    split_and!; try done.
    + intros u Hu. split; [by apply wellFormed_hole_out|by apply wellFormed_hole_in].
    + intros u a Ha.
      destruct (decide (u < upperNodeIdBound g)) as [Hu|Hu].
      * rewrite Forall_forall in H6. specialize (H6 u). rewrite Forall_forall in H6.
        apply H6; [apply elem_of_seq; lia|]. by apply elem_of_app.
      * assert (Hhole : hasNode g u = false).
        { unfold hasNode. by rewrite bool_decide_eq_false_2. }
        rewrite (wellFormed_hole_out g u Hwf Hhole), (wellFormed_hole_in g u Hwf Hhole) in Ha.
        destruct Ha as [Ha|Ha]; by apply elem_of_nil in Ha.
    + intros Hd. by apply wellFormed_symmetric.
  - intros (H1 & H2 & H3 & H4 & H5 & H6 & H7). unfold wellFormed. split_and!; try done.
    + apply Forall_forall. intros u _ Hu. destruct (H5 u Hu) as [Ho Hi].
      unfold degreeOut, degreeIn. by rewrite Ho, Hi.
    + apply Forall_forall. intros u _. apply Forall_forall.
      intros a Ha%elem_of_app. by apply (H6 u).
    + intros Hd. apply Forall_forall. intros u _. apply Forall_forall.
      intros a _. by apply H7.
Qed.

Lemma filter_ext_in {A : Type} (P Q : A → Prop) `{!∀ x, Decision (P x)}
    `{!∀ x, Decision (Q x)} (l : list A) :
  (∀ x, x ∈ l → P x ↔ Q x) → filter P l = filter Q l.
Proof.
  induction l as [|x l IH]; intros Hl; [done|].
  rewrite !filter_cons, IH by (intros y Hy; apply Hl; by right).
  pose proof (Hl x ltac:(by left)).
  destruct (decide (P x)), (decide (Q x)); try done; tauto.
Qed.

Lemma filter_all {A : Type} (P : A → Prop) `{!∀ x, Decision (P x)} (l : list A) :
  (∀ x, x ∈ l → P x) → filter P l = l.
Proof.
  induction l as [|x l IH]; intros Hl; [done|].
  rewrite filter_cons_True by (apply Hl; by left).
  f_equal. apply IH. intros y Hy. apply Hl. by right.
Qed.

Lemma filter_none {A : Type} (P : A → Prop) `{!∀ x, Decision (P x)} (l : list A) :
  (∀ x, x ∈ l → ¬ P x) → filter P l = [].
Proof.
  induction l as [|x l IH]; intros Hl; [done|].
  rewrite filter_cons_False by (apply Hl; by left).
  apply IH. intros y Hy. apply Hl. by right.
Qed.

Lemma nodes_newGraph (n : count) (weighted directed : bool) :
  nodes (newGraph n weighted directed) = seq 0 n.
Proof.
  unfold nodes. change (upperNodeIdBound (newGraph n weighted directed)) with n.
  apply filter_all. intros u Hu%elem_of_seq. rewrite hasNode_newGraph.
  apply bool_decide_eq_true_2. lia.
Qed.

Lemma wellFormed_newGraph (n : count) (weighted directed : bool) :
  wellFormed (newGraph n weighted directed).
Proof.
  apply wellFormed_pointwise. split_and!.
  - apply length_replicate.
  - apply length_replicate.
  - unfold newGraph. graph_simpl. destruct directed; [apply length_replicate|done].
  - by rewrite nodes_newGraph, length_seq.
  - intros u _. by rewrite outAdj_newGraph, inAdj_newGraph.
  - intros u a. rewrite outAdj_newGraph, inAdj_newGraph.
    intros [Ha|Ha]; by apply elem_of_nil in Ha.
  - intros _ u v. by rewrite !adjacencyCount_newGraph.
Qed.

(** Counting the elements of a list that pass a test, when the test changes
    for one of them. *)
Lemma length_filter_gain {A : Type} (P Q : A → Prop) `{!∀ x, Decision (P x)}
    `{!∀ x, Decision (Q x)} (l : list A) (x0 : A) :
  NoDup l → x0 ∈ l → ¬ P x0 → Q x0 → (∀ x, x ≠ x0 → P x ↔ Q x) →
  length (filter Q l) = S (length (filter P l)).
Proof.
  intros Hnd Hin HP HQ Hother.
  induction Hnd as [|x l Hx Hnd IH]; [by apply elem_of_nil in Hin|].
  rewrite !filter_cons. apply elem_of_cons in Hin as [<-|Hin].
  - rewrite decide_True, decide_False by done. simpl. f_equal. f_equal.
    apply filter_ext_in. intros y Hy. symmetry. apply Hother.
    intros ->. done.
  - assert (x ≠ x0) by (intros ->; done).
    specialize (IH Hin). pose proof (Hother x ltac:(done)).
    destruct (decide (Q x)), (decide (P x)); simpl; try tauto; by rewrite IH.
Qed.

(** ** The primitives keep the invariant *)

Lemma hasNode_addNode_lt (g : Graph) (u : node) :
  length (exists_ g) = upperNodeIdBound g → u < upperNodeIdBound g →
  hasNode (addNode g).1 u = hasNode g u.
Proof.
  intros Hlen Hu. unfold hasNode, addNode. graph_simpl.
  rewrite (bool_decide_eq_true_2 (u < S _)), (bool_decide_eq_true_2 (u < _)) by lia.
  by rewrite lookup_app_l by lia.
Qed.

Lemma hasNode_addNode_new (g : Graph) :
  length (exists_ g) = upperNodeIdBound g →
  hasNode (addNode g).1 (upperNodeIdBound g) = true.
Proof.
  intros Hlen. unfold hasNode, addNode. graph_simpl.
  rewrite (bool_decide_eq_true_2 (_ < S _)) by lia. simpl. apply bool_decide_eq_true_2.
  rewrite <-Hlen. by apply list_lookup_middle.
Qed.

Lemma nodes_addNode (g : Graph) :
  length (exists_ g) = upperNodeIdBound g →
  nodes (addNode g).1 = nodes g ++ [upperNodeIdBound g].
Proof.
  intros Hlen. unfold nodes.
  change (upperNodeIdBound (addNode g).1) with (S (upperNodeIdBound g)).
  rewrite seq_S, filter_app, Nat.add_0_l. f_equal.
  - apply filter_ext_in. intros u Hu%elem_of_seq. by rewrite hasNode_addNode_lt by lia.
  - rewrite filter_cons_True; [done|]. by apply hasNode_addNode_new.
Qed.

Lemma wellFormed_addNode (g : Graph) : wellFormed g → wellFormed (addNode g).1.
Proof.
  intros (H1 & H2 & H3 & H4 & H5 & H6 & H7)%wellFormed_pointwise.
  apply wellFormed_pointwise. split_and!.
  - unfold addNode. graph_simpl. rewrite length_app. simpl. lia.
  - unfold addNode. graph_simpl. rewrite length_app. simpl. lia.
  - unfold addNode. graph_simpl.
    destruct (isDirected g); [rewrite length_app; simpl; lia|done].
  - rewrite nodes_addNode, length_app by done. unfold addNode. graph_simpl. simpl. lia.
  - intros u Hu. rewrite outAdj_addNode, inAdj_addNode. apply H5.
    destruct (hasNode g u) eqn:Hg; [|done]. by rewrite (hasNode_addNode g u Hg) in Hu.
  - intros u a. rewrite outAdj_addNode, inAdj_addNode. intros Ha.
    apply hasNode_addNode. by apply (H6 u).
  - intros Hd u v. unfold adjacencyCount. rewrite !outAdj_addNode. by apply H7.
Qed.

Lemma length_nodes_removeNode (g : Graph) (v : node) :
  hasNode g v = true → length (nodes g) = S (length (nodes (removeNode v g))).
Proof.
  intros Hv. unfold nodes.
  change (upperNodeIdBound (removeNode v g)) with (upperNodeIdBound g).
  apply (length_filter_gain _ _ _ v).
  - apply NoDup_seq.
  - apply elem_of_seq. apply hasNode_lt in Hv. lia.
  - by rewrite hasNode_removeNode_eq.
  - done.
  - intros x Hx. by rewrite hasNode_removeNode_ne.
Qed.

(** Removing a node that has no edge keeps the invariant. *)
Lemma wellFormed_removeNode (g : Graph) (v : node) :
  wellFormed g → hasNode g v = true →
  (∀ u a, a ∈ outAdj g u ∨ a ∈ inAdj g u → neighbor a ≠ v) →
  outAdj g v = [] → inAdj g v = [] →
  wellFormed (removeNode v g).
Proof.
  intros (H1 & H2 & H3 & H4 & H5 & H6 & H7)%wellFormed_pointwise Hv Hun Ho Hi.
  apply wellFormed_pointwise. split_and!; try done.
  - unfold removeNode, withNumberOfNodes, withExists. graph_simpl.
    by rewrite length_insert.
  - pose proof (length_nodes_removeNode g v Hv) as Hn.
    change (numberOfNodes (removeNode v g)) with (pred (numberOfNodes g)). lia.
  - intros u Hu.
    change (outAdj (removeNode v g) u) with (outAdj g u).
    change (inAdj (removeNode v g) u) with (inAdj g u).
    destruct (decide (u = v)) as [->|Hne]; [done|].
    apply H5. by rewrite hasNode_removeNode_ne in Hu.
  - intros u a Ha.
    change (outAdj (removeNode v g) u) with (outAdj g u) in Ha.
    change (inAdj (removeNode v g) u) with (inAdj g u) in Ha.
    rewrite hasNode_removeNode_ne; [by apply (H6 u)|by apply (Hun u)].
Qed.

Lemma hasNode_restoreNode_eq (g : Graph) (v : node) :
  length (exists_ g) = upperNodeIdBound g → v < upperNodeIdBound g →
  hasNode (restoreNode v g) v = true.
Proof.
  intros Hlen Hv. unfold hasNode, restoreNode, withNumberOfNodes, withExists. graph_simpl.
  rewrite bool_decide_eq_true_2 by done. simpl. apply bool_decide_eq_true_2.
  apply list_lookup_insert_eq. lia.
Qed.

Lemma hasNode_restoreNode_ne (g : Graph) (v u : node) :
  u ≠ v → hasNode (restoreNode v g) u = hasNode g u.
Proof.
  intros Hne. unfold hasNode, restoreNode, withNumberOfNodes, withExists. graph_simpl.
  by rewrite list_lookup_insert_ne.
Qed.

Lemma length_nodes_restoreNode (g : Graph) (v : node) :
  length (exists_ g) = upperNodeIdBound g → v < upperNodeIdBound g →
  hasNode g v = false →
  length (nodes (restoreNode v g)) = S (length (nodes g)).
Proof.
  intros Hlen Hv Hhole. unfold nodes.
  change (upperNodeIdBound (restoreNode v g)) with (upperNodeIdBound g).
  apply (length_filter_gain _ _ _ v).
  - apply NoDup_seq.
  - apply elem_of_seq. lia.
  - by rewrite Hhole.
  - by apply hasNode_restoreNode_eq.
  - intros x Hx. by rewrite hasNode_restoreNode_ne.
Qed.

Lemma wellFormed_restoreNode (g : Graph) (v : node) :
  wellFormed g → v < upperNodeIdBound g → hasNode g v = false →
  wellFormed (restoreNode v g).
Proof.
  intros (H1 & H2 & H3 & H4 & H5 & H6 & H7)%wellFormed_pointwise Hv Hhole.
  apply wellFormed_pointwise. split_and!; try done.
  - unfold restoreNode, withNumberOfNodes, withExists. graph_simpl.
    by rewrite length_insert.
  - rewrite length_nodes_restoreNode by done.
    change (numberOfNodes (restoreNode v g)) with (S (numberOfNodes g)). lia.
  - intros u Hu.
    change (outAdj (restoreNode v g) u) with (outAdj g u).
    change (inAdj (restoreNode v g) u) with (inAdj g u).
    destruct (decide (u = v)) as [->|Hne]; [by apply H5|].
    apply H5. by rewrite hasNode_restoreNode_ne in Hu.
  - intros u a Ha.
    change (outAdj (restoreNode v g) u) with (outAdj g u) in Ha.
    change (inAdj (restoreNode v g) u) with (inAdj g u) in Ha.
    apply hasNode_restoreNode. by apply (H6 u).
Qed.

Lemma inAdj_addEdge_other (g : Graph) (u v : node) (w : edgeweight) (x : node) :
  x ≠ v → (isDirected g = true ∨ x ≠ u) → inAdj (addEdge u v w g) x = inAdj g x.
Proof.
  intros Hxv Hxu. unfold inAdj. change (isDirected (addEdge u v w g)) with (isDirected g).
  destruct (isDirected g) eqn:Hd.
  - unfold addEdge. graph_simpl. rewrite Hd. by rewrite lookup_pushBack_ne.
  - destruct Hxu as [?|Hxu]; [done|]. apply outAdj_addEdge_other; [done|by right].
Qed.

Lemma elem_of_outAdj_addEdge (g : Graph) (u v : node) (w : edgeweight) (x : node)
    (a : Adj) :
  a ∈ outAdj (addEdge u v w g) x →
  a ∈ outAdj g x ∨ (x = u ∧ neighbor a = v)
  ∨ (isDirected g = false ∧ x = v ∧ neighbor a = u).
Proof.
  pose proof (addEdge_frame g u v w) as (_ & _ & _ & _ & _ & _ & Hl).
  destruct (decide (x = u)) as [->|Hxu].
  - destruct (decide (u < length (outEdges g))) as [Hu|Hu].
    + rewrite outAdj_addEdge_source by done.
      intros [Ha|Ha%list_elem_of_singleton]%elem_of_app; [by left|].
      right. left. by subst a.
    + rewrite outAdj_ge by lia. by intros ?%elem_of_nil.
  - destruct (decide (isDirected g = true ∨ x ≠ v)) as [Hc|Hc].
    + rewrite outAdj_addEdge_other by done. by left.
    + assert (isDirected g = false ∧ x = v) as [Hund ->].
      { split; [apply not_true_is_false|apply dec_stable]; intros ?; apply Hc; auto. }
      destruct (decide (v < length (outEdges g))) as [Hv|Hv].
      * rewrite outAdj_addEdge_target by done.
        intros [Ha|Ha%list_elem_of_singleton]%elem_of_app; [by left|].
        right. right. by subst a.
      * rewrite outAdj_addEdge_target_ge by (done || lia). by left.
Qed.

Lemma elem_of_inAdj_addEdge (g : Graph) (u v : node) (w : edgeweight) (x : node)
    (a : Adj) :
  a ∈ inAdj (addEdge u v w g) x →
  a ∈ inAdj g x ∨ (x = u ∧ neighbor a = v) ∨ (x = v ∧ neighbor a = u).
Proof.
  unfold inAdj. change (isDirected (addEdge u v w g)) with (isDirected g).
  destruct (isDirected g) eqn:Hd.
  2:{ intros [?|[?|(_ & ? & ?)]]%elem_of_outAdj_addEdge; auto. }
  unfold addEdge. graph_simpl. rewrite Hd.
  destruct (decide (x = v)) as [->|Hne].
  - unfold pushBack. rewrite list_lookup_alter_eq.
    destruct (inEdges g !! v); simpl; [|by left].
    intros [Ha|Ha%list_elem_of_singleton]%elem_of_app; [by left|].
    right. right. by subst a.
  - rewrite lookup_pushBack_ne by done. by left.
Qed.

(** Adding an edge between two nodes keeps the invariant. *)
Lemma wellFormed_addEdge (g : Graph) (u v : node) (w : edgeweight) :
  wellFormed g → hasNode g u = true → hasNode g v = true →
  wellFormed (addEdge u v w g).
Proof.
  intros (H1 & H2 & H3 & H4 & H5 & H6 & H7)%wellFormed_pointwise Hu Hv.
  pose proof (addEdge_frame g u v w) as (Hz & _ & Hd & _ & He & Hn & Hl).
  pose proof (hasNode_lt _ _ Hu). pose proof (hasNode_lt _ _ Hv).
  apply wellFormed_pointwise. split_and!.
  - by rewrite He, Hz.
  - by rewrite Hl, Hz.
  - rewrite Hd, Hz, <-H3. unfold addEdge. graph_simpl.
    destruct (isDirected g); [apply length_pushBack|done].
  - rewrite Hn, H4. unfold nodes. rewrite Hz. f_equal.
  - intros x Hx. rewrite hasNode_addEdge in Hx.
    assert (x ≠ u) by (intros ->; congruence).
    assert (x ≠ v) by (intros ->; congruence).
    rewrite outAdj_addEdge_other, inAdj_addEdge_other by (done || by right).
    by apply H5.
  - intros x a Ha. rewrite hasNode_addEdge.
    destruct Ha as [Ha|Ha].
    + apply elem_of_outAdj_addEdge in Ha as [Ha|[[_ ->]|(_ & _ & ->)]]; [|done..].
      apply (H6 x). by left.
    + apply elem_of_inAdj_addEdge in Ha as [Ha|[[_ ->]|[_ ->]]]; [|done..].
      apply (H6 x). by right.
  - rewrite Hd. intros Hund x y. rewrite !adjacencyCount_addEdge by lia.
    pose proof (H7 Hund x y).
    destruct (decide (u = v)); repeat case_decide; try lia;
      exfalso; intuition congruence.
Qed.

(** A loop that adds edges between nodes keeps the invariant. *)
Lemma wellFormed_foldl_addEdge {B : Type} (keep : Graph → B → bool)
    (src tgt : B → node) (wt : B → edgeweight) (L : list B) (s : Graph) :
  wellFormed s →
  (∀ e s', e ∈ L → keep s' e = true →
           hasNode s (src e) = true ∧ hasNode s (tgt e) = true) →
  wellFormed (foldl (λ s e, if keep s e then addEdge (src e) (tgt e) (wt e) s else s)
                    s L).
Proof.
  revert s. induction L as [|e L IH]; intros s Hwf HL; [done|]. cbn [foldl].
  destruct (keep s e) eqn:Hkeep.
  - destruct (HL e s) as [Hu Hv]; [by left|done|].
    apply IH; [by apply wellFormed_addEdge|].
    intros e' s' He' Hk. rewrite !hasNode_addEdge. apply (HL e' s'); [by right|done].
  - apply IH; [done|]. intros e' s' He' Hk. apply (HL e' s'); [by right|done].
Qed.

(** A graph without adjacency records has no edges. *)
Lemma edges_no_adjacency (g : Graph) : (∀ u, outAdj g u = []) → edges g = [].
Proof.
  intros Hout. unfold edges, edgesWithIds.
  induction (seq 0 (upperNodeIdBound g)) as [|u l IH]; [done|].
  rewrite bind_cons, fmap_app, IH, app_nil_r. unfold edgesAt. by rewrite Hout.
Qed.

(** ** Copying the nodes *)

Lemma copyNodes_loop (G : Graph) (k : node) :
  k ≤ upperNodeIdBound G →
  let C := foldl (λ C u, if negb (hasNode G u) then removeNode u C else C)
                 (newGraph (upperNodeIdBound G) (isWeighted G) (isDirected G))
                 (seq 0 k) in
  wellFormed C
  ∧ upperNodeIdBound C = upperNodeIdBound G
  ∧ isWeighted C = isWeighted G
  ∧ isDirected C = isDirected G
  ∧ hasEdgeIds C = false
  ∧ numberOfEdges C = 0
  ∧ (∀ u, outAdj C u = [])
  ∧ (∀ u, inAdj C u = [])
  ∧ (∀ u, hasNode C u = if decide (u < k) then hasNode G u
                        else bool_decide (u < upperNodeIdBound G)).
Proof.
  induction k as [|k IH]; intros Hk.
  - simpl. split_and!; try done.
    + apply wellFormed_newGraph.
    + apply outAdj_newGraph.
    + apply inAdj_newGraph.
    + intros u. apply hasNode_newGraph.
  - rewrite seq_S, foldl_app, Nat.add_0_l. cbn [foldl].
    destruct IH as (Hwf & Hz & Hw & Hd & Hi & Hm & Ho & Hin & Hn); [lia|].
    destruct (hasNode G k) eqn:HGk; cbn [negb].
    + split_and!; try done. intros u. rewrite Hn.
      destruct (decide (u = k)) as [->|Hne].
      * rewrite decide_False, decide_True by lia. rewrite HGk.
        apply bool_decide_eq_true_2. lia.
      * repeat case_decide; try done; lia.
    + split_and!; try done.
      * apply wellFormed_removeNode; try done.
        -- rewrite Hn, decide_False by lia. apply bool_decide_eq_true_2. lia.
        -- intros u a. rewrite Ho, Hin. intros [Ha|Ha]; by apply elem_of_nil in Ha.
      * intros u. destruct (decide (u = k)) as [->|Hne].
        -- by rewrite hasNode_removeNode_eq, decide_True by lia.
        -- rewrite hasNode_removeNode_ne, Hn by done.
           repeat case_decide; try done; lia.
Qed.

(** [copyNodes]: the copy has the id bound, the flags, the nodes and the
    holes of the graph, no edge and no edge ids, and it is a well-formed
    graph whatever the graph is; its node count is the number of existing
    ids. *)
Theorem copyNodes_same_nodes_no_edges (G : Graph) :
  let C := copyNodes G in
  wellFormed C
  ∧ upperNodeIdBound C = upperNodeIdBound G
  ∧ isWeighted C = isWeighted G
  ∧ isDirected C = isDirected G
  ∧ hasEdgeIds C = false
  ∧ (∀ u, hasNode C u = hasNode G u)
  ∧ nodes C = nodes G
  ∧ numberOfNodes C = length (nodes G)
  ∧ (wellFormed G → numberOfNodes C = numberOfNodes G)
  ∧ edges C = []
  ∧ numberOfEdges C = 0
  ∧ (∀ u v, hasEdge C u v = false)
  ∧ (∀ u, degreeOut C u = 0 ∧ degreeIn C u = 0).
Proof.
  intros C.
  destruct (copyNodes_loop G (upperNodeIdBound G)) as (Hwf & Hz & Hw & Hd & Hi & Hm & Ho & Hin & Hn);
    [done|].
  fold (copyNodes G) in Hwf, Hz, Hw, Hd, Hi, Hm, Ho, Hin, Hn. fold C in Hwf, Hz, Hw, Hd, Hi, Hm, Ho, Hin, Hn.
  assert (Hnode : ∀ u, hasNode C u = hasNode G u).
  { intros u. rewrite Hn. case_decide as Hu; [done|].
    rewrite bool_decide_eq_false_2 by done. symmetry.
    unfold hasNode. by rewrite bool_decide_eq_false_2. }
  assert (Hnodes : nodes C = nodes G).
  { unfold nodes. rewrite Hz. apply list_filter_iff. intros u. by rewrite Hnode. }
  split_and!; try done.
  - destruct Hwf as (_ & _ & _ & -> & _). by rewrite Hnodes.
  - intros (_ & _ & _ & HG & _). destruct Hwf as (_ & _ & _ & -> & _). by rewrite Hnodes.
  - by apply edges_no_adjacency.
  - intros u v. unfold hasEdge. rewrite Ho.
    rewrite (bool_decide_eq_false_2 (v ∈ _)); [apply andb_false_r|].
    by intros ?%elem_of_nil.
  - intros u. unfold degreeOut, degreeIn. by rewrite Ho, Hin.
Qed.

(** ** Transpose reverses the edges *)

(** [transpose] of a directed graph: the out-edges of a node in the result
    are its in-edges in the graph, with neighbour, weight and edge id and in
    the same order, and the in-edges of the node are its out-edges; the
    nodes, the holes and the flags are those of the graph, a hole has no
    edge, and the result of a well-formed graph is well-formed. *)
Theorem transpose_reverses_edges (G : Graph) :
  isDirected G = true →
  ∃ GTranspose,
    transpose G = Returns GTranspose
    ∧ upperNodeIdBound GTranspose = upperNodeIdBound G
    ∧ (∀ u, hasNode GTranspose u = hasNode G u)
    ∧ nodes GTranspose = nodes G
    ∧ numberOfNodes GTranspose = length (nodes G)
    ∧ (∀ u, hasNode G u = true →
            observed GTranspose <$> outAdj GTranspose u = observed G <$> inAdj G u
            ∧ observed GTranspose <$> inAdj GTranspose u = observed G <$> outAdj G u)
    ∧ (∀ u, hasNode G u = true →
            neighborRange GTranspose u = inNeighborRange G u
            ∧ inNeighborRange GTranspose u = neighborRange G u)
    ∧ (∀ u, hasNode G u = false → outAdj GTranspose u = [] ∧ inAdj GTranspose u = [])
    ∧ isWeighted GTranspose = isWeighted G
    ∧ hasEdgeIds GTranspose = hasEdgeIds G
    ∧ isDirected GTranspose = true
    ∧ (wellFormed G → wellFormed GTranspose).
Proof.
  intros Hdir. exists (transposeResult G).
  split; [by apply transpose_returns|].
  split_and!; try done; [..|intros Hwf; by apply wellFormed_transposeResult].
  - apply hasNode_transposeResult.
  - apply nodes_transposeResult.
  - unfold transposeResult. graph_simpl. apply length_nodes_holes.
  - intros u Hu. rewrite outAdj_transposeResult, inAdj_transposeResult, Hu.
    rewrite <-!list_fmap_compose.
    split; apply list_fmap_ext; intros i a _; by apply observed_observed.
  - intros u Hu. unfold neighborRange, inNeighborRange.
    rewrite outAdj_transposeResult, inAdj_transposeResult, Hu.
    by rewrite <-!list_fmap_compose.
  - intros u Hu. by rewrite outAdj_transposeResult, inAdj_transposeResult, Hu.
Qed.

(** The scenario graph with holes and weights: node 0 has the in-edge from
    3 of weight 2.5, which is its out-edge in the transpose. *)
Lemma transpose_reverses_edges_witness :
  isDirected scenarioGraph = true
  ∧ ∃ GTranspose,
      transpose scenarioGraph = Returns GTranspose
      ∧ neighborRange GTranspose 0 = [3]
      ∧ inNeighborRange GTranspose 0 = [1]
      ∧ weight <$> outAdj GTranspose 0 = [2.5%float]
      ∧ hasNode GTranspose 2 = false.
Proof.
  split; [reflexivity|].
  destruct (transpose_reverses_edges scenarioGraph eq_refl)
    as (GT & Hret & _ & Hnode & _ & _ & _ & Hnb & _).
  exists GT. split; [exact Hret|].
  destruct (Hnb 0 eq_refl) as [Ho Hi].
  split; [by rewrite Ho|]. split; [by rewrite Hi|].
  split; [|by rewrite Hnode].
  rewrite (transpose_returns scenarioGraph eq_refl) in Hret.
  injection Hret as <-. reflexivity.
Defined.

(** ** More on the subgraph of a node set *)

Lemma edges_subgraphFromNodes (G : Graph) (nodes : gset node)
    (includeOutNeighbors includeInNeighbors : bool) :
  edges (subgraphFromNodes G nodes includeOutNeighbors includeInNeighbors)
  ≡ₚ filter (λ e, keepsEdge
                    (isRelevantNode nodes
                       (subgraphNeighbors G nodes includeOutNeighbors includeInNeighbors))
                    e.1.1 e.1.2 = true)
            (edges G).
Proof.
  rewrite subgraphFromNodes_unfold.
  etrans.
  { apply (edges_foldl_addEdge
             (keepsEdge (isRelevantNode nodes
                (subgraphNeighbors G nodes includeOutNeighbors includeInNeighbors)))).
    - unfold subgraphNodesOnly. graph_simpl. apply length_replicate.
    - intros u v w Hin. by apply edges_reported in Hin. }
  by rewrite edges_subgraphNodesOnly.
Qed.

Lemma subgraphFromNodes_frame (G : Graph) (nodes : gset node)
    (includeOutNeighbors includeInNeighbors : bool) :
  let S := subgraphFromNodes G nodes includeOutNeighbors includeInNeighbors in
  let relevance :=
    isRelevantNode nodes
      (subgraphNeighbors G nodes includeOutNeighbors includeInNeighbors) in
  upperNodeIdBound S = upperNodeIdBound G
  ∧ isWeighted S = isWeighted G
  ∧ isDirected S = isDirected G
  ∧ numberOfNodes S
    = upperNodeIdBound G
      - length (filter (λ u, relevance u = 0) (seq 0 (upperNodeIdBound G))).
Proof.
  intros S relevance. unfold S. rewrite subgraphFromNodes_unfold.
  destruct (foldl_addEdge_frame (λ u v _ _, keepsEdge relevance u v)
              (edges G) (subgraphNodesOnly G relevance))
    as (Hz & Hw & Hd & _ & _ & Hn & _).
  split_and!; [exact Hz|exact Hw|exact Hd|exact Hn].
Qed.

Lemma isRelevantNode_no_neighbors (nodes : gset node) (u : node) :
  isRelevantNode nodes ∅ u = if bool_decide (u ∈ nodes) then 2 else 0.
Proof. unfold isRelevantNode. by destruct (bool_decide (u ∈ nodes)). Qed.

Lemma keepsEdge_no_neighbors (nodes : gset node) (u v : node) :
  keepsEdge (isRelevantNode nodes ∅) u v = true ↔ u ∈ nodes ∧ v ∈ nodes.
Proof.
  unfold keepsEdge. rewrite bool_decide_eq_true, !isRelevantNode_no_neighbors.
  do 2 case_bool_decide; split; try lia; tauto.
Qed.

(** [subgraphFromNodes] for the empty node set: whatever the flags, the
    result has the id bound of the graph and neither a node nor an edge. *)
Theorem subgraphFromNodes_empty_set (G : Graph)
    (includeOutNeighbors includeInNeighbors : bool) :
  let S := subgraphFromNodes G ∅ includeOutNeighbors includeInNeighbors in
  upperNodeIdBound S = upperNodeIdBound G
  ∧ (∀ u, hasNode S u = false)
  ∧ nodes S = []
  ∧ numberOfNodes S = 0
  ∧ edges S = [].
Proof.
  intros S.
  assert (Hrel : ∀ u,
    isRelevantNode ∅ (subgraphNeighbors G ∅ includeOutNeighbors includeInNeighbors) u = 0).
  { intros u.
    destruct (isRelevantNode_cases G ∅ includeOutNeighbors includeInNeighbors u)
      as [[_ Hu]|[[_ [_ Hu]]|[Hr _]]]; [by apply not_elem_of_empty in Hu| |done].
    apply elem_of_subgraphNeighbors in Hu as (x & Hx & _).
    by apply not_elem_of_empty in Hx. }
  destruct (subgraphFromNodes_frame G ∅ includeOutNeighbors includeInNeighbors)
    as (Hz & _ & _ & Hn).
  assert (Hnode : ∀ u, hasNode S u = false).
  { intros u. unfold S. rewrite hasNode_subgraphFromNodes.
    rewrite (bool_decide_eq_false_2 (_ ≠ 0)); [apply andb_false_r|].
    intros Hne. by apply Hne. }
  split_and!; try done.
  - apply filter_none. intros u _. by rewrite Hnode.
  - unfold S. rewrite Hn, filter_all, length_seq by (intros u _; apply Hrel). lia.
  - apply Permutation_nil_r. unfold S. rewrite edges_subgraphFromNodes.
    rewrite filter_none; [done|]. intros e _. unfold keepsEdge.
    rewrite !Hrel. intros Hlt%bool_decide_eq_true. lia.
Qed.

(** [subgraphFromNodes] for the set of all nodes of a well-formed graph:
    whatever the flags, the result has the nodes, the holes and the node
    count of the graph and the edges of the graph, with their weights. *)
Theorem subgraphFromNodes_all_nodes (G : Graph) (nodes : gset node)
    (includeOutNeighbors includeInNeighbors : bool) :
  wellFormed G →
  (∀ u, u ∈ nodes ↔ hasNode G u = true) →
  let S := subgraphFromNodes G nodes includeOutNeighbors includeInNeighbors in
  (∀ u, hasNode S u = hasNode G u)
  ∧ numberOfNodes S = numberOfNodes G
  ∧ edges S ≡ₚ edges G.
Proof.
  intros Hwf Hall S.
  assert (Hrel : ∀ u,
    isRelevantNode nodes (subgraphNeighbors G nodes includeOutNeighbors includeInNeighbors) u
    = if hasNode G u then 2 else 0).
  { intros u.
    destruct (isRelevantNode_cases G nodes includeOutNeighbors includeInNeighbors u)
      as [[-> Hu]|[[_ [Hu Hnb]]|[-> [Hu _]]]].
    - apply Hall in Hu. by rewrite Hu.
    - exfalso. apply Hu, Hall.
      apply elem_of_subgraphNeighbors in Hnb as (x & _ & [[_ Hx]|[_ Hx]]).
      + apply list_elem_of_fmap in Hx as (a & -> & Ha).
        apply wellFormed_pointwise in Hwf as (_ & _ & _ & _ & _ & H6 & _).
        apply (H6 x). by left.
      + apply list_elem_of_fmap in Hx as (a & -> & Ha).
        apply wellFormed_pointwise in Hwf as (_ & _ & _ & _ & _ & H6 & _).
        apply (H6 x). by right.
    - destruct (hasNode G u) eqn:Hn; [|done]. by apply Hall in Hn. }
  destruct (subgraphFromNodes_frame G nodes includeOutNeighbors includeInNeighbors)
    as (Hz & _ & _ & Hn).
  split_and!.
  - intros u. unfold S. rewrite hasNode_subgraphFromNodes, Hrel.
    destruct (hasNode G u) eqn:Hu.
    + apply hasNode_lt in Hu. by rewrite !bool_decide_eq_true_2 by (done || lia).
    + rewrite (bool_decide_eq_false_2 (0 ≠ 0)) by (intros ?; done). apply andb_false_r.
  - unfold S. rewrite Hn.
    rewrite (filter_ext_in _ (λ u, hasNode G u = false)).
    + rewrite length_nodes_holes. by destruct Hwf as (_ & _ & _ & -> & _).
    + intros u _. rewrite Hrel. by destruct (hasNode G u).
  - unfold S. rewrite edges_subgraphFromNodes.
    rewrite filter_all; [done|].
    intros [[u v] w] (Hu & a & Ha & _ & -> & _)%elem_of_edges.
    destruct (wellFormed_neighbor G u a Hwf Ha) as [Hnu Hnv].
    unfold keepsEdge. cbn [fst snd]. rewrite !Hrel, Hnu, Hnv.
    apply bool_decide_eq_true_2. lia.
Qed.

Lemma subgraphFromNodes_all_nodes_witness :
  let S := subgraphFromNodes scenarioGraph {[0; 1; 3]} true false in
  wellFormed scenarioGraph
  ∧ nodes S = [0; 1; 3]
  ∧ numberOfNodes S = 3
  ∧ edges S ≡ₚ [(0, 1, 1%float); (1, 3, 1%float); (3, 0, 2.5%float)].
Proof.
  assert (Hall : ∀ u, u ∈ ({[0; 1; 3]} : gset node) ↔ hasNode scenarioGraph u = true).
  { intros u. rewrite !elem_of_union, !elem_of_singleton.
    split; [by intros [[->| ->]| ->]|].
    intros Hu. pose proof (hasNode_lt _ _ Hu) as Hlt.
    change (upperNodeIdBound scenarioGraph) with 4 in Hlt.
    destruct u as [|[|[|[|u]]]]; [tauto|tauto|done|tauto|lia]. }
  destruct (subgraphFromNodes_all_nodes scenarioGraph {[0; 1; 3]} true false
              wellFormed_scenarioGraph Hall) as (Hnode & Hn & Hedges).
  split; [exact wellFormed_scenarioGraph|].
  split; [by vm_compute|]. split; [by rewrite Hn|]. by rewrite Hedges.
Defined.

(** Taking the subgraph of a subgraph (without neighbours): the nodes are
    those of the subgraph of the inner set alone, and the edges are those of
    the subgraph of the intersection of the two sets; so the subgraph of a
    subset of the first set is the subgraph of the subset, and taking the
    subgraph of the same set again changes neither nodes nor edges. *)
Theorem subgraphFromNodes_nested (G : Graph) (S T : gset node) :
  let inner := subgraphFromNodes G S false false in
  let nested := subgraphFromNodes inner T false false in
  upperNodeIdBound nested = upperNodeIdBound G
  ∧ (∀ u, hasNode nested u = hasNode (subgraphFromNodes G T false false) u)
  ∧ edges nested ≡ₚ edges (subgraphFromNodes G (S ∩ T) false false)
  ∧ (T ⊆ S → edges nested ≡ₚ edges (subgraphFromNodes G T false false))
  ∧ (∀ u, hasNode (subgraphFromNodes inner S false false) u = hasNode inner u)
  ∧ edges (subgraphFromNodes inner S false false) ≡ₚ edges inner.
Proof.
  intros inner nested.
  destruct (subgraphFromNodes_frame G S false false) as (Hz & _ & _ & _).
  fold inner in Hz.
  assert (Hnode : ∀ X u, hasNode (subgraphFromNodes inner X false false) u
                         = hasNode (subgraphFromNodes G X false false) u).
  { intros X u. by rewrite !hasNode_subgraphFromNodes, Hz. }
  assert (Hedges : ∀ X, edges (subgraphFromNodes inner X false false)
                        ≡ₚ edges (subgraphFromNodes G (S ∩ X) false false)).
  { intros X. rewrite !edges_subgraphFromNodes. unfold inner.
    rewrite edges_subgraphFromNodes, list_filter_filter.
    change (subgraphNeighbors _ _ false false) with (∅ : gset node).
    rewrite (list_filter_iff _ (λ e, keepsEdge (isRelevantNode (S ∩ X) ∅) e.1.1 e.1.2 = true));
      [done|].
    intros e. rewrite !keepsEdge_no_neighbors, !elem_of_intersection. tauto. }
  assert (Hsub : ∀ X, X ⊆ S → S ∩ X = X).
  { intros X HX. apply set_eq. intros x. rewrite elem_of_intersection.
    split; [tauto|]. intros Hx. split; [by apply HX|done]. }
  split_and!.
  - destruct (subgraphFromNodes_frame inner T false false) as (Hz' & _).
    unfold nested. by rewrite Hz'.
  - apply Hnode.
  - apply Hedges.
  - intros HT. unfold nested. by rewrite Hedges, (Hsub T HT).
  - intros u. rewrite Hnode. done.
  - by rewrite Hedges, (Hsub S).
Qed.

Lemma hasNode_subgraphNodesOnly (G : Graph) (relevance : node → nat) (u : node) :
  hasNode (subgraphNodesOnly G relevance) u
  = bool_decide (u < upperNodeIdBound G) && bool_decide (relevance u ≠ 0).
Proof.
  unfold hasNode, subgraphNodesOnly. graph_simpl. rewrite lookup_tabulate.
  case_decide as Hu.
  - rewrite (bool_decide_eq_true_2 _ Hu). simpl.
    destruct (bool_decide (relevance u ≠ 0));
      [by apply bool_decide_eq_true_2|by apply bool_decide_eq_false_2].
  - by rewrite (bool_decide_eq_false_2 _ Hu).
Qed.

Lemma outAdj_subgraphNodesOnly (G : Graph) (relevance : node → nat) (u : node) :
  outAdj (subgraphNodesOnly G relevance) u = [].
Proof.
  unfold outAdj, subgraphNodesOnly. graph_simpl.
  by destruct (replicate _ _ !! _) as [l|] eqn:Hl;
    [apply lookup_replicate_1 in Hl as [-> _]|].
Qed.

Lemma inAdj_subgraphNodesOnly (G : Graph) (relevance : node → nat) (u : node) :
  inAdj (subgraphNodesOnly G relevance) u = [].
Proof.
  unfold inAdj. change (isDirected (subgraphNodesOnly G relevance)) with (isDirected G).
  destruct (isDirected G) eqn:Hd; [|apply outAdj_subgraphNodesOnly].
  unfold subgraphNodesOnly. graph_simpl. rewrite Hd.
  by destruct (replicate _ _ !! _) as [l|] eqn:Hl;
    [apply lookup_replicate_1 in Hl as [-> _]|].
Qed.

(** The graph of the relevant nodes, before the edges are added. *)
Lemma wellFormed_subgraphNodesOnly (G : Graph) (relevance : node → nat) :
  wellFormed (subgraphNodesOnly G relevance).
Proof.
  apply wellFormed_pointwise. split_and!.
  - apply length_tabulate.
  - apply length_replicate.
  - unfold subgraphNodesOnly. graph_simpl.
    destruct (isDirected G); [apply length_replicate|done].
  - unfold nodes. change (upperNodeIdBound (subgraphNodesOnly G relevance))
      with (upperNodeIdBound G).
    change (numberOfNodes (subgraphNodesOnly G relevance))
      with (upperNodeIdBound G
            - length (filter (λ u, relevance u = 0) (seq 0 (upperNodeIdBound G)))).
    pose proof (length_filter_complement (λ u, relevance u = 0)
                  (seq 0 (upperNodeIdBound G))) as Hc.
    rewrite length_seq in Hc.
    rewrite (filter_ext_in (λ v, hasNode (subgraphNodesOnly G relevance) v = true)
               (λ u, ¬ relevance u = 0)); [lia|].
    intros u Hu%elem_of_seq. rewrite hasNode_subgraphNodesOnly.
    rewrite (bool_decide_eq_true_2 (u < _)) by lia. simpl.
    apply bool_decide_eq_true.
  - intros u _. by rewrite outAdj_subgraphNodesOnly, inAdj_subgraphNodesOnly.
  - intros u a. rewrite outAdj_subgraphNodesOnly, inAdj_subgraphNodesOnly.
    intros [Ha|Ha]; by apply elem_of_nil in Ha.
  - intros _ u v. unfold adjacencyCount. by rewrite !outAdj_subgraphNodesOnly.
Qed.

(** The edge counter after a loop that adds some edges of a list. *)
Lemma numberOfEdges_foldl_addEdge {B : Type} (keep : B → bool)
    (src tgt : B → node) (wt : B → edgeweight) (L : list B) (s : Graph) :
  numberOfEdges (foldl (λ s e, if keep e then addEdge (src e) (tgt e) (wt e) s else s) s L)
  = numberOfEdges s + length (filter (λ e, keep e = true) L).
Proof.
  revert s. induction L as [|e L IH]; intros s; cbn [foldl]; [simpl; lia|].
  rewrite IH, filter_cons. destruct (keep e) eqn:Hk.
  - rewrite decide_True by done. simpl. lia.
  - rewrite decide_False by done. done.
Qed.

(** [subgraphFromNodes] of a well-formed graph is a well-formed graph,
    whatever the node set and the flags: its node count counts its existing
    ids, no edge ends at a hole, the adjacency of an undirected result is
    symmetric, and its edge count is the number of its edges. *)
Theorem subgraphFromNodes_wellFormed (G : Graph) (nodes : gset node)
    (includeOutNeighbors includeInNeighbors : bool) :
  wellFormed G →
  let S := subgraphFromNodes G nodes includeOutNeighbors includeInNeighbors in
  wellFormed S
  ∧ numberOfEdges S = length (edges S)
  ∧ hasEdgeIds S = false.
Proof.
  intros Hwf S.
  set (relevance := isRelevantNode nodes
         (subgraphNeighbors G nodes includeOutNeighbors includeInNeighbors)).
  split_and!.
  - unfold S. rewrite subgraphFromNodes_unfold. fold relevance.
    apply (wellFormed_foldl_addEdge (λ _ e, keepsEdge relevance e.1.1 e.1.2)
             (λ e, e.1.1) (λ e, e.1.2) (λ e : node * node * edgeweight, e.2)).
    + apply wellFormed_subgraphNodesOnly.
    + intros [[u v] w] _ Hin Hkeep. cbn [fst snd] in *.
      destruct (wellFormed_edges_in_range G u v w Hwf Hin) as [Hu Hv].
      unfold keepsEdge in Hkeep. apply bool_decide_eq_true in Hkeep.
      rewrite !hasNode_subgraphNodesOnly.
      rewrite (bool_decide_eq_true_2 (u < _)), (bool_decide_eq_true_2 (v < _)) by done.
      simpl.
      destruct (isRelevantNode_cases G nodes includeOutNeighbors includeInNeighbors u)
        as [[Hru _]|[[Hru _]|[Hru _]]];
      destruct (isRelevantNode_cases G nodes includeOutNeighbors includeInNeighbors v)
        as [[Hrv _]|[[Hrv _]|[Hrv _]]];
        fold relevance in Hru, Hrv;
        split; apply bool_decide_eq_true_2; lia.
  - unfold S. rewrite (Permutation_length (edges_subgraphFromNodes G nodes _ _)).
    rewrite subgraphFromNodes_unfold. fold relevance.
    etrans; [apply (numberOfEdges_foldl_addEdge (λ e, keepsEdge relevance e.1.1 e.1.2)
                      (λ e, e.1.1) (λ e, e.1.2) (λ e : node * node * edgeweight, e.2))|].
    done.
  - unfold S. rewrite subgraphFromNodes_unfold.
    destruct (foldl_addEdge_frame (λ u v _ _, keepsEdge relevance u v)
                (edges G) (subgraphNodesOnly G relevance))
      as (_ & _ & _ & Hi & _).
    exact Hi.
Qed.

Lemma subgraphFromNodes_wellFormed_witness :
  let S := subgraphFromNodes scenarioGraph {[0; 1]} true true in
  wellFormed scenarioGraph
  ∧ wellFormed S
  ∧ nodes S = [0; 1; 3]
  ∧ numberOfEdges S = 3.
Proof.
  destruct (subgraphFromNodes_wellFormed scenarioGraph {[0; 1]} true true
              wellFormed_scenarioGraph) as (Hwf & Hm & _).
  split; [exact wellFormed_scenarioGraph|]. split; [exact Hwf|].
  split; by vm_compute.
Defined.

(** ** More on merge *)

Lemma foldl_addNode_wellFormed {B : Type} (l : list B) (s : Graph) :
  wellFormed s →
  let s' := foldl (λ G (_ : B), (addNode G).1) s l in
  wellFormed s'
  ∧ upperNodeIdBound s' = upperNodeIdBound s + length l
  ∧ numberOfNodes s' = numberOfNodes s + length l
  ∧ isWeighted s' = isWeighted s
  ∧ isDirected s' = isDirected s
  ∧ hasEdgeIds s' = hasEdgeIds s
  ∧ (∀ u, outAdj s' u = outAdj s u)
  ∧ (∀ u, inAdj s' u = inAdj s u)
  ∧ (∀ u, hasNode s' u = if decide (u < upperNodeIdBound s) then hasNode s u
                         else bool_decide (u < upperNodeIdBound s + length l)).
Proof.
  revert s. induction l as [|x l IH]; intros s Hwf; cbn [foldl].
  { simpl. split_and!; try done; try lia. intros u. case_decide as Hu; [done|].
    rewrite Nat.add_0_r, bool_decide_eq_false_2 by done.
    unfold hasNode. by rewrite bool_decide_eq_false_2. }
  destruct (IH (addNode s).1 (wellFormed_addNode s Hwf))
    as (Hwf' & Hz & Hn & Hw & Hd & Hi & Ho & Hin & Hnode).
  change (upperNodeIdBound (addNode s).1) with (S (upperNodeIdBound s)) in Hz, Hnode.
  change (numberOfNodes (addNode s).1) with (S (numberOfNodes s)) in Hn.
  destruct Hwf as (Hlen & _).
  split_and!; try done.
  - rewrite Hz. simpl. lia.
  - rewrite Hn. simpl. lia.
  - intros u. by rewrite Ho, outAdj_addNode.
  - intros u. by rewrite Hin, inAdj_addNode.
  - intros u. rewrite Hnode. cbn [length].
    destruct (decide (u < upperNodeIdBound s)) as [Hu|Hu].
    + rewrite decide_True by lia. by apply hasNode_addNode_lt.
    + destruct (decide (u = upperNodeIdBound s)) as [->|Hne].
      * rewrite decide_True by lia. rewrite hasNode_addNode_new by done.
        symmetry. apply bool_decide_eq_true_2. lia.
      * rewrite decide_False by lia. apply bool_decide_ext. lia.
Qed.

(** The first phase of [merge]. *)
Lemma mergeGrow_wellFormed (G G1 : Graph) :
  wellFormed G →
  let s := mergeGrow G G1 in
  wellFormed s
  ∧ upperNodeIdBound s = upperNodeIdBound G `max` upperNodeIdBound G1
  ∧ isDirected s = isDirected G
  ∧ (∀ u, outAdj s u = outAdj G u)
  ∧ (∀ u, inAdj s u = inAdj G u)
  ∧ (∀ u, hasNode s u = if decide (u < upperNodeIdBound G) then hasNode G u
                        else hasNode G1 u).
Proof.
  intros Hwf. unfold mergeGrow. case_bool_decide as Hlt.
  2:{ simpl. split_and!; try done; [lia|]. intros u. case_decide as Hu; [done|].
      unfold hasNode. by rewrite !(bool_decide_eq_false_2 (u < _)) by lia. }
  cbv zeta.
  set (z := upperNodeIdBound G) in *. set (z1 := upperNodeIdBound G1) in *.
  destruct (foldl_addNode_wellFormed (seq z (z1 - z)) G Hwf)
    as (Hwf0 & Hz0 & _ & _ & Hd0 & _ & Ho0 & Hin0 & Hn0).
  rewrite length_seq in Hz0, Hn0. fold z in Hz0, Hn0.
  set (s0 := foldl (λ G (_ : node), (addNode G).1) G (seq z (z1 - z))) in *.
  pose proof Hwf as (_ & Hlo & Hli & _)%wellFormed_pointwise.
  pose proof Hwf as (_ & _ & _ & _ & _ & Hnames & _)%wellFormed_pointwise.
  assert (Hloop : ∀ k, k ≤ z1 - z →
    let s := foldl (λ G i, if negb (hasNode G1 i) then removeNode i G else G)
                   s0 (seq z k) in
    wellFormed s
    ∧ upperNodeIdBound s = z1
    ∧ isDirected s = isDirected G
    ∧ (∀ u, outAdj s u = outAdj G u)
    ∧ (∀ u, inAdj s u = inAdj G u)
    ∧ (∀ u, hasNode s u = if decide (u < z) then hasNode G u
                          else if decide (u < z + k) then hasNode G1 u
                          else bool_decide (u < z1))).
  { induction k as [|k IH]; intros Hk.
    - simpl. split_and!; try done; [lia|]. intros u. rewrite Hn0.
      repeat case_decide; first [done|lia|apply bool_decide_ext; lia].
    - rewrite seq_S, foldl_app. cbn [foldl].
      destruct IH as (Hwfk & Hzk & Hdk & Hok & Hink & Hnk); [lia|].
      destruct (hasNode G1 (z + k)) eqn:H1; cbn [negb].
      + split_and!; try done. intros u. rewrite Hnk.
        destruct (decide (u = z + k)) as [->|Hne].
        * repeat case_decide; try lia.
          rewrite H1. apply bool_decide_eq_true_2. lia.
        * repeat case_decide; try done; lia.
      + split_and!; try done.
        * apply wellFormed_removeNode; try done.
          -- rewrite Hnk, decide_False, decide_False by lia.
             apply bool_decide_eq_true_2. lia.
          -- intros u a. rewrite Hok, Hink. intros Ha%Hnames%hasNode_lt.
             fold z in Ha. lia.
          -- rewrite Hok. apply outAdj_ge. fold z in Hlo. lia.
          -- rewrite Hink. apply inAdj_ge; [fold z in Hlo; lia|].
             fold z in Hli. destruct (isDirected G); lia.
        * intros u. destruct (decide (u = z + k)) as [->|Hne].
          -- rewrite hasNode_removeNode_eq.
             repeat case_decide; try lia. by rewrite H1.
          -- rewrite hasNode_removeNode_ne, Hnk by done.
             repeat case_decide; try done; lia. }
  destruct (Hloop (z1 - z)) as (Hwfs & Hzs & Hds & Hos & Hins & Hns); [done|].
  split_and!; try done; [lia|].
  intros u. rewrite Hns. repeat case_decide; try done; try lia.
  rewrite bool_decide_eq_false_2 by lia. symmetry.
  unfold hasNode. fold z1. by rewrite bool_decide_eq_false_2 by lia.
Qed.

(** The second phase of [merge]. *)
Lemma mergeRestore_wellFormed (s G1 : Graph) :
  wellFormed s →
  let s' := mergeRestore s G1 in
  wellFormed s'
  ∧ upperNodeIdBound s' = upperNodeIdBound s
  ∧ isDirected s' = isDirected s
  ∧ (∀ u, outAdj s' u = outAdj s u)
  ∧ (∀ u, inAdj s' u = inAdj s u)
  ∧ (∀ u, hasNode s' u = if decide (u < upperNodeIdBound s)
                         then hasNode s u || hasNode G1 u else hasNode s u).
Proof.
  intros Hwf. unfold mergeRestore.
  assert (Hloop : ∀ k, k ≤ upperNodeIdBound s →
    let s' := foldl (λ G i, if negb (hasNode G i) && hasNode G1 i
                            then restoreNode i G else G) s (seq 0 k) in
    wellFormed s'
    ∧ upperNodeIdBound s' = upperNodeIdBound s
    ∧ isDirected s' = isDirected s
    ∧ (∀ u, outAdj s' u = outAdj s u)
    ∧ (∀ u, inAdj s' u = inAdj s u)
    ∧ (∀ u, hasNode s' u = if decide (u < k)
                           then hasNode s u || hasNode G1 u else hasNode s u)).
  { induction k as [|k IH]; intros Hk.
    - simpl. split_and!; try done.
    - rewrite seq_S, foldl_app, Nat.add_0_l. cbn [foldl].
      destruct IH as (Hwfk & Hzk & Hdk & Hok & Hink & Hnk); [lia|].
      pose proof (Hnk k) as Hkk. rewrite decide_False in Hkk by lia.
      rewrite Hkk.
      destruct (hasNode s k) eqn:Hs; destruct (hasNode G1 k) eqn:H1; cbn [negb andb].
      + split_and!; try done. intros u. rewrite Hnk.
        destruct (decide (u = k)) as [->|Hne].
        * rewrite decide_False, decide_True by lia. by rewrite Hs.
        * repeat case_decide; try done; lia.
      + split_and!; try done. intros u. rewrite Hnk.
        destruct (decide (u = k)) as [->|Hne].
        * rewrite decide_False, decide_True by lia. by rewrite Hs.
        * repeat case_decide; try done; lia.
      + split_and!; try done.
        * apply wellFormed_restoreNode; [done|lia|done].
        * intros u. destruct (decide (u = k)) as [->|Hne].
          -- rewrite decide_True by lia. rewrite Hs, H1.
             apply hasNode_restoreNode_eq; [|lia]. by destruct Hwfk as (? & _).
          -- rewrite hasNode_restoreNode_ne, Hnk by done.
             repeat case_decide; try done; lia.
      + split_and!; try done. intros u. rewrite Hnk.
        destruct (decide (u = k)) as [->|Hne].
        * rewrite decide_False, decide_True by lia. by rewrite Hs, H1.
        * repeat case_decide; try done; lia. }
  by apply Hloop.
Qed.

Lemma wellFormed_edge_ends (G : Graph) (e : node * node * edgeweight) :
  wellFormed G → e ∈ edges G → hasNode G e.1.1 = true ∧ hasNode G e.1.2 = true.
Proof.
  intros Hwf. destruct e as [[u v] w].
  intros (Hu & a & Ha & _ & -> & _)%elem_of_edges. by apply wellFormed_neighbor.
Qed.

(** [merge] as a whole: the invariant and the nodes. *)
Lemma merge_nodes (G G1 : Graph) :
  wellFormed G → wellFormed G1 →
  wellFormed (merge G G1)
  ∧ upperNodeIdBound (merge G G1) = upperNodeIdBound G `max` upperNodeIdBound G1
  ∧ (∀ u, hasNode (merge G G1) u = hasNode G u || hasNode G1 u)
  ∧ (∀ u, outAdj (mergeRestore (mergeGrow G G1) G1) u = outAdj G u)
  ∧ isDirected (mergeRestore (mergeGrow G G1) G1) = isDirected G.
Proof.
  intros Hwf Hwf1. rewrite merge_phases.
  destruct (mergeGrow_wellFormed G G1 Hwf) as (Hwf' & Hz & Hd & Ho & Hi & Hn).
  destruct (mergeRestore_wellFormed (mergeGrow G G1) G1 Hwf')
    as (Hwf2 & Hz2 & Hd2 & Ho2 & Hi2 & Hn2).
  assert (Hnode : ∀ u, hasNode (mergeRestore (mergeGrow G G1) G1) u
                       = hasNode G u || hasNode G1 u).
  { intros u. rewrite Hn2, Hz, !Hn.
    destruct (decide (u < upperNodeIdBound G)) as [Hu|Hu].
    - by rewrite decide_True by lia.
    - assert (hasNode G u = false) as ->.
      { unfold hasNode. by rewrite bool_decide_eq_false_2. }
      case_decide; [by destruct (hasNode G1 u)|done]. }
  unfold mergeEdges, forEdges.
  destruct (foldl_addEdge_missing (edges G1) (mergeRestore (mergeGrow G G1) G1))
    as (Hz3 & He3 & _).
  split_and!.
  - apply (wellFormed_foldl_addEdge (λ s e, negb (hasEdge s e.1.1 e.1.2))
             (λ e, e.1.1) (λ e, e.1.2) (λ e : node * node * edgeweight, e.2));
      [done|].
    intros e _ He _. rewrite !Hnode.
    destruct (wellFormed_edge_ends G1 e Hwf1 He) as [-> ->].
    by rewrite !orb_true_r.
  - rewrite Hz3, Hz2, Hz. done.
  - intros u. rewrite <-Hnode. by apply hasNode_ext.
  - intros u. by rewrite Ho2, Ho.
  - by rewrite Hd2, Hd.
Qed.

(** [merge] keeps the invariant, and the nodes of the result are the nodes
    of the two graphs: the id bound is the larger of the two bounds, and an
    id is a node of the result exactly if it is a node of the target or of
    the source. *)
Theorem merge_wellFormed_node_union (G G1 : Graph) :
  wellFormed G → wellFormed G1 →
  wellFormed (merge G G1)
  ∧ upperNodeIdBound (merge G G1) = upperNodeIdBound G `max` upperNodeIdBound G1
  ∧ (∀ u, hasNode (merge G G1) u = hasNode G u || hasNode G1 u)
  ∧ numberOfNodes (merge G G1)
    = length (filter (λ u, hasNode G u = true ∨ hasNode G1 u = true)
                     (seq 0 (upperNodeIdBound G `max` upperNodeIdBound G1))).
Proof.
  intros Hwf Hwf1.
  destruct (merge_nodes G G1 Hwf Hwf1) as (Hwfm & Hz & Hn & _).
  split_and!; try done.
  destruct Hwfm as (_ & _ & _ & -> & _). unfold nodes. rewrite Hz. f_equal.
  apply list_filter_iff. intros u. rewrite Hn.
  destruct (hasNode G u), (hasNode G1 u); simpl; intuition congruence.
Qed.

(** The target has the hole 2 and the bound 4; the source is the graph of
    six nodes without edges: the result has the bound 6 and no hole. *)
Lemma merge_wellFormed_node_union_witness :
  let G1 := newGraph 6 true true in
  wellFormed scenarioGraph ∧ wellFormed G1
  ∧ wellFormed (merge scenarioGraph G1)
  ∧ nodes (merge scenarioGraph G1) = [0; 1; 2; 3; 4; 5]
  ∧ numberOfNodes (merge scenarioGraph G1) = 6.
Proof.
  destruct (merge_wellFormed_node_union scenarioGraph (newGraph 6 true true)
              wellFormed_scenarioGraph (wellFormed_newGraph 6 true true))
    as (Hwf & _ & _ & Hn).
  split; [exact wellFormed_scenarioGraph|].
  split; [exact (wellFormed_newGraph 6 true true)|].
  split; [exact Hwf|]. split; [by vm_compute|]. by rewrite Hn.
Defined.

Lemma hasEdge_neighborRange (g : Graph) (u v : node) :
  wellFormed g → hasEdge g u v = true ↔ v ∈ neighborRange g u.
Proof.
  intros Hwf. unfold hasEdge, neighborRange. split.
  - by intros [_ Hin%bool_decide_eq_true]%andb_prop.
  - intros Hin. pose proof Hin as (a & -> & Ha)%list_elem_of_fmap.
    destruct (wellFormed_neighbor g u a Hwf Ha) as [Hu%hasNode_lt Hv%hasNode_lt].
    by rewrite !bool_decide_eq_true_2.
Qed.

Lemma neighborRange_symmetric (g : Graph) (u v : node) :
  wellFormed g → isDirected g = false →
  v ∈ neighborRange g u → u ∈ neighborRange g v.
Proof.
  intros Hwf Hund Hin. unfold neighborRange in *.
  apply dec_stable. intros Hout%adjacencyCount_zero.
  rewrite <-(wellFormed_symmetric g Hwf Hund u v) in Hout.
  by apply adjacencyCount_zero in Hout.
Qed.

(** The neighbours after the edge loop of [merge]: those before it and
    the endpoints of edges of the list. *)
Lemma foldl_addEdge_missing_neighbors (L : list (node * node * edgeweight))
    (s : Graph) (x y : node) :
  y ∈ neighborRange
        (foldl (λ G e, if negb (hasEdge G e.1.1 e.1.2)
                       then addEdge e.1.1 e.1.2 e.2 G else G) s L) x →
  y ∈ neighborRange s x
  ∨ (∃ w, (x, y, w) ∈ L)
  ∨ (isDirected s = false ∧ ∃ w, (y, x, w) ∈ L).
Proof.
  revert s. induction L as [|[[u v] w] L IH]; intros s; cbn [foldl]; [by left|].
  cbn [fst snd].
  assert (Hrest : ∀ s', isDirected s' = isDirected s →
    (y ∈ neighborRange s' x →
     y ∈ neighborRange s x ∨ (x = u ∧ y = v) ∨ (isDirected s = false ∧ x = v ∧ y = u)) →
    y ∈ neighborRange
          (foldl (λ G e, if negb (hasEdge G e.1.1 e.1.2)
                         then addEdge e.1.1 e.1.2 e.2 G else G) s' L) x →
    y ∈ neighborRange s x
    ∨ (∃ w0, (x, y, w0) ∈ (u, v, w) :: L)
    ∨ (isDirected s = false ∧ ∃ w0, (y, x, w0) ∈ (u, v, w) :: L)).
  { intros s' Hd Hstep [Hin|[[w0 Hin]|[Hund [w0 Hin]]]]%IH.
    - destruct (Hstep Hin) as [?|[[-> ->]|(Hund & -> & ->)]]; [by left|..].
      + right. left. exists w. by left.
      + right. right. split; [done|]. exists w. by left.
    - right. left. exists w0. by right.
    - right. right. split; [congruence|]. exists w0. by right. }
  destruct (hasEdge s u v); cbn [negb].
  - apply Hrest; [done|]. by left.
  - apply Hrest; [done|]. unfold neighborRange.
    intros (a & -> & Ha)%list_elem_of_fmap.
    apply elem_of_outAdj_addEdge in Ha as [Ha|[[-> Hv]|(Hund & -> & Hu)]].
    + left. apply list_elem_of_fmap. by exists a.
    + right. left. done.
    + right. right. done.
Qed.

(** The edges after [merge] of two graphs that are both directed or both
    undirected: there is an edge from [u] to [v] in the result exactly if
    there is one in the target or in the source. *)
Theorem merge_edge_union (G G1 : Graph) :
  wellFormed G → wellFormed G1 → isDirected G = isDirected G1 →
  ∀ u v, hasEdge (merge G G1) u v = hasEdge G u v || hasEdge G1 u v.
Proof.
  intros Hwf Hwf1 Hdir u v.
  destruct (merge_nodes G G1 Hwf Hwf1) as (Hwfm & Hz & Hn & Ho & Hd).
  destruct (merge_contains_source G G1 Hwf Hwf1) as (_ & _ & Hsrc).
  assert (Hdm : isDirected (merge G G1) = isDirected G).
  { destruct (extends_merge G G1) as (_ & _ & Hdm & _). exact Hdm. }
  assert (Hiff : hasEdge (merge G G1) u v = true
                 ↔ hasEdge G u v = true ∨ hasEdge G1 u v = true).
  { split.
    - intros Hin%hasEdge_neighborRange; [|done].
      rewrite merge_phases in Hin. unfold mergeEdges, forEdges in Hin.
      apply foldl_addEdge_missing_neighbors in Hin as [Hin|[[w Hin]|[Hund [w Hin]]]].
      + left. apply hasEdge_neighborRange; [done|].
        unfold neighborRange in *. by rewrite Ho in Hin.
      + right. apply hasEdge_neighborRange; [done|].
        apply elem_of_edges in Hin as (_ & a & Ha & _ & -> & _).
        apply list_elem_of_fmap. by exists a.
      + right. apply hasEdge_neighborRange; [done|].
        apply neighborRange_symmetric; [done|congruence|].
        apply elem_of_edges in Hin as (_ & a & Ha & _ & -> & _).
        apply list_elem_of_fmap. by exists a.
    - intros [Hin|Hin].
      + by apply (extends_hasEdge G _ u v (extends_merge G G1)).
      + apply hasEdge_neighborRange in Hin; [|done].
        pose proof Hin as (a & -> & Ha)%list_elem_of_fmap.
        destruct (wellFormed_neighbor G1 u a Hwf1 Ha) as [Hu%hasNode_lt _].
        destruct (useEdgeInIteration G1 u (neighbor a)) eqn:Huse.
        * apply (Hsrc u (neighbor a) (weightIn G1 a)).
          apply elem_of_edges. split; [done|]. by exists a.
        * unfold useEdgeInIteration in Huse.
          apply orb_false_elim in Huse as [Hund Hle%bool_decide_eq_false].
          apply hasEdge_neighborRange; [done|].
          apply neighborRange_symmetric; [done|congruence|].
          apply hasEdge_neighborRange; [done|].
          apply (neighborRange_symmetric G1 _ _ Hwf1 Hund) in Hin.
          apply list_elem_of_fmap in Hin as (b & Hb & Hin).
          pose proof (wellFormed_neighbor G1 _ b Hwf1 Hin) as [Hv%hasNode_lt _].
          apply (Hsrc (neighbor a) u (weightIn G1 b)).
          apply elem_of_edges. split; [done|]. exists b.
          split_and!; [done| |done|done].
          unfold useEdgeInIteration. rewrite Hund, <-Hb. simpl.
          apply bool_decide_eq_true_2. lia. }
  destruct (hasEdge (merge G G1) u v) eqn:Hm.
  - symmetry. apply orb_true_iff. by apply Hiff.
  - symmetry. apply orb_false_iff.
    split; apply not_true_is_false; intros Hc;
      (assert (false = true) by (apply Hiff; auto)); done.
Qed.

(** The target has the edge 0→1; the source adds the edge 1→0. *)
Lemma merge_edge_union_witness :
  let G1 := addEdge 1 0 1%float (newGraph 2 true true) in
  wellFormed scenarioGraph ∧ wellFormed G1
  ∧ isDirected scenarioGraph = isDirected G1
  ∧ hasEdge scenarioGraph 1 0 = false
  ∧ hasEdge (merge scenarioGraph G1) 1 0 = true
  ∧ hasEdge (merge scenarioGraph G1) 0 1 = true
  ∧ hasEdge (merge scenarioGraph G1) 0 3 = false.
Proof.
  assert (Hwf1 : wellFormed (addEdge 1 0 1%float (newGraph 2 true true))).
  { apply wellFormed_addEdge; [apply wellFormed_newGraph|done..]. }
  pose proof (merge_edge_union scenarioGraph _ wellFormed_scenarioGraph Hwf1 eq_refl)
    as Hedge.
  split; [exact wellFormed_scenarioGraph|]. split; [exact Hwf1|].
  split; [reflexivity|]. split; [reflexivity|].
  split; [by rewrite (Hedge 1 0)|]. split; [by rewrite (Hedge 0 1)|].
  by rewrite (Hedge 0 3).
Defined.

(** [merge] with a source that the target contains changes nothing: if the
    id bound of the source is not above the bound of the target and every
    node and every edge of the source is a node or an edge of the target,
    the target stays as it is.  So merging a graph with itself, with the
    copy of its nodes or with the empty graph gives the graph. *)
Theorem merge_absorbs (G G1 : Graph) :
  upperNodeIdBound G1 ≤ upperNodeIdBound G →
  (∀ i, hasNode G1 i = true → hasNode G i = true) →
  (∀ u v w, (u, v, w) ∈ edges G1 → hasEdge G u v = true) →
  merge G G1 = G
  ∧ merge G (copyNodes G) = G
  ∧ merge G (newGraph 0 (isWeighted G) (isDirected G)) = G
  ∧ (wellFormed G → merge G G = G).
Proof.
  intros Hz Hnodes Hedges. split_and!.
  - by apply merge_unchanged.
  - destruct (copyNodes_loop G (upperNodeIdBound G))
      as (_ & HzC & _ & _ & _ & _ & Ho & _ & Hn); [done|].
    fold (copyNodes G) in HzC, Ho, Hn.
    apply merge_unchanged.
    + by rewrite HzC.
    + intros i. rewrite Hn. case_decide as Hi; [done|].
      intros Hlt%bool_decide_eq_true. lia.
    + intros u v w. rewrite (edges_no_adjacency (copyNodes G)) by done.
      by intros ?%elem_of_nil.
  - apply merge_unchanged.
    + simpl. lia.
    + intros i. rewrite hasNode_newGraph. intros Hlt%bool_decide_eq_true. lia.
    + intros u v w. rewrite edges_no_adjacency by (intros x; apply outAdj_newGraph).
      by intros ?%elem_of_nil.
  - intros Hwf. apply merge_unchanged; [done|done|].
    intros u v w (_ & a & Ha & _ & -> & _)%elem_of_edges.
    apply hasEdge_neighborRange; [done|]. apply list_elem_of_fmap. by exists a.
Qed.

(** The scenario graph absorbs the graph of its nodes 0 and 1 with the
    edge 0→1. *)
Lemma merge_absorbs_witness :
  let G1 := addEdge 0 1 1%float (newGraph 2 true true) in
  upperNodeIdBound G1 ≤ upperNodeIdBound scenarioGraph
  ∧ merge scenarioGraph G1 = scenarioGraph
  ∧ merge scenarioGraph scenarioGraph = scenarioGraph.
Proof.
  assert (Hz : upperNodeIdBound (addEdge 0 1 1%float (newGraph 2 true true))
               ≤ upperNodeIdBound scenarioGraph) by (simpl; lia).
  assert (Hnodes : ∀ i, hasNode (addEdge 0 1 1%float (newGraph 2 true true)) i = true →
                        hasNode scenarioGraph i = true).
  { intros i Hi. pose proof (hasNode_lt _ _ Hi) as Hlt. simpl in Hlt.
    destruct i as [|[|i]]; [done|done|lia]. }
  assert (Hedges : ∀ u v w,
    (u, v, w) ∈ edges (addEdge 0 1 1%float (newGraph 2 true true)) →
    hasEdge scenarioGraph u v = true).
  { intros u v w Hin.
    assert (Hlist : edges (addEdge 0 1 1%float (newGraph 2 true true))
                    = [(0, 1, 1%float)]) by reflexivity.
    rewrite Hlist in Hin. apply list_elem_of_singleton in Hin.
    by simplify_eq. }
  destruct (merge_absorbs scenarioGraph _ Hz Hnodes Hedges) as (H1 & _ & _ & H4).
  split; [exact Hz|]. split; [exact H1|]. exact (H4 wellFormed_scenarioGraph).
Defined.

(** ** Append *)

(** The node loop of [append]: every node of the list gets the next new id. *)
Lemma append_node_loop (l : list node) (g : Graph) (m : gmap node node) :
  NoDup l →
  let s := foldl (λ s v, (λ (u : node) '(G, nodeMap),
                            let r := addNode G in (r.1, <[u := r.2]> nodeMap)) v s)
                 (g, m) l in
  s.1 = foldl (λ G (_ : node), (addNode G).1) g l
  ∧ (∀ i u, l !! i = Some u → s.2 !! u = Some (upperNodeIdBound g + i))
  ∧ (∀ u, u ∉ l → s.2 !! u = m !! u).
Proof.
  revert g m. induction l as [|x l IH]; intros g m Hnd; cbn [foldl].
  { split_and!; [done| |done]. intros i u Hi. by rewrite lookup_nil in Hi. }
  apply NoDup_cons in Hnd as [Hx Hnd].
  destruct (IH (addNode g).1 (<[x := upperNodeIdBound g]> m) Hnd) as (H1 & H2 & H3).
  split_and!.
  - exact H1.
  - intros [|i] u Hi.
    + injection Hi as ->. etrans; [apply (H3 u Hx)|].
      rewrite lookup_insert_eq. f_equal. lia.
    + etrans; [apply (H2 i u Hi)|]. simpl. f_equal. lia.
  - intros u Hu%not_elem_of_cons. destruct Hu as [Hne Hu].
    etrans; [apply (H3 u Hu)|]. by rewrite lookup_insert_ne.
Qed.

Lemma nodes_lookup_rank_inv (G : Graph) (i u : node) :
  nodes G !! i = Some u → hasNode G u = true ∧ i = rank G u.
Proof.
  intros Hi. assert (Hu : hasNode G u = true).
  { apply elem_of_nodes. by eapply list_elem_of_lookup_2. }
  split; [done|].
  pose proof (nodes_lookup_rank G u Hu) as Hr.
  by apply (NoDup_lookup _ _ _ _ (nodes_NoDup G) Hi Hr).
Qed.

(** [append] is the graph with the new nodes to which the edges of
    [appendedEdges] are added. *)
Lemma append_unfold (G G1 : Graph) :
  wellFormed G1 →
  append G G1
  = foldl (λ s e, if (λ _ _ : node, true) e.1.1 e.1.2
                  then addEdge e.1.1 e.1.2 e.2 s else s)
          (foldl (λ G (_ : node), (addNode G).1) G (nodes G1))
          (appendedEdges G G1).
Proof.
  intros Hwf1. unfold append, forNodesOf.
  destruct (append_node_loop (nodes G1) G ∅ (nodes_NoDup G1)) as (Hg & Hmap & _).
  set (s := foldl _ (G, ∅) (nodes G1)) in *.
  assert (Hat : ∀ u, hasNode G1 u = true →
                     mapAt s.2 u = upperNodeIdBound G + rank G1 u).
  { intros u Hu. unfold mapAt. by rewrite (Hmap _ u (nodes_lookup_rank G1 u Hu)). }
  assert (Hw : isWeighted s.1 = isWeighted G).
  { rewrite Hg. clear. generalize G. induction (nodes G1) as [|x l IH]; intros g; [done|].
    cbn [foldl]. by rewrite IH. }
  rewrite Hw, <-Hg. unfold appendedEdges, forEdges. rewrite foldl_fmap.
  destruct (isWeighted G); apply foldl_ext_in; intros g e He; cbn [fst snd];
    destruct (wellFormed_edge_ends G1 e Hwf1 He) as [Hu Hv];
    by rewrite (Hat _ Hu), (Hat _ Hv).
Qed.

Lemma rank_mono (G : Graph) (u v : node) : u ≤ v → rank G u ≤ rank G v.
Proof.
  intros Hle. unfold rank. replace v with (u + (v - u)) by lia.
  rewrite seq_app, filter_app, length_app. lia.
Qed.

Lemma foldl_addNode_frame {B : Type} (l : list B) (s : Graph) :
  numberOfEdges (foldl (λ G (_ : B), (addNode G).1) s l) = numberOfEdges s.
Proof. revert s. induction l as [|x l IH]; intros s; [done|]. cbn [foldl]. by rewrite IH. Qed.

(** New nodes add nothing to what the iteration over the edges reports. *)
Lemma edges_foldl_addNode {B : Type} (l : list B) (s : Graph) :
  wellFormed s → edges (foldl (λ G (_ : B), (addNode G).1) s l) = edges s.
Proof.
  intros Hwf.
  destruct (foldl_addNode_wellFormed l s Hwf) as (_ & Hz & _ & Hw & Hd & Hi & Ho & _).
  unfold edges, edgesWithIds. rewrite Hz, seq_app, bind_app. f_equal.
  rewrite (Forall_bind_ext _ (edgesAt s) (seq 0 (upperNodeIdBound s))).
  2:{ apply Forall_forall. intros u _. by apply edgesAt_flags. }
  rewrite <-(app_nil_r (seq 0 _ ≫= edgesAt s)) at 2. f_equal.
  assert (Hnil : ∀ k : list node, Forall (λ u, upperNodeIdBound s ≤ u) k →
    k ≫= edgesAt (foldl (λ G (_ : B), (addNode G).1) s l) = []).
  { intros k. induction 1 as [|x k Hx _ IHk]; [done|].
    rewrite bind_cons, IHk, app_nil_r. unfold edgesAt. rewrite Ho.
    rewrite outAdj_ge; [done|]. destruct Hwf as (_ & -> & _). lia. }
  apply Hnil, Forall_forall. intros u Hu%elem_of_seq. lia.
Qed.

(** A loop that adds edges leaves the adjacency of a node alone that is no
    endpoint of any of them. *)
Lemma foldl_addEdge_untouched (keep : node → node → bool)
    (L : list (node * node * edgeweight)) (s : Graph) (x : node) :
  (∀ e, e ∈ L → e.1.1 ≠ x ∧ e.1.2 ≠ x) →
  let s' := foldl (λ s e, if keep e.1.1 e.1.2 then addEdge e.1.1 e.1.2 e.2 s else s) s L in
  outAdj s' x = outAdj s x ∧ inAdj s' x = inAdj s x.
Proof.
  revert s. induction L as [|e L IH]; intros s HL; cbn [foldl]; [done|].
  destruct (HL e) as [Hu Hv]; [by left|].
  assert (HL' : ∀ e', e' ∈ L → e'.1.1 ≠ x ∧ e'.1.2 ≠ x)
    by (intros e' He'; apply HL; by right).
  destruct (keep e.1.1 e.1.2); [|by apply IH].
  destruct (IH (addEdge e.1.1 e.1.2 e.2 s) HL') as [-> ->].
  split.
  - apply outAdj_addEdge_other; [done|by right].
  - apply inAdj_addEdge_other; [done|by right].
Qed.

Lemma appendedEdges_range (G G1 : Graph) (e : node * node * edgeweight) :
  wellFormed G1 → e ∈ appendedEdges G G1 →
  upperNodeIdBound G ≤ e.1.1 < upperNodeIdBound G + length (nodes G1)
  ∧ upperNodeIdBound G ≤ e.1.2 < upperNodeIdBound G + length (nodes G1)
  ∧ (isDirected G1 = false → e.1.2 ≤ e.1.1)
  ∧ storedWeight G e.2 = e.2.
Proof.
  intros Hwf1 (e' & -> & He')%list_elem_of_fmap. cbn [fst snd].
  destruct (wellFormed_edge_ends G1 e' Hwf1 He') as [Hu Hv].
  pose proof (getContinuousNodeIds_rank_lt G1 _ Hu).
  pose proof (getContinuousNodeIds_rank_lt G1 _ Hv).
  split_and!; try lia.
  - intros Hund. destruct e' as [[u v] w].
    apply edges_reported in He' as (_ & [?|Hle] & _); [congruence|].
    cbn [fst snd]. pose proof (rank_mono G1 v u Hle). lia.
  - unfold storedWeight. by destruct (isWeighted G).
Qed.

(** What [append] builds. *)
Lemma append_core (G G1 : Graph) :
  wellFormed G → wellFormed G1 →
  let A := append G G1 in
  wellFormed A
  ∧ upperNodeIdBound A = upperNodeIdBound G + length (nodes G1)
  ∧ numberOfNodes A = numberOfNodes G + length (nodes G1)
  ∧ (∀ u, hasNode A u = if decide (u < upperNodeIdBound G) then hasNode G u
                        else bool_decide (u < upperNodeIdBound G + length (nodes G1)))
  ∧ isWeighted A = isWeighted G
  ∧ isDirected A = isDirected G
  ∧ numberOfEdges A = numberOfEdges G + length (edges G1)
  ∧ (isDirected G = true ∨ isDirected G1 = false →
     edges A ≡ₚ edges G ++ appendedEdges G G1).
Proof.
  intros Hwf Hwf1 A. unfold A. rewrite (append_unfold G G1 Hwf1).
  destruct (foldl_addNode_wellFormed (nodes G1) G Hwf)
    as (Hwf0 & Hz0 & Hn0 & Hw0 & Hd0 & Hi0 & Ho0 & Hin0 & Hnode0).
  set (s0 := foldl (λ G (_ : node), (addNode G).1) G (nodes G1)) in *.
  destruct (foldl_addEdge_frame (λ _ _ _ _, true) (appendedEdges G G1) s0)
    as (Hz & Hw & Hd & Hi & He & Hn & Hl).
  split_and!.
  - apply (wellFormed_foldl_addEdge (λ _ _, true) (λ e, e.1.1) (λ e, e.1.2)
             (λ e : node * node * edgeweight, e.2)); [done|].
    intros e _ He' _.
    destruct (appendedEdges_range G G1 e Hwf1 He') as (Hu & Hv & _).
    rewrite !Hnode0, !decide_False by lia.
    split; apply bool_decide_eq_true_2; lia.
  - etrans; [exact Hz|]. exact Hz0.
  - etrans; [exact Hn|]. exact Hn0.
  - intros u. etrans; [|apply Hnode0]. by apply hasNode_ext.
  - etrans; [exact Hw|]. exact Hw0.
  - etrans; [exact Hd|]. exact Hd0.
  - etrans; [apply (numberOfEdges_foldl_addEdge (λ _, true) (λ e, e.1.1) (λ e, e.1.2)
                      (λ e : node * node * edgeweight, e.2))|].
    unfold s0. rewrite foldl_addNode_frame, filter_all by done.
    unfold appendedEdges. by rewrite length_fmap.
  - intros Hdir.
    etrans; [apply (edges_foldl_addEdge (λ _ _, true))|].
    + by destruct Hwf0 as (_ & ? & _).
    + intros u v w He'.
      destruct (appendedEdges_range G G1 _ Hwf1 He') as (Hu & Hv & Hle & Hst).
      cbn [fst snd] in *. split_and!.
      * rewrite Hz0. lia.
      * rewrite Hd0. destruct Hdir as [?|Hund]; [by left|right; by apply Hle].
      * unfold storedWeight in *. by rewrite Hw0.
    + unfold s0. rewrite edges_foldl_addNode, filter_all by done. done.
Qed.

(** [append] grows the target by one node for every node of the source:
    the ids and the adjacency that the target had stay as they are, the new
    ids follow the old bound and are all nodes (the holes of the source are
    not copied), the counters go up by the nodes and by the edges of the
    source, and the result is well-formed.  If the target is directed or the
    source undirected, the edges of the result are those of the target and,
    between the new ids, those of the source.  A source without nodes leaves
    the target as it is. *)
Theorem append_grows_target (G G1 : Graph) :
  wellFormed G → wellFormed G1 →
  let A := append G G1 in
  wellFormed A
  ∧ upperNodeIdBound A = upperNodeIdBound G + numberOfNodes G1
  ∧ numberOfNodes A = numberOfNodes G + numberOfNodes G1
  ∧ (∀ u, hasNode A u = if decide (u < upperNodeIdBound G) then hasNode G u
                        else bool_decide (u < upperNodeIdBound G + numberOfNodes G1))
  ∧ (∀ u, u < upperNodeIdBound G → outAdj A u = outAdj G u ∧ inAdj A u = inAdj G u)
  ∧ isWeighted A = isWeighted G
  ∧ isDirected A = isDirected G
  ∧ numberOfEdges A = numberOfEdges G + length (edges G1)
  ∧ (isDirected G = true ∨ isDirected G1 = false →
     edges A ≡ₚ edges G ++ appendedEdges G G1)
  ∧ (numberOfNodes G1 = 0 → A = G).
Proof.
  intros Hwf Hwf1 A.
  destruct (append_core G G1 Hwf Hwf1) as (HwfA & Hz & Hn & Hnode & Hw & Hd & Hm & Hedges).
  fold A in HwfA, Hz, Hn, Hnode, Hw, Hd, Hm, Hedges.
  assert (Hn1 : numberOfNodes G1 = length (nodes G1)) by (by destruct Hwf1 as (_ & _ & _ & ? & _)).
  rewrite Hn1.
  split_and!; try done.
  - intros u Hu. unfold A. rewrite (append_unfold G G1 Hwf1).
    destruct (foldl_addNode_wellFormed (nodes G1) G Hwf)
      as (_ & _ & _ & _ & _ & _ & Ho0 & Hin0 & _).
    destruct (foldl_addEdge_untouched (λ _ _, true) (appendedEdges G G1)
                (foldl (λ G (_ : node), (addNode G).1) G (nodes G1)) u) as [Ho Hin].
    { intros e He'. destruct (appendedEdges_range G G1 e Hwf1 He') as (? & ? & _). lia. }
    split; [etrans; [exact Ho|apply Ho0]|etrans; [exact Hin|apply Hin0]].
  - intros Hnone. apply nil_length_inv in Hnone.
    assert (Hnoedges : edges G1 = []).
    { apply edges_no_adjacency. intros u. apply wellFormed_hole_out; [done|].
      apply not_true_is_false. intros Hu%elem_of_nodes.
      rewrite Hnone in Hu. by apply elem_of_nil in Hu. }
    unfold A. rewrite (append_unfold G G1 Hwf1).
    unfold appendedEdges. by rewrite Hnone, Hnoedges.
Qed.

(** The scenario graph (bound 4, hole 2) appended to itself as a copy: the
    three nodes become the new ids 4, 5, 6 and the three edges run between
    them. *)
Lemma append_grows_target_witness :
  let A := append scenarioGraph scenarioGraph in
  wellFormed scenarioGraph
  ∧ wellFormed A
  ∧ nodes A = [0; 1; 3; 4; 5; 6]
  ∧ upperNodeIdBound A = 7
  ∧ edges A ≡ₚ [(0, 1, 1%float); (1, 3, 1%float); (3, 0, 2.5%float);
                (4, 5, 1%float); (5, 6, 1%float); (6, 4, 2.5%float)].
Proof.
  destruct (append_grows_target scenarioGraph scenarioGraph
              wellFormed_scenarioGraph wellFormed_scenarioGraph)
    as (Hwf & Hz & _ & _ & _ & _ & _ & _ & Hedges & _).
  split; [exact wellFormed_scenarioGraph|]. split; [exact Hwf|].
  split; [by vm_compute|]. split; [by rewrite Hz|].
  rewrite Hedges by (by left). reflexivity.
Defined.

Lemma foldl_addNode_newGraph {B : Type} (l : list B) (k : count) (weighted directed : bool) :
  foldl (λ G (_ : B), (addNode G).1) (newGraph k weighted directed) l
  = newGraph (k + length l) weighted directed.
Proof.
  revert k. induction l as [|x l IH]; intros k; cbn [foldl].
  { simpl. by rewrite Nat.add_0_r. }
  assert (Hstep : (addNode (newGraph k weighted directed)).1
                  = newGraph (S k) weighted directed).
  { unfold addNode, newGraph. graph_simpl. rewrite !replicate_S_end.
    by destruct directed. }
  rewrite Hstep, IH. f_equal. simpl. lia.
Qed.

Lemma getCompactedGraph_append (G : Graph) :
  wellFormed G →
  getCompactedGraph G (getContinuousNodeIds G)
  = append (newGraph 0 (isWeighted G) (isDirected G)) G.
Proof.
  intros Hwf. rewrite (append_unfold _ G Hwf), foldl_addNode_newGraph.
  unfold getCompactedGraph, getRemappedGraph, forEdges, appendedEdges.
  rewrite foldl_fmap, getContinuousNodeIds_size. simpl.
  apply foldl_ext_in. intros s [[u v] w] He. cbn [fst snd].
  destruct (wellFormed_edge_ends G _ Hwf He) as [Hu Hv]. cbn [fst snd] in Hu, Hv.
  rewrite !getContinuousNodeIds_rank by done. simpl.
  apply edges_reported in He as (_ & _ & Hst). unfold storedWeight in Hst.
  destruct (isWeighted G); [done|]. by rewrite Hst.
Qed.



(** ** The compacted graph *)

Lemma getCompactedGraph_edges (G : Graph) :
  wellFormed G →
  edges (getCompactedGraph G (getContinuousNodeIds G))
  ≡ₚ (λ e, (rank G e.1.1, rank G e.1.2, e.2)) <$> edges G.
Proof.
  intros Hwf.
  destruct (append_core (newGraph 0 (isWeighted G) (isDirected G)) G
              (wellFormed_newGraph 0 _ _) Hwf) as (_ & _ & _ & _ & _ & _ & _ & Hedges).
  rewrite <-(getCompactedGraph_append G Hwf) in Hedges.
  rewrite Hedges by (simpl; destruct (isDirected G); auto).
  rewrite (edges_no_adjacency (newGraph 0 _ _)) by (intros u; apply outAdj_newGraph).
  unfold appendedEdges. simpl.
  assert (Heq : ∀ L : list (node * node * edgeweight),
    (∀ e, e ∈ L → storedWeight G e.2 = e.2) →
    (λ e : node * node * edgeweight,
       (rank G e.1.1, rank G e.1.2, if isWeighted G then e.2 else defaultEdgeWeight))
      <$> L
    = (λ e, (rank G e.1.1, rank G e.1.2, e.2)) <$> L).
  { intros L HL. apply list_fmap_ext. intros i e He%list_elem_of_lookup_2.
    specialize (HL e He). unfold storedWeight in HL.
    destruct (isWeighted G); [done|]. by rewrite HL. }
  rewrite Heq; [done|]. intros [[u v] w] He.
  by apply edges_reported in He as (_ & _ & Hst).
Qed.

(** [getCompactedGraph] with the continuous node ids: the result has no
    hole, its id bound and its node count are the node count of the graph,
    it is well-formed, and its edges are the edges of the graph between the
    dense ids of their endpoints, with their weights; two nodes are joined
    in the graph exactly if their dense ids are joined in the result. *)
Theorem getCompactedGraph_dense (G : Graph) :
  wellFormed G →
  let Gc := getCompactedGraph G (getContinuousNodeIds G) in
  wellFormed Gc
  ∧ upperNodeIdBound Gc = numberOfNodes G
  ∧ numberOfNodes Gc = numberOfNodes G
  ∧ (∀ c, hasNode Gc c = bool_decide (c < numberOfNodes G))
  ∧ isWeighted Gc = isWeighted G
  ∧ isDirected Gc = isDirected G
  ∧ numberOfEdges Gc = length (edges G)
  ∧ edges Gc ≡ₚ (λ e, (rank G e.1.1, rank G e.1.2, e.2)) <$> edges G
  ∧ (∀ u v, hasNode G u = true → hasNode G v = true →
            adjacencyCount Gc (rank G u) (rank G v) = adjacencyCount G u v)
  ∧ (∀ u v, hasNode G u = true → hasNode G v = true →
            hasEdge Gc (rank G u) (rank G v) = hasEdge G u v).
Proof.
  intros Hwf Gc.
  destruct (append_core (newGraph 0 (isWeighted G) (isDirected G)) G
              (wellFormed_newGraph 0 _ _) Hwf)
    as (Hwfc & Hz & Hn & Hnode & Hw & Hd & Hm & Hedges).
  rewrite <-(getCompactedGraph_append G Hwf) in Hwfc, Hz, Hn, Hnode, Hw, Hd, Hm, Hedges.
  fold Gc in Hwfc, Hz, Hn, Hnode, Hw, Hd, Hm, Hedges.
  assert (Hlen : numberOfNodes G = length (nodes G)) by (by destruct Hwf as (_ & _ & _ & ? & _)).
  rewrite Hlen.
  destruct (getCompactedGraph_count G Hwf) as (_ & _ & Hcount & _).
  fold Gc in Hcount.
  split_and!; [exact Hwfc|exact Hz|exact Hn| |exact Hw|exact Hd|exact Hm| |exact Hcount|].
  - intros c. rewrite Hnode. done.
  - by apply getCompactedGraph_edges.
  - intros u v Hu Hv.
    pose proof (Hcount u v Hu Hv) as Hc.
    pose proof (adjacencyCount_zero Gc (rank G u) (rank G v)) as H1.
    pose proof (adjacencyCount_zero G u v) as H2.
    pose proof (hasEdge_neighborRange Gc (rank G u) (rank G v) Hwfc) as H3.
    pose proof (hasEdge_neighborRange G u v Hwf) as H4.
    unfold neighborRange in *.
    destruct (hasEdge Gc (rank G u) (rank G v)) eqn:Hc1;
      destruct (hasEdge G u v) eqn:Hc2; try done.
    + exfalso. assert (Hin : rank G v ∈ neighbor <$> outAdj Gc (rank G u)) by (by apply H3).
      assert (Hout : v ∉ neighbor <$> outAdj G u).
      { intros Hin'. apply H4 in Hin'. done. }
      apply H2 in Hout. rewrite Hout in Hc. apply H1 in Hc. done.
    + exfalso. assert (Hin : v ∈ neighbor <$> outAdj G u) by (by apply H4).
      assert (Hout : rank G v ∉ neighbor <$> outAdj Gc (rank G u)).
      { intros Hin'. apply H3 in Hin'. done. }
      apply H1 in Hout. rewrite Hout in Hc. symmetry in Hc. apply H2 in Hc. done.
Qed.

(** The scenario graph: the nodes 0, 1, 3 get the dense ids 0, 1, 2. *)
Lemma getCompactedGraph_dense_witness :
  let Gc := getCompactedGraph scenarioGraph (getContinuousNodeIds scenarioGraph) in
  wellFormed scenarioGraph
  ∧ wellFormed Gc
  ∧ nodes Gc = [0; 1; 2]
  ∧ upperNodeIdBound Gc = 3
  ∧ hasEdge Gc 2 0 = true ∧ hasEdge Gc 0 2 = false.
Proof.
  destruct (getCompactedGraph_dense scenarioGraph wellFormed_scenarioGraph)
    as (Hwf & Hz & _).
  split; [exact wellFormed_scenarioGraph|]. split; [exact Hwf|].
  split; [by vm_compute|]. split; [by rewrite Hz|]. split; reflexivity.
Defined.

(** ** Random continuous node ids *)

Lemma foldl_snoc {A : Type} (l acc : list A) :
  foldl (λ s v, s ++ [v]) acc l = acc ++ l.
Proof.
  revert acc. induction l as [|x l IH]; intros acc; cbn [foldl].
  - by rewrite app_nil_r.
  - by rewrite IH, <-app_assoc.
Qed.

Lemma getRandomContinuousNodeIds_lookup (shuffle : list node → list node) (G : Graph) :
  shuffle (nodes G) ≡ₚ nodes G →
  size (getRandomContinuousNodeIds shuffle G) = length (nodes G)
  ∧ ∀ v i, getRandomContinuousNodeIds shuffle G !! v = Some i
           ↔ shuffle (nodes G) !! i = Some v.
Proof.
  intros Hperm.
  assert (Hnd : NoDup (shuffle (nodes G))) by (rewrite Hperm; apply nodes_NoDup).
  destruct (foldl_mapInsert (shuffle (nodes G)) ∅ 0 Hnd) as (_ & Hsz & Hlk); [done|].
  assert (Hfold : getRandomContinuousNodeIds shuffle G
    = (foldl (λ s v, (λ '(nodeIdMap, continuousId),
                        (mapInsert v continuousId nodeIdMap, S continuousId)) s)
             (∅, 0) (shuffle (nodes G))).1).
  { unfold getRandomContinuousNodeIds, forNodesOf. rewrite foldl_snoc. cbn [app].
    f_equal. apply foldl_ext_in. by intros [m c] v _. }
  rewrite Hfold. split.
  - rewrite Hsz, map_size_empty. simpl. by rewrite Hperm.
  - intros v i. rewrite Hlk, lookup_empty. split.
    + intros [?|(j & Hj & ->)]; [done|]. done.
    + intros Hi. right. by exists i.
Qed.

Lemma getRandomContinuousNodeIds_inverted (shuffle : list node → list node) (G : Graph) :
  wellFormed G → shuffle (nodes G) ≡ₚ nodes G →
  invertContinuousNodeIds (getRandomContinuousNodeIds shuffle G) G
  = shuffle (nodes G) ++ [upperNodeIdBound G].
Proof.
  intros Hwf Hperm.
  assert (Hn : numberOfNodes G = length (nodes G)) by (by destruct Hwf as (_ & _ & _ & ? & _)).
  destruct (getRandomContinuousNodeIds_lookup shuffle G Hperm) as [Hsz Hlk].
  assert (Hlen : length (shuffle (nodes G)) = numberOfNodes G) by (by rewrite Hperm).
  destruct (invertContinuousNodeIds_spec (getRandomContinuousNodeIds shuffle G) G)
    as (Hl & Hlast & Hinv).
  { intros v i Hv%Hlk. rewrite <-Hlen. by eapply lookup_lt_Some. }
  { intros u v i Hu%Hlk Hv%Hlk. congruence. }
  apply list_eq. intros i. destruct (decide (i < numberOfNodes G)) as [Hi|Hi].
  - rewrite lookup_app_l by lia.
    destruct (lookup_lt_is_Some_2 (shuffle (nodes G)) i) as [v Hv]; [lia|].
    rewrite Hv. apply Hinv. by apply Hlk.
  - destruct (decide (i = numberOfNodes G)) as [->|Hne].
    + rewrite Hlast, lookup_app_r by lia. by rewrite Hlen, Nat.sub_diag.
    + rewrite !lookup_ge_None_2; [done|..].
      * rewrite length_app. simpl. lia.
      * lia.
Qed.

(** [getRandomContinuousNodeIds], whatever rearrangement of the nodes the
    shuffle makes: the map has one entry for every node, it takes the nodes
    one-to-one onto the ids below the node count, the node at place [i] of
    the shuffled vector gets the id [i], and [invertContinuousNodeIds] gives
    the shuffled vector followed by the id bound.  If the shuffle leaves
    the vector as it is, the map is that of [getContinuousNodeIds]. *)
Theorem getRandomContinuousNodeIds_bijection (shuffle : list node → list node)
    (G : Graph) :
  wellFormed G → shuffle (nodes G) ≡ₚ nodes G →
  let nodeIdMap := getRandomContinuousNodeIds shuffle G in
  size nodeIdMap = numberOfNodes G
  ∧ (∀ v i, nodeIdMap !! v = Some i ↔ shuffle (nodes G) !! i = Some v)
  ∧ (∀ v, hasNode G v = true ↔ is_Some (nodeIdMap !! v))
  ∧ (∀ v i, nodeIdMap !! v = Some i → i < numberOfNodes G)
  ∧ (∀ i, i < numberOfNodes G → ∃ v, nodeIdMap !! v = Some i)
  ∧ (∀ u v i, nodeIdMap !! u = Some i → nodeIdMap !! v = Some i → u = v)
  ∧ invertContinuousNodeIds nodeIdMap G = shuffle (nodes G) ++ [upperNodeIdBound G]
  ∧ (shuffle (nodes G) = nodes G → nodeIdMap = getContinuousNodeIds G).
Proof.
  intros Hwf Hperm nodeIdMap.
  assert (Hn : numberOfNodes G = length (nodes G)) by (by destruct Hwf as (_ & _ & _ & ? & _)).
  destruct (getRandomContinuousNodeIds_lookup shuffle G Hperm) as [Hsz Hlk].
  fold nodeIdMap in Hsz, Hlk.
  assert (Hlen : length (shuffle (nodes G)) = numberOfNodes G) by (by rewrite Hperm).
  assert (Hlt : ∀ v i, nodeIdMap !! v = Some i → i < numberOfNodes G).
  { intros v i Hv%Hlk. rewrite <-Hlen. by eapply lookup_lt_Some. }
  assert (Hinj : ∀ u v i, nodeIdMap !! u = Some i → nodeIdMap !! v = Some i → u = v).
  { intros u v i Hu%Hlk Hv%Hlk. congruence. }
  split_and!; try done.
  - by rewrite Hsz.
  - intros v. rewrite <-elem_of_nodes, <-Hperm, list_elem_of_lookup. split.
    + intros [i Hi]. exists i. by apply Hlk.
    + intros [i Hi]. exists i. by apply Hlk.
  - intros i Hi. destruct (lookup_lt_is_Some_2 (shuffle (nodes G)) i) as [v Hv]; [lia|].
    exists v. by apply Hlk.
  - by apply getRandomContinuousNodeIds_inverted.
  - intros Hid. apply map_eq. intros v. apply option_eq. intros i.
    rewrite Hlk, Hid. symmetry. apply getContinuousNodeIds_lookup.
Qed.

(** The scenario graph with the shuffle that reverses the vector: the nodes
    3, 1, 0 get the ids 0, 1, 2. *)
Lemma getRandomContinuousNodeIds_bijection_witness :
  wellFormed scenarioGraph
  ∧ reverse (nodes scenarioGraph) ≡ₚ nodes scenarioGraph
  ∧ getRandomContinuousNodeIds reverse scenarioGraph = {[3 := 0; 1 := 1; 0 := 2]}
  ∧ invertContinuousNodeIds (getRandomContinuousNodeIds reverse scenarioGraph) scenarioGraph
    = [3; 1; 0; 4].
Proof.
  destruct (getRandomContinuousNodeIds_bijection reverse scenarioGraph
              wellFormed_scenarioGraph (reverse_Permutation _))
    as (_ & _ & _ & _ & _ & _ & Hinv & _).
  split; [exact wellFormed_scenarioGraph|].
  split; [apply reverse_Permutation|].
  split; [by vm_compute|]. by rewrite Hinv.
Defined.

(** ** Restoring with node ids that are not in ascending order *)

Lemma foldl_nodes_frame {B : Type} (f : Graph → B → Graph) (l : list B) (s : Graph) :
  (∀ s x, upperNodeIdBound (f s x) = upperNodeIdBound s ∧ exists_ (f s x) = exists_ s) →
  upperNodeIdBound (foldl f s l) = upperNodeIdBound s
  ∧ exists_ (foldl f s l) = exists_ s.
Proof.
  intros Hf. revert s. induction l as [|x l IH]; intros s; [done|]. cbn [foldl].
  destruct (IH (f s x)) as [-> ->]. apply Hf.
Qed.

(** The nodes that the loop of [restoreGraph] keeps, for an inverted map
    that lists distinct ids below the bound [z] and ends with [z]: the loop
    has matched the first [current] entries, which are in ascending order. *)
Lemma restore_nodes_loop (perm : list node) (z : node) (Gc : Graph)
    (weighted directed : bool) (k : node) :
  NoDup perm → (∀ x, x ∈ perm → x < z) → k ≤ z →
  let s := foldl (restoreStep (perm ++ [z]) Gc) (newGraph z weighted directed, 0)
                 (seq 0 k) in
  upperNodeIdBound s.1 = z
  ∧ s.2 ≤ length perm
  ∧ StronglySorted lt (take s.2 perm)
  ∧ (∀ x, x ∈ take s.2 perm → x < k)
  ∧ (StronglySorted lt perm → ∀ x, x ∈ perm → x < k → x ∈ take s.2 perm)
  ∧ (∀ u, u < z → hasNode s.1 u = if decide (u < k) then bool_decide (u ∈ take s.2 perm)
                                  else true).
Proof.
  intros Hnd Hlt. induction k as [|k IH]; intros Hk.
  - cbn [seq foldl fst snd]. split_and!; try done.
    + lia.
    + rewrite take_0. constructor.
    + rewrite take_0. by intros x ?%elem_of_nil.
    + intros _ x _ ?. lia.
    + intros u Hu. rewrite decide_False by lia. rewrite hasNode_newGraph.
      by apply bool_decide_eq_true_2.
  - rewrite seq_S, foldl_app, Nat.add_0_l. cbn [foldl].
    destruct IH as (Hz & Hc & Hsort & Hbelow & Hall & Hnode); [lia|].
    destruct (foldl (restoreStep (perm ++ [z]) Gc) (newGraph z weighted directed, 0)
                (seq 0 k)) as [R c] eqn:Hs.
    cbn [fst snd] in *. unfold restoreStep. cbn [fst snd].
    assert (Hhere : hasNode R k = true) by (rewrite Hnode by lia; by rewrite decide_False by lia).
    rewrite Hhere. case_bool_decide as Hmatch.
    + assert (c < length perm ∧ perm !! c = Some k) as [Hcn Hpc].
      { destruct (decide (c < length perm)) as [Hcn|Hcn].
        - split; [done|]. rewrite lookup_total_app_l in Hmatch by done.
          destruct (lookup_lt_is_Some_2 perm c Hcn) as [x Hx].
          by rewrite (list_lookup_total_correct _ _ _ Hx) in Hmatch; subst.
        - exfalso. assert (c = length perm) as -> by lia.
          rewrite (list_lookup_total_correct _ _ z) in Hmatch by (by apply list_lookup_middle).
          lia. }
      unfold forNeighborsOf, forEdgesOf.
      destruct (foldl_nodes_frame
                  (λ s a, addEdge k ((perm ++ [z]) !!! neighbor a) defaultEdgeWeight s)
                  (outAdj Gc c) R) as [Hz' He']; [by intros s x|].
      cbn [fst snd]. rewrite (take_S_r _ _ _ Hpc).
      split_and!.
      * by rewrite Hz'.
      * lia.
      * apply StronglySorted_app_2; [|done|repeat constructor].
        intros x1 x2 Hx1%Hbelow Hx2%list_elem_of_singleton. by subst.
      * intros x [Hx%Hbelow|Hx%list_elem_of_singleton]%elem_of_app; lia.
      * intros Hs' x Hx Hxk. apply elem_of_app.
        destruct (decide (x = k)) as [->|Hne]; [right; by left|].
        left. apply Hall; [done|done|lia].
      * intros u Hu. rewrite (hasNode_ext R _ u Hz' He'), Hnode by done.
        destruct (decide (u = k)) as [->|Hne].
        -- rewrite decide_False, decide_True by lia. symmetry.
           apply bool_decide_eq_true_2, elem_of_app. right. by left.
        -- destruct (decide (u < k)) as [Huk|Huk].
           ++ rewrite decide_True by lia.
              apply bool_decide_ext. rewrite elem_of_app, list_elem_of_singleton. tauto.
           ++ by rewrite decide_False by lia.
    + cbn [fst snd]. split_and!; try done.
      * intros x Hx%Hbelow. lia.
      * intros Hs' x Hx Hxk.
        destruct (decide (x = k)) as [->|Hne]; [|apply Hall; [done|done|lia]].
        exfalso. apply list_elem_of_lookup in Hx as [j Hj].
        destruct (decide (j < c)) as [Hjc|Hjc].
        { assert (Hin : k ∈ take c perm).
          { apply list_elem_of_lookup. exists j. by rewrite lookup_take_lt. }
          apply Hbelow in Hin. lia. }
        destruct (decide (j = c)) as [->|Hjne].
        { apply Hmatch. apply list_lookup_total_correct. by apply lookup_app_l_Some. }
        assert (Hcn : c < length perm) by (apply lookup_lt_Some in Hj; lia).
        destruct (lookup_lt_is_Some_2 perm c Hcn) as [y Hy].
        assert (Hyk : y < k).
        { apply (StronglySorted_lookup lt perm c j y k Hs'); [done|done|lia]. }
        assert (Hin : y ∈ take c perm).
        { apply Hall; [done| |done]. by eapply list_elem_of_lookup_2. }
        apply list_elem_of_lookup in Hin as [i Hi].
        pose proof (lookup_lt_Some _ _ _ Hi) as Hic. rewrite length_take in Hic.
        rewrite lookup_take_lt in Hi by lia.
        pose proof (NoDup_lookup _ _ _ _ Hnd Hi Hy). lia.
      * intros u Hu. destruct (decide (u = k)) as [->|Hne].
        -- rewrite hasNode_removeNode_eq, decide_True by lia. symmetry.
           apply bool_decide_eq_false_2. intros Hin%Hbelow. lia.
        -- rewrite hasNode_removeNode_ne, Hnode by done.
           destruct (decide (u < k)) as [Huk|Huk].
           ++ by rewrite decide_True by lia.
           ++ by rewrite decide_False by lia.
Qed.

(** [restoreGraph] with the inverted map of random continuous node ids,
    for any graph in the place of the compacted graph: the restored graph
    has the id bound of the graph and no node that the graph does not have,
    but it has all nodes of the graph only if the shuffle left the vector of
    nodes in ascending order.  The loop matches the entries of the inverted
    map against the ids in ascending order and turns every id into a hole
    that is not the next entry. *)
Theorem restoreGraph_needs_ascending_ids (shuffle : list node → list node)
    (G Gc : Graph) :
  wellFormed G → shuffle (nodes G) ≡ₚ nodes G →
  let invertedIdMap := invertContinuousNodeIds (getRandomContinuousNodeIds shuffle G) G in
  let restored := restoreGraph invertedIdMap Gc in
  upperNodeIdBound restored = upperNodeIdBound G
  ∧ (∀ u, hasNode restored u = true → hasNode G u = true)
  ∧ ((∀ u, hasNode restored u = hasNode G u) ↔ shuffle (nodes G) = nodes G).
Proof.
  intros Hwf Hperm invertedIdMap restored.
  set (perm := shuffle (nodes G)) in *. set (z := upperNodeIdBound G).
  assert (Hinv : invertedIdMap = perm ++ [z])
    by (by apply getRandomContinuousNodeIds_inverted).
  assert (Hnd : NoDup perm) by (rewrite Hperm; apply nodes_NoDup).
  assert (Hlt : ∀ x, x ∈ perm → x < z).
  { intros x. rewrite Hperm. intros Hx%elem_of_nodes. by apply hasNode_lt. }
  destruct (restore_nodes_loop perm z Gc (isWeighted Gc) (isDirected Gc) z Hnd Hlt)
    as (Hz & Hc & Hsort & Hbelow & Hall & Hnode); [done|].
  assert (Hres : restored
    = (foldl (restoreStep (perm ++ [z]) Gc)
             (newGraph z (isWeighted Gc) (isDirected Gc), 0) (seq 0 z)).1).
  { unfold restored, restoreGraph. rewrite Hinv, last_last. reflexivity. }
  set (s := foldl (restoreStep (perm ++ [z]) Gc)
                  (newGraph z (isWeighted Gc) (isDirected Gc), 0) (seq 0 z)) in *.
  assert (Hhas : ∀ u, hasNode restored u = true ↔ u ∈ take s.2 perm).
  { intros u. rewrite Hres. split.
    - intros Hu. pose proof (hasNode_lt _ _ Hu) as Hlt'. rewrite Hz in Hlt'.
      rewrite Hnode, decide_True in Hu by done. by apply bool_decide_eq_true in Hu.
    - intros Hu. pose proof (Hbelow u Hu).
      rewrite Hnode, decide_True by done. by apply bool_decide_eq_true_2. }
  assert (Htake : ∀ u, u ∈ take s.2 perm → u ∈ perm).
  { intros u (i & Hi & _)%elem_of_take. by eapply list_elem_of_lookup_2. }
  split_and!.
  - by rewrite Hres.
  - intros u Hu%Hhas%Htake. apply elem_of_nodes. by rewrite <-Hperm.
  - split.
    + intros Hsame.
      assert (Hsub : nodes G ⊆+ take s.2 perm).
      { apply NoDup_submseteq; [apply nodes_NoDup|].
        intros v Hv%elem_of_nodes. apply Hhas. by rewrite Hsame. }
      apply submseteq_length in Hsub. rewrite length_take in Hsub.
      assert (Hlen : length perm = length (nodes G)) by (by rewrite Hperm).
      assert (Hfull : take s.2 perm = perm) by (apply take_ge; lia).
      rewrite Hfull in Hsort.
      apply (StronglySorted_unique_strong lt); [|done|apply nodes_sorted|done].
      intros x1 x2 _ _ ? ?. lia.
    + intros Hid u.
      assert (Hs : StronglySorted lt perm) by (rewrite Hid; apply nodes_sorted).
      destruct (hasNode G u) eqn:Hu.
      * apply Hhas. apply Hall; [done| |].
        -- rewrite Hid. by apply elem_of_nodes.
        -- by apply hasNode_lt.
      * apply not_true_is_false. intros Hr%Hhas%Htake.
        rewrite Hid in Hr. apply elem_of_nodes in Hr. congruence.
Qed.

(** The scenario graph with the shuffle that reverses the vector of nodes:
    the inverted map is [3; 1; 0; 4], and restoring the compacted graph
    leaves the node 3 only. *)
Lemma restoreGraph_needs_ascending_ids_witness :
  let nodeIdMap := getRandomContinuousNodeIds reverse scenarioGraph in
  let restored :=
    restoreGraph (invertContinuousNodeIds nodeIdMap scenarioGraph)
                 (getCompactedGraph scenarioGraph nodeIdMap) in
  wellFormed scenarioGraph
  ∧ reverse (nodes scenarioGraph) ≡ₚ nodes scenarioGraph
  ∧ nodes scenarioGraph = [0; 1; 3]
  ∧ nodes restored = [3]
  ∧ ¬ (∀ u, hasNode restored u = hasNode scenarioGraph u).
Proof.
  destruct (restoreGraph_needs_ascending_ids reverse scenarioGraph
              (getCompactedGraph scenarioGraph
                 (getRandomContinuousNodeIds reverse scenarioGraph))
              wellFormed_scenarioGraph (reverse_Permutation _))
    as (_ & _ & Hiff).
  split; [exact wellFormed_scenarioGraph|].
  split; [apply reverse_Permutation|].
  split; [reflexivity|]. split; [by vm_compute|].
  intros Hsame. apply Hiff in Hsame. by vm_compute in Hsame.
Defined.

(** ** Compacting a graph without holes *)

Lemma filter_length_all {A : Type} (P : A → Prop) `{!∀ x, Decision (P x)} (l : list A) :
  length (filter P l) = length l → filter P l = l.
Proof.
  induction l as [|x l IH]; [done|]. rewrite filter_cons.
  pose proof (length_filter P l) as Hle.
  destruct (decide (P x)); simpl; intros Hlen; [f_equal; apply IH; lia|lia].
Qed.

(** In a graph without holes every node is its own dense id:
    [getContinuousNodeIds] is the identity on the ids below the bound, the
    inverted map lists the ids, and the compacted graph has the edges of the
    graph. *)
Theorem getContinuousNodeIds_without_holes (G : Graph) :
  wellFormed G → numberOfNodes G = upperNodeIdBound G →
  let nodeIdMap := getContinuousNodeIds G in
  (∀ u, nodeIdMap !! u = if decide (u < upperNodeIdBound G) then Some u else None)
  ∧ invertContinuousNodeIds nodeIdMap G
    = seq 0 (upperNodeIdBound G) ++ [upperNodeIdBound G]
  ∧ edges (getCompactedGraph G nodeIdMap) ≡ₚ edges G
  ∧ (∀ u v, adjacencyCount (getCompactedGraph G nodeIdMap) u v = adjacencyCount G u v).
Proof.
  intros Hwf Hfull nodeIdMap.
  assert (Hnodes : nodes G = seq 0 (upperNodeIdBound G)).
  { unfold nodes. apply filter_length_all. rewrite length_seq.
    destruct Hwf as (_ & _ & _ & Hn & _). unfold nodes in Hn. lia. }
  assert (Hall : ∀ u, u < upperNodeIdBound G → hasNode G u = true).
  { intros u Hu. apply elem_of_nodes. rewrite Hnodes. apply elem_of_seq. lia. }
  assert (Hrank : ∀ u, hasNode G u = true → rank G u = u).
  { intros u Hu. pose proof (nodes_lookup_rank G u Hu) as Hr.
    rewrite Hnodes in Hr. apply lookup_seq in Hr. lia. }
  split_and!.
  - intros u. apply option_eq. intros i. unfold nodeIdMap.
    rewrite getContinuousNodeIds_lookup, Hnodes, lookup_seq.
    case_decide as Hu; split.
    + intros [-> _]. done.
    + intros [= ->]. split; [done|lia].
    + intros [-> ?]. simpl in Hu. lia.
    + done.
  - unfold nodeIdMap. by rewrite invertContinuousNodeIds_nodes, Hnodes.
  - unfold nodeIdMap. rewrite getCompactedGraph_edges by done.
    assert (Hid : (λ e : node * node * edgeweight, (rank G e.1.1, rank G e.1.2, e.2))
                    <$> edges G = id <$> edges G).
    { apply list_fmap_ext. intros i e He%list_elem_of_lookup_2.
      destruct (wellFormed_edge_ends G e Hwf He) as [Hu Hv].
      rewrite (Hrank _ Hu), (Hrank _ Hv). by destruct e as [[? ?] ?]. }
    by rewrite Hid, list_fmap_id.
  - intros u v. unfold nodeIdMap.
    destruct (getCompactedGraph_count G Hwf) as (_ & _ & Hcount & Hnb).
    destruct (hasNode G u) eqn:Hu; [destruct (hasNode G v) eqn:Hv|].
    + rewrite <-(Hrank u Hu), <-(Hrank v Hv) at 1. by apply Hcount.
    + rewrite (adjacencyCount_hole G u v) by (done || by right).
      apply adjacencyCount_zero. intros (a & -> & Ha)%list_elem_of_fmap.
      destruct (Hnb u a Ha) as (x & Hx & Hax). rewrite (Hrank x Hx) in Hax. congruence.
    + rewrite (adjacencyCount_hole G u v) by (done || by left).
      destruct (decide (u < upperNodeIdBound G)) as [Hlt|Hge];
        [by rewrite (Hall u Hlt) in Hu|].
      destruct (append_core (newGraph 0 (isWeighted G) (isDirected G)) G
                  (wellFormed_newGraph 0 _ _) Hwf) as (Hwfc & Hz & _).
      rewrite <-(getCompactedGraph_append G Hwf) in Hwfc, Hz.
      unfold adjacencyCount. rewrite outAdj_ge; [done|].
      destruct Hwfc as (_ & -> & _). rewrite Hz, Hnodes, length_seq. simpl. lia.
Qed.

(** The graph of three nodes with the edge 1→0: the ids stay as they are. *)
Lemma getContinuousNodeIds_without_holes_witness :
  let G := addEdge 1 0 2.5%float (newGraph 3 true true) in
  wellFormed G ∧ numberOfNodes G = upperNodeIdBound G
  ∧ getContinuousNodeIds G !! 2 = Some 2
  ∧ invertContinuousNodeIds (getContinuousNodeIds G) G = [0; 1; 2; 3]
  ∧ edges (getCompactedGraph G (getContinuousNodeIds G)) ≡ₚ [(1, 0, 2.5%float)].
Proof.
  assert (Hwf : wellFormed (addEdge 1 0 2.5%float (newGraph 3 true true))).
  { apply wellFormed_addEdge; [apply wellFormed_newGraph|done..]. }
  destruct (getContinuousNodeIds_without_holes _ Hwf eq_refl) as (Hid & Hinv & Hedges & _).
  split; [exact Hwf|]. split; [reflexivity|].
  split; [by rewrite (Hid 2)|]. split; [by rewrite Hinv|]. by rewrite Hedges.
Defined.

(** ** The adjacency of the subgraph *)

Lemma foldl_filter {A B : Type} (keep : B → bool) (f : A → B → A) (l : list B) (a : A) :
  foldl (λ s e, if keep e then f s e else s) a l
  = foldl f a (filter (λ e, keep e = true) l).
Proof.
  revert a. induction l as [|x l IH]; intros a; [done|]. cbn [foldl].
  rewrite filter_cons. destruct (keep x) eqn:Hk.
  - rewrite decide_True by done. cbn [foldl]. apply IH.
  - rewrite decide_False by done. apply IH.
Qed.

Lemma callsCount_filter {B : Type} (src tgt : B → node) (keep : node → node → bool)
    (L : list B) (u v : node) :
  callsCount src tgt (filter (λ e, keep (src e) (tgt e) = true) L) u v
  = if keep u v then callsCount src tgt L u v else 0.
Proof.
  unfold callsCount. rewrite list_filter_filter.
  destruct (keep u v) eqn:Hk.
  - f_equal. apply list_filter_iff. intros e. split; [tauto|].
    intros [-> ->]. done.
  - rewrite filter_none; [done|]. intros e _ [[-> ->] Hke]. congruence.
Qed.

(** How often a node names another, from what the iteration over the
    edges reports. *)
Lemma adjacencyCount_from_edges (G : Graph) (u v : node) :
  wellFormed G →
  adjacencyCount G u v
  = callsCount (λ e : node * node * edgeweight, e.1.1) (λ e, e.1.2) (edges G) u v
    + (if isDirected G then 0
       else if decide (u = v) then 0
       else callsCount (λ e : node * node * edgeweight, e.1.1) (λ e, e.1.2) (edges G) v u).
Proof.
  intros Hwf.
  rewrite !callsCount_edges by (destruct Hwf as (_ & -> & _); lia).
  unfold useEdgeInIteration.
  destruct (isDirected G) eqn:Hdir; simpl; [lia|].
  pose proof (wellFormed_symmetric G Hwf Hdir u v) as Hsym.
  destruct (decide (u = v)) as [->|Hne].
  - rewrite bool_decide_eq_true_2 by lia. lia.
  - destruct (decide (v ≤ u)) as [Hle|Hgt].
    + rewrite (bool_decide_eq_true_2 (v ≤ u)), (bool_decide_eq_false_2 (u ≤ v)) by lia. lia.
    + rewrite (bool_decide_eq_false_2 (v ≤ u)), (bool_decide_eq_true_2 (u ≤ v)) by lia. lia.
Qed.

Lemma keepsEdge_comm (relevance : node → nat) (u v : node) :
  keepsEdge relevance u v = keepsEdge relevance v u.
Proof. unfold keepsEdge. apply bool_decide_ext. lia. Qed.

Lemma adjacencyCount_subgraphFromNodes (G : Graph) (nodes : gset node)
    (includeOutNeighbors includeInNeighbors : bool) (u v : node) :
  wellFormed G →
  adjacencyCount (subgraphFromNodes G nodes includeOutNeighbors includeInNeighbors) u v
  = if keepsEdge (isRelevantNode nodes
                    (subgraphNeighbors G nodes includeOutNeighbors includeInNeighbors)) u v
    then adjacencyCount G u v else 0.
Proof.
  intros Hwf. rewrite subgraphFromNodes_unfold.
  set (relevance := isRelevantNode nodes
         (subgraphNeighbors G nodes includeOutNeighbors includeInNeighbors)).
  rewrite (foldl_filter (λ e : node * node * edgeweight, keepsEdge relevance e.1.1 e.1.2)
             (λ s e, addEdge e.1.1 e.1.2 e.2 s)).
  destruct (foldl_addEdge_count (λ e : node * node * edgeweight, e.1.1) (λ e, e.1.2)
              (λ e, e.2)
              (filter (λ e, keepsEdge relevance e.1.1 e.1.2 = true) (edges G))
              (subgraphNodesOnly G relevance)) as (_ & _ & _ & _ & _ & Hcount).
  { intros [[a b] w] [_ He]%list_elem_of_filter.
    destruct (wellFormed_edges_in_range G a b w Hwf He).
    unfold subgraphNodesOnly. graph_simpl. by rewrite length_replicate. }
  rewrite Hcount.
  rewrite !(callsCount_filter (λ e : node * node * edgeweight, e.1.1) (λ e, e.1.2)
              (keepsEdge relevance)).
  unfold adjacencyCount at 1. rewrite outAdj_subgraphNodesOnly. simpl.
  change (isDirected (subgraphNodesOnly G relevance)) with (isDirected G).
  rewrite (keepsEdge_comm relevance v u), (adjacencyCount_from_edges G u v Hwf).
  destruct (keepsEdge relevance u v); [done|].
  destruct (isDirected G); [done|]. by case_decide.
Qed.

(** The adjacency of [subgraphFromNodes] of a well-formed graph: a node
    names another as often as in the graph if the relevance scores of the
    two add up to more than 2, and not at all otherwise.  So two nodes of the
    set are joined as in the graph, and with the respective flag a node of
    the set keeps all its out-neighbours, and all edges from its
    in-neighbours. *)
Theorem subgraphFromNodes_adjacency (G : Graph) (nodes : gset node)
    (includeOutNeighbors includeInNeighbors : bool) :
  wellFormed G →
  let S := subgraphFromNodes G nodes includeOutNeighbors includeInNeighbors in
  let relevance :=
    isRelevantNode nodes
      (subgraphNeighbors G nodes includeOutNeighbors includeInNeighbors) in
  (∀ u v, adjacencyCount S u v
          = if keepsEdge relevance u v then adjacencyCount G u v else 0)
  ∧ (∀ u v, u ∈ nodes → v ∈ nodes → adjacencyCount S u v = adjacencyCount G u v)
  ∧ (includeOutNeighbors = true →
     ∀ u v, u ∈ nodes → adjacencyCount S u v = adjacencyCount G u v)
  ∧ (includeInNeighbors = true →
     ∀ u v, u ∈ nodes → v ∈ inNeighborRange G u →
            adjacencyCount S v u = adjacencyCount G v u).
Proof.
  intros Hwf S relevance.
  assert (Hcount : ∀ u v, adjacencyCount S u v
                          = if keepsEdge relevance u v then adjacencyCount G u v else 0).
  { intros u v. by apply adjacencyCount_subgraphFromNodes. }
  assert (Hseed : ∀ u, u ∈ nodes → relevance u = 2).
  { intros u Hu.
    destruct (isRelevantNode_cases G nodes includeOutNeighbors includeInNeighbors u)
      as [[Hr _]|[[_ [Hn _]]|[_ [Hn _]]]]; [exact Hr|by destruct Hn..]. }
  assert (Hnb : ∀ v, v ∈ subgraphNeighbors G nodes includeOutNeighbors includeInNeighbors →
                     1 ≤ relevance v).
  { intros v Hv.
    destruct (isRelevantNode_cases G nodes includeOutNeighbors includeInNeighbors v)
      as [[Hr _]|[[Hr _]|[_ [_ Hn]]]]; [| |done].
    - fold relevance in Hr. lia.
    - fold relevance in Hr. lia. }
  split_and!.
  - exact Hcount.
  - intros u v Hu Hv. rewrite Hcount. unfold keepsEdge.
    rewrite (Hseed u Hu), (Hseed v Hv). by rewrite bool_decide_eq_true_2 by lia.
  - intros Hout u v Hu. rewrite Hcount.
    destruct (decide (adjacencyCount G u v = 0)) as [Hz|Hnz].
    { rewrite Hz. by destruct (keepsEdge relevance u v). }
    apply adjacencyCount_entry in Hnz as (a & Ha & <-).
    unfold keepsEdge. rewrite (Hseed u Hu), bool_decide_eq_true_2; [done|].
    assert (1 ≤ relevance (neighbor a)); [|lia].
    apply Hnb, elem_of_subgraphNeighbors. exists u. split; [done|]. left.
    split; [done|]. apply list_elem_of_fmap. by exists a.
  - intros Hin u v Hu Hv. rewrite Hcount.
    unfold keepsEdge. rewrite (Hseed u Hu), bool_decide_eq_true_2; [done|].
    assert (1 ≤ relevance v); [|lia].
    apply Hnb, elem_of_subgraphNeighbors. exists u. split; [done|]. by right.
Qed.

(** The scenario graph with the node set {0} and its out-neighbours: the
    edge 0→1 stays, the edge 1→3 between two nodes outside the set goes. *)
Lemma subgraphFromNodes_adjacency_witness :
  let S := subgraphFromNodes scenarioGraph {[0]} true false in
  wellFormed scenarioGraph
  ∧ adjacencyCount S 0 1 = 1
  ∧ adjacencyCount scenarioGraph 1 3 = 1
  ∧ adjacencyCount S 1 3 = 0.
Proof.
  destruct (subgraphFromNodes_adjacency scenarioGraph {[0]} true false
              wellFormed_scenarioGraph) as (Hcount & _ & Hout & _).
  split; [exact wellFormed_scenarioGraph|].
  split; [rewrite (Hout eq_refl 0 1); [reflexivity|by apply elem_of_singleton]|].
  split; [reflexivity|]. rewrite (Hcount 1 3). by vm_compute.
Defined.

(** ** The maximum degree of the results *)

Lemma max_list_with_ext_in {A : Type} (f g : A → nat) (l : list A) :
  (∀ x, x ∈ l → f x = g x) → max_list_with f l = max_list_with g l.
Proof.
  induction l as [|x l IH]; intros Hl; [done|]. simpl.
  rewrite (Hl x) by (by left). rewrite IH; [done|]. intros y Hy. apply Hl. by right.
Qed.

Lemma max_list_with_le_app {A : Type} (f g : A → nat) (l k : list A) :
  (∀ x, x ∈ l → f x ≤ g x) → max_list_with f l ≤ max_list_with g (l ++ k).
Proof.
  induction l as [|x l IH]; intros Hl; simpl; [lia|].
  pose proof (Hl x ltac:(by left)).
  assert (max_list_with f l ≤ max_list_with g (l ++ k))
    by (apply IH; intros y Hy; apply Hl; by right).
  lia.
Qed.

Lemma computeMaxDegree_extends (G s : Graph) (inDegree : bool) :
  extends G s → computeMaxDegree G inDegree ≤ computeMaxDegree s inDegree.
Proof.
  intros (Hz & _ & _ & _ & _ & Ho & Hi). rewrite !computeMaxDegree_max_list.
  replace (upperNodeIdBound s)
    with (upperNodeIdBound G + (upperNodeIdBound s - upperNodeIdBound G)) by lia.
  rewrite seq_app. apply max_list_with_le_app. intros u _.
  destruct inDegree; unfold degreeIn, degreeOut; by apply prefix_length.
Qed.

(** [transpose] exchanges the two maximum degrees. *)
Theorem transpose_exchanges_max_degree (G : Graph) :
  wellFormed G → isDirected G = true →
  ∃ GTranspose,
    transpose G = Returns GTranspose
    ∧ maxDegree GTranspose = maxInDegree G
    ∧ maxInDegree GTranspose = maxDegree G.
Proof.
  intros Hwf Hdir. exists (transposeResult G).
  split; [by apply transpose_returns|].
  unfold maxDegree, maxInDegree. rewrite !computeMaxDegree_max_list.
  change (upperNodeIdBound (transposeResult G)) with (upperNodeIdBound G).
  split; apply max_list_with_ext_in; intros u _; unfold degreeOut, degreeIn.
  - rewrite outAdj_transposeResult. destruct (hasNode G u) eqn:Hu.
    + by rewrite length_fmap.
    + by rewrite (wellFormed_hole_in G u Hwf Hu).
  - rewrite inAdj_transposeResult. destruct (hasNode G u) eqn:Hu.
    + by rewrite length_fmap.
    + by rewrite (wellFormed_hole_out G u Hwf Hu).
Qed.

Lemma transpose_exchanges_max_degree_witness :
  let G := addEdge 0 2 1%float (addEdge 0 1 1%float (newGraph 3 false true)) in
  wellFormed G ∧ isDirected G = true
  ∧ maxDegree G = 2 ∧ maxInDegree G = 1
  ∧ ∃ GTranspose,
      transpose G = Returns GTranspose
      ∧ maxDegree GTranspose = 1 ∧ maxInDegree GTranspose = 2.
Proof.
  assert (Hwf : wellFormed (addEdge 0 2 1%float (addEdge 0 1 1%float (newGraph 3 false true)))).
  { apply wellFormed_addEdge; [|done..].
    apply wellFormed_addEdge; [apply wellFormed_newGraph|done..]. }
  destruct (transpose_exchanges_max_degree _ Hwf eq_refl) as (GT & Hret & Hout & Hin).
  split; [exact Hwf|]. split; [reflexivity|]. split; [reflexivity|].
  split; [reflexivity|]. exists GT. split; [exact Hret|].
  split; [by rewrite Hout|by rewrite Hin].
Defined.

(** The maximum degrees after [merge], [append] and [copyNodes]: merging
    and appending never lower the maximum degree of the target, and the copy
    of the nodes has maximum degree 0. *)
Theorem computeMaxDegree_of_combined (G G1 : Graph) (inDegree : bool) :
  computeMaxDegree G inDegree ≤ computeMaxDegree (merge G G1) inDegree
  ∧ computeMaxDegree (copyNodes G) inDegree = 0
  ∧ (wellFormed G → wellFormed G1 →
     computeMaxDegree G inDegree ≤ computeMaxDegree (append G G1) inDegree).
Proof.
  split_and!.
  - apply computeMaxDegree_extends, extends_merge.
  - rewrite computeMaxDegree_max_list.
    destruct (copyNodes_loop G (upperNodeIdBound G)) as (_ & _ & _ & _ & _ & _ & Ho & Hi & _);
      [done|].
    fold (copyNodes G) in Ho, Hi.
    induction (seq 0 (upperNodeIdBound (copyNodes G))) as [|u l IH]; [done|].
    simpl. rewrite IH. destruct inDegree; unfold degreeIn, degreeOut; by rewrite ?Ho, ?Hi.
  - intros Hwf Hwf1. rewrite (append_unfold G G1 Hwf1).
    apply computeMaxDegree_extends.
    apply extends_foldl.
    + intros s e _ Hs. cbn beta iota.
      eapply extends_trans; [exact Hs|apply extends_addEdge].
    + apply extends_foldl; [|apply extends_refl].
      intros s x _ Hs. eapply extends_trans; [exact Hs|apply extends_addNode].
Qed.

(** ** The aggregate counters *)

Lemma foldl_preserves {A B : Type} (I : A → Prop) (f : A → B → A) (l : list B) (a : A) :
  (∀ a x, I a → I (f a x)) → I a → I (foldl f a l).
Proof.
  intros Hf. revert a. induction l as [|x l IH]; intros a Ha; [done|].
  cbn [foldl]. by apply IH, Hf.
Qed.

(** What the iteration over the edges reports depends on the adjacency,
    the flags and the ids that have adjacency only. *)
Lemma edges_same_adjacency (G s : Graph) :
  length (outEdges G) ≤ upperNodeIdBound G →
  upperNodeIdBound G ≤ upperNodeIdBound s →
  isDirected s = isDirected G → isWeighted s = isWeighted G →
  hasEdgeIds s = hasEdgeIds G →
  (∀ u, outAdj s u = outAdj G u) →
  edges s = edges G.
Proof.
  intros Hlen Hz Hd Hw Hi Ho. unfold edges, edgesWithIds. f_equal.
  replace (upperNodeIdBound s)
    with (upperNodeIdBound G + (upperNodeIdBound s - upperNodeIdBound G)) by lia.
  rewrite seq_app, bind_app.
  rewrite (Forall_bind_ext _ (edgesAt G) (seq 0 (upperNodeIdBound G))).
  2:{ apply Forall_forall. intros u _. by apply edgesAt_flags. }
  rewrite <-(app_nil_r (seq 0 _ ≫= edgesAt G)) at 2. f_equal.
  assert (Hnil : ∀ k : list node, Forall (λ u, upperNodeIdBound G ≤ u) k →
    k ≫= edgesAt s = []).
  { intros k. induction 1 as [|x k Hx _ IHk]; [done|].
    rewrite bind_cons, IHk, app_nil_r. unfold edgesAt. rewrite Ho.
    by rewrite outAdj_ge by lia. }
  apply Hnil, Forall_forall. intros u Hu%elem_of_seq. lia.
Qed.

Lemma countersConsistent_addEdge (g : Graph) (u v : node) (w : edgeweight) :
  length (outEdges g) = upperNodeIdBound g → u < upperNodeIdBound g →
  (isDirected g = true ∨ v ≤ u) →
  countersConsistent g → countersConsistent (addEdge u v w g).
Proof.
  intros Hlen Hu Hdir [Hm Hl]. pose proof (edges_addEdge g u v w Hlen Hu Hdir) as Hperm.
  unfold countersConsistent. rewrite Hperm, filter_app, !length_app, <-Hm, <-Hl.
  unfold addEdge. graph_simpl. split; [simpl; lia|].
  rewrite filter_cons, filter_nil. cbn [fst snd].
  case_bool_decide; case_decide; simpl; try lia; done.
Qed.

(** A loop that adds edges keeps the counters consistent, if every edge is
    given from a source below the bound and, for an undirected graph, from
    the endpoint with the larger id. *)
Lemma countersConsistent_foldl_addEdge {B : Type} (keep : Graph → B → bool)
    (src tgt : B → node) (wt : B → edgeweight) (L : list B) (s : Graph) :
  length (outEdges s) = upperNodeIdBound s →
  (∀ e, e ∈ L → src e < upperNodeIdBound s ∧ (isDirected s = true ∨ tgt e ≤ src e)) →
  countersConsistent s →
  countersConsistent
    (foldl (λ s e, if keep s e then addEdge (src e) (tgt e) (wt e) s else s) s L).
Proof.
  revert s. induction L as [|e L IH]; intros s Hlen HL Hc; [done|]. cbn [foldl].
  destruct (HL e) as [Hu Hdir]; [by left|].
  assert (HL' : ∀ e', e' ∈ L →
    src e' < upperNodeIdBound s ∧ (isDirected s = true ∨ tgt e' ≤ src e'))
    by (intros e' He'; apply HL; by right).
  destruct (keep s e); [|by apply IH].
  pose proof (addEdge_frame s (src e) (tgt e) (wt e)) as (Hz & _ & Hd & _ & _ & _ & Hl).
  apply IH.
  - by rewrite Hl, Hz.
  - intros e' He'. rewrite Hz, Hd. by apply HL'.
  - by apply countersConsistent_addEdge.
Qed.

Lemma countersConsistent_no_adjacency (g : Graph) :
  (∀ u, outAdj g u = []) → numberOfEdges g = 0 → numberOfSelfLoops g = 0 →
  countersConsistent g.
Proof.
  intros Ho Hm Hl. unfold countersConsistent.
  by rewrite (edges_no_adjacency g Ho), Hm, Hl.
Qed.

(** The node phases of [merge] leave the counters and the flags alone. *)
Lemma merge_node_phases_frame (G G1 : Graph) :
  let s := mergeRestore (mergeGrow G G1) G1 in
  numberOfEdges s = numberOfEdges G
  ∧ numberOfSelfLoops s = numberOfSelfLoops G
  ∧ isWeighted s = isWeighted G
  ∧ hasEdgeIds s = hasEdgeIds G.
Proof.
  set (I := λ s : Graph,
    numberOfEdges s = numberOfEdges G ∧ numberOfSelfLoops s = numberOfSelfLoops G
    ∧ isWeighted s = isWeighted G ∧ hasEdgeIds s = hasEdgeIds G).
  assert (Hgrow : I (mergeGrow G G1)).
  { unfold mergeGrow. case_bool_decide; [|done]. cbv zeta.
    apply (foldl_preserves I).
    - intros s i Hs. by destruct (negb (hasNode G1 i)).
    - apply (foldl_preserves I); [|done]. by intros s i Hs. }
  unfold mergeRestore. apply (foldl_preserves I); [|done].
  intros s i Hs. by destruct (negb (hasNode s i) && hasNode G1 i).
Qed.

(** The counters stay consistent: if the edge count and the self-loop
    count of the target are those of its edges, so are those of the result of
    [merge] and of [append], provided the target is directed or the source
    undirected; the counters of [subgraphFromNodes], [copyNodes] and
    [getCompactedGraph] are those of their edges in any case. *)
Theorem counters_stay_consistent (G G1 : Graph) (nodeSet : gset node)
    (includeOutNeighbors includeInNeighbors : bool) :
  wellFormed G → wellFormed G1 →
  countersConsistent (subgraphFromNodes G nodeSet includeOutNeighbors includeInNeighbors)
  ∧ countersConsistent (copyNodes G)
  ∧ countersConsistent (getCompactedGraph G (getContinuousNodeIds G))
  ∧ (countersConsistent G → isDirected G = true ∨ isDirected G1 = false →
     countersConsistent (merge G G1) ∧ countersConsistent (append G G1)).
Proof.
  intros Hwf Hwf1.
  assert (Happend : ∀ T S : Graph, wellFormed T → wellFormed S → countersConsistent T →
    isDirected T = true ∨ isDirected S = false → countersConsistent (append T S)).
  { intros T S HwfT HwfS [Hm Hl] Hdir. rewrite (append_unfold T S HwfS).
    destruct (foldl_addNode_wellFormed (nodes S) T HwfT)
      as (Hwf0 & Hz0 & _ & Hw0 & Hd0 & Hi0 & Ho0 & _).
    apply (countersConsistent_foldl_addEdge (λ _ e, (λ _ _ : node, true) e.1.1 e.1.2)
             (λ e, e.1.1) (λ e, e.1.2) (λ e : node * node * edgeweight, e.2)).
    - by destruct Hwf0 as (_ & ? & _).
    - intros e He. destruct (appendedEdges_range T S e HwfS He) as (Hu & _ & Hle & _).
      rewrite Hz0, Hd0. split; [lia|].
      destruct Hdir as [?|Hund]; [by left|right; by apply Hle].
    - unfold countersConsistent.
      rewrite (edges_foldl_addNode (nodes S) T HwfT), foldl_addNode_frame, <-Hm, <-Hl.
      split; [done|].
      apply (foldl_preserves (λ s, numberOfSelfLoops s = numberOfSelfLoops T)); done. }
  split_and!.
  - rewrite subgraphFromNodes_unfold.
    apply (countersConsistent_foldl_addEdge
             (λ _ e, keepsEdge (isRelevantNode nodeSet
                (subgraphNeighbors G nodeSet includeOutNeighbors includeInNeighbors))
                e.1.1 e.1.2)
             (λ e, e.1.1) (λ e, e.1.2) (λ e : node * node * edgeweight, e.2)).
    + unfold subgraphNodesOnly. graph_simpl. apply length_replicate.
    + intros [[u v] w] He. by apply edges_reported in He as (? & ? & _).
    + apply countersConsistent_no_adjacency; [|done..].
      intros u. apply outAdj_subgraphNodesOnly.
  - destruct (copyNodes_loop G (upperNodeIdBound G))
      as (_ & _ & _ & _ & _ & Hm & Ho & _); [done|].
    apply countersConsistent_no_adjacency; [exact Ho|exact Hm|].
    unfold copyNodes. apply (foldl_preserves (λ s, numberOfSelfLoops s = 0)); [|done].
    intros s u Hs. by destruct (negb (hasNode G u)).
  - rewrite (getCompactedGraph_append G Hwf).
    apply Happend; [apply wellFormed_newGraph|done| |].
    + apply countersConsistent_no_adjacency; [|done..].
      intros u. apply outAdj_newGraph.
    + simpl. destruct (isDirected G); auto.
  - intros Hc Hdir. split; [|by apply Happend].
    destruct (mergeGrow_wellFormed G G1 Hwf) as (Hwf' & Hz & Hd & Ho & _).
    destruct (mergeRestore_wellFormed (mergeGrow G G1) G1 Hwf')
      as (Hwf2 & Hz2 & Hd2 & Ho2 & _).
    destruct (merge_node_phases_frame G G1) as (Hm & Hl & Hw & Hi).
    rewrite merge_phases. unfold mergeEdges, forEdges.
    apply (countersConsistent_foldl_addEdge (λ s e, negb (hasEdge s e.1.1 e.1.2))
             (λ e, e.1.1) (λ e, e.1.2) (λ e : node * node * edgeweight, e.2)).
    + by destruct Hwf2 as (_ & ? & _).
    + intros [[u v] w] He. rewrite Hz2, Hz, Hd2, Hd. cbn [fst snd].
      apply edges_reported in He as (Hu & Hor & _). split; [lia|].
      destruct Hdir as [?|Hund]; [by left|]. destruct Hor; [congruence|by right].
    + destruct Hc as [Hcm Hcl]. unfold countersConsistent.
      rewrite (edges_same_adjacency G (mergeRestore (mergeGrow G G1) G1)), Hm, Hl;
        [done| | |congruence|done|done|].
      * destruct Hwf as (_ & -> & _). lia.
      * rewrite Hz2, Hz. lia.
      * intros u. by rewrite Ho2, Ho.
Qed.

(** The scenario graph, whose counters are those of its three edges, and
    the graph of six nodes with the edge 5→5. *)
Lemma counters_stay_consistent_witness :
  let G1 := addEdge 5 5 1%float (newGraph 6 true true) in
  wellFormed scenarioGraph ∧ wellFormed G1
  ∧ countersConsistent scenarioGraph
  ∧ countersConsistent (merge scenarioGraph G1)
  ∧ numberOfEdges (merge scenarioGraph G1) = 4
  ∧ numberOfSelfLoops (merge scenarioGraph G1) = 1.
Proof.
  assert (Hwf1 : wellFormed (addEdge 5 5 1%float (newGraph 6 true true))).
  { apply wellFormed_addEdge; [apply wellFormed_newGraph|done..]. }
  assert (Hc : countersConsistent scenarioGraph) by (split; reflexivity).
  destruct (counters_stay_consistent scenarioGraph _ ∅ false false
              wellFormed_scenarioGraph Hwf1) as (_ & _ & _ & Hmerge).
  destruct (Hmerge Hc (or_introl eq_refl)) as [Hm _].
  split; [exact wellFormed_scenarioGraph|]. split; [exact Hwf1|].
  split; [exact Hc|]. split; [exact Hm|]. split; reflexivity.
Defined.

(** ** Transpose, edge by edge *)

Lemma count_fmap_neighbor {A : Type} (h : A → Adj) (l : list A) (v : node) :
  length (filter (λ a, neighbor a = v) (h <$> l))
  = length (filter (λ x, neighbor (h x) = v) l).
Proof.
  induction l as [|x l IH]; [done|].
  rewrite fmap_cons, !filter_cons. case_decide; simpl; by rewrite IH.
Qed.

Lemma mirrored_newGraph (n : count) (weighted directed : bool) :
  mirrored (newGraph n weighted directed).
Proof.
  intros u v. unfold inAdjacencyCount. by rewrite adjacencyCount_newGraph, inAdj_newGraph.
Qed.

Lemma mirrored_removeNode (g : Graph) (v : node) : mirrored g → mirrored (removeNode v g).
Proof. intros Hm x y. apply (Hm x y). Qed.

(** [addEdge] between ids that have adjacency keeps a directed graph
    mirrored. *)
Lemma mirrored_addEdge (g : Graph) (a b : node) (w : edgeweight) :
  isDirected g = true → a < length (outEdges g) → b < length (inEdges g) →
  mirrored g → mirrored (addEdge a b w g).
Proof.
  intros Hd Ha Hb Hm u v.
  assert (Hout : adjacencyCount (addEdge a b w g) u v
                 = adjacencyCount g u v + (if decide (u = a ∧ v = b) then 1 else 0)).
  { unfold adjacencyCount. destruct (decide (u = a)) as [->|Hne].
    - rewrite outAdj_addEdge_source, filter_app, length_app by done.
      rewrite filter_cons, filter_nil. simpl.
      repeat case_decide; simpl; try lia; exfalso; intuition congruence.
    - rewrite outAdj_addEdge_other by (done || by left).
      rewrite decide_False by (intros [? _]; done). lia. }
  assert (Hin : inAdjacencyCount (addEdge a b w g) v u
                = inAdjacencyCount g v u + (if decide (u = a ∧ v = b) then 1 else 0)).
  { unfold inAdjacencyCount. destruct (decide (v = b)) as [->|Hne].
    - unfold inAdj. change (isDirected (addEdge a b w g)) with (isDirected g).
      rewrite Hd. unfold addEdge. graph_simpl. rewrite Hd.
      rewrite lookup_pushBack_eq, filter_app, length_app by done.
      rewrite filter_cons, filter_nil. simpl.
      repeat case_decide; simpl; try lia; exfalso; intuition congruence.
    - rewrite inAdj_addEdge_other by (done || by left).
      rewrite decide_False by (intros [_ ?]; done). lia. }
  rewrite Hout, Hin, (Hm u v). done.
Qed.

(** [transpose] edge by edge: in the transpose of a well-formed, mirrored
    directed graph there is an edge from [u] to [v] exactly if the graph has
    an edge from [v] to [u], as often as there; the transpose is mirrored
    again. *)
Theorem transpose_hasEdge_reversed (G : Graph) :
  wellFormed G → isDirected G = true → mirrored G →
  ∃ GTranspose,
    transpose G = Returns GTranspose
    ∧ (∀ u v, adjacencyCount GTranspose u v = adjacencyCount G v u)
    ∧ (∀ u v, hasEdge GTranspose u v = hasEdge G v u)
    ∧ mirrored GTranspose.
Proof.
  intros Hwf Hdir Hm. exists (transposeResult G).
  split; [by apply transpose_returns|].
  assert (Hout : ∀ u v, adjacencyCount (transposeResult G) u v = inAdjacencyCount G u v).
  { intros u v. unfold adjacencyCount, inAdjacencyCount.
    rewrite outAdj_transposeResult. destruct (hasNode G u) eqn:Hu.
    - by rewrite (count_fmap_neighbor (observed G)).
    - by rewrite (wellFormed_hole_in G u Hwf Hu). }
  assert (Hin : ∀ u v, inAdjacencyCount (transposeResult G) u v = adjacencyCount G u v).
  { intros u v. unfold adjacencyCount, inAdjacencyCount.
    rewrite inAdj_transposeResult. destruct (hasNode G u) eqn:Hu.
    - by rewrite (count_fmap_neighbor (observed G)).
    - by rewrite (wellFormed_hole_out G u Hwf Hu). }
  assert (Hcount : ∀ u v, adjacencyCount (transposeResult G) u v = adjacencyCount G v u).
  { intros u v. by rewrite Hout, (Hm v u). }
  pose proof (wellFormed_transposeResult G Hwf Hdir) as HwfT.
  split_and!.
  - exact Hcount.
  - intros u v.
    pose proof (hasEdge_neighborRange (transposeResult G) u v HwfT) as H1.
    pose proof (hasEdge_neighborRange G v u Hwf) as H2.
    pose proof (adjacencyCount_zero (transposeResult G) u v) as H3.
    pose proof (adjacencyCount_zero G v u) as H4.
    specialize (Hcount u v). unfold neighborRange in *.
    destruct (hasEdge (transposeResult G) u v) eqn:Ht; destruct (hasEdge G v u) eqn:Hg;
      try done; exfalso.
    + assert (Hno : u ∉ neighbor <$> outAdj G v) by (intros Hc%H2; done).
      apply H4 in Hno. rewrite Hno in Hcount. apply H3 in Hcount. apply Hcount.
      by apply H1.
    + assert (Hno : v ∉ neighbor <$> outAdj (transposeResult G) u) by (intros Hc%H1; done).
      apply H3 in Hno. rewrite Hno in Hcount. symmetry in Hcount. apply H4 in Hcount.
      apply Hcount. by apply H2.
  - intros u v. by rewrite Hout, Hin, (Hm v u).
Qed.

Lemma transpose_hasEdge_reversed_witness :
  wellFormed scenarioGraph ∧ isDirected scenarioGraph = true ∧ mirrored scenarioGraph
  ∧ ∃ GTranspose,
      transpose scenarioGraph = Returns GTranspose
      ∧ hasEdge scenarioGraph 3 0 = true
      ∧ hasEdge GTranspose 0 3 = true
      ∧ hasEdge GTranspose 3 0 = false.
Proof.
  assert (Hm : mirrored scenarioGraph).
  { unfold scenarioGraph.
    apply mirrored_addEdge; [done|simpl; lia|simpl; lia|].
    apply mirrored_addEdge; [done|simpl; lia|simpl; lia|].
    apply mirrored_addEdge; [done|simpl; lia|simpl; lia|].
    apply mirrored_removeNode, mirrored_newGraph. }
  destruct (transpose_hasEdge_reversed scenarioGraph wellFormed_scenarioGraph eq_refl Hm)
    as (GT & Hret & _ & Hedge & _).
  split; [exact wellFormed_scenarioGraph|]. split; [reflexivity|]. split; [exact Hm|].
  exists GT. split; [exact Hret|]. split; [reflexivity|].
  split; [by rewrite (Hedge 0 3)|by rewrite (Hedge 3 0)].
Defined.

(** ** Ids of the node set that are not nodes of the graph *)

Lemma subgraphNodesOnly_ext (G : Graph) (r r' : node → nat) :
  (∀ u, u < upperNodeIdBound G → r u = r' u) →
  subgraphNodesOnly G r = subgraphNodesOnly G r'.
Proof.
  intros Hrel. unfold subgraphNodesOnly.
  rewrite (filter_ext_in (λ u, r u = 0) (λ u, r' u = 0)).
  - rewrite (tabulate_ext _ (λ u, bool_decide (r u ≠ 0)) (λ u, bool_decide (r' u ≠ 0)));
      [done|].
    intros u Hu. by rewrite (Hrel u Hu).
  - intros u Hu%elem_of_seq. rewrite (Hrel u) by lia. done.
Qed.

(** [subgraphFromNodes] without the neighbour flags looks at the node set
    only below the id bound of the graph: two node sets with the same
    members below the bound give the same graph, so ids at or above the
    bound are ignored.  Below the bound the nodes of the result are the
    members of the node set, whether they are nodes of the graph or not: a
    removed node of the graph that is in the node set is a node of the
    result, without any edge. *)
Theorem subgraphFromNodes_ids_outside_graph (G : Graph) (nodes nodes' : gset node) :
  wellFormed G →
  (∀ u, u < upperNodeIdBound G → u ∈ nodes ↔ u ∈ nodes') →
  let S := subgraphFromNodes G nodes false false in
  S = subgraphFromNodes G nodes' false false
  ∧ (∀ u, hasNode S u = bool_decide (u < upperNodeIdBound G) && bool_decide (u ∈ nodes))
  ∧ (∀ u, u ∈ nodes → u < upperNodeIdBound G → hasNode G u = false →
          hasNode S u = true ∧ outAdj S u = [] ∧ inAdj S u = []).
Proof.
  intros Hwf Hsame S.
  assert (Hrel : ∀ u, u < upperNodeIdBound G →
                      isRelevantNode nodes ∅ u = isRelevantNode nodes' ∅ u).
  { intros u Hu. rewrite !isRelevantNode_no_neighbors.
    by rewrite (bool_decide_ext _ _ (Hsame u Hu)). }
  assert (Hnode : ∀ u, hasNode S u
                       = bool_decide (u < upperNodeIdBound G) && bool_decide (u ∈ nodes)).
  { intros u. unfold S. rewrite hasNode_subgraphFromNodes.
    change (subgraphNeighbors _ _ false false) with (∅ : gset node).
    rewrite isRelevantNode_no_neighbors. f_equal.
    destruct (bool_decide (u ∈ nodes)); [by apply bool_decide_eq_true_2|].
    apply bool_decide_eq_false_2. intros Hne. by apply Hne. }
  split_and!; [|exact Hnode|].
  - unfold S. rewrite !subgraphFromNodes_unfold.
    change (subgraphNeighbors _ _ false false) with (∅ : gset node).
    rewrite (subgraphNodesOnly_ext G _ _ Hrel).
    apply foldl_ext_in. intros s e He.
    destruct (wellFormed_edge_ends G e Hwf He) as [Hu%hasNode_lt Hv%hasNode_lt].
    unfold keepsEdge. by rewrite (Hrel _ Hu), (Hrel _ Hv).
  - intros u Hu Hlt Hhole.
    assert (Hex : hasNode S u = true).
    { rewrite Hnode. by rewrite !bool_decide_eq_true_2. }
    split; [exact Hex|].
    unfold S. rewrite subgraphFromNodes_unfold.
    destruct (foldl_addEdge_untouched
                (keepsEdge (isRelevantNode nodes
                              (subgraphNeighbors G nodes false false)))
                (edges G)
                (subgraphNodesOnly G (isRelevantNode nodes
                                        (subgraphNeighbors G nodes false false))) u)
      as [Hout Hin].
    { intros e He. destruct (wellFormed_edge_ends G e Hwf He) as [H1 H2].
      split; intros Heq; rewrite Heq in *; congruence. }
    split.
    + etrans; [exact Hout|]. apply outAdj_subgraphNodesOnly.
    + etrans; [exact Hin|]. apply inAdj_subgraphNodesOnly.
Qed.

(** The scenario graph, whose node 2 was removed and whose id bound is 4,
    with the node sets {2, 3, 7} and {2, 3}: the same result, in which 2 is
    a node and 7 is not. *)
Lemma subgraphFromNodes_ids_outside_graph_witness :
  let S := subgraphFromNodes scenarioGraph {[2; 3; 7]} false false in
  wellFormed scenarioGraph
  ∧ hasNode scenarioGraph 2 = false
  ∧ S = subgraphFromNodes scenarioGraph {[2; 3]} false false
  ∧ hasNode S 2 = true
  ∧ hasNode S 7 = false
  ∧ outAdj S 2 = [].
Proof.
  assert (Hsame : ∀ u, u < upperNodeIdBound scenarioGraph →
                       u ∈ ({[2; 3; 7]} : gset node) ↔ u ∈ ({[2; 3]} : gset node)).
  { intros u Hu. change (upperNodeIdBound scenarioGraph) with 4 in Hu.
    rewrite !elem_of_union, !elem_of_singleton. lia. }
  destruct (subgraphFromNodes_ids_outside_graph scenarioGraph {[2; 3; 7]} {[2; 3]}
              wellFormed_scenarioGraph Hsame) as (Heq & Hnode & Hhole).
  split; [exact wellFormed_scenarioGraph|]. split; [reflexivity|].
  split; [exact Heq|].
  destruct (Hhole 2) as (H2 & Hout & _);
    [rewrite !elem_of_union, !elem_of_singleton; lia|simpl; lia|reflexivity|].
  split; [exact H2|]. split; [|exact Hout].
  rewrite Hnode. reflexivity.
Defined.

(** ** Compacting with the random node ids *)

Lemma hasEdge_same_count (g g' : Graph) (u v u' v' : node) :
  wellFormed g → wellFormed g' →
  adjacencyCount g u v = adjacencyCount g' u' v' →
  hasEdge g u v = hasEdge g' u' v'.
Proof.
  intros Hwf Hwf' Hc.
  pose proof (adjacencyCount_zero g u v) as H1.
  pose proof (adjacencyCount_zero g' u' v') as H2.
  pose proof (hasEdge_neighborRange g u v Hwf) as H3.
  pose proof (hasEdge_neighborRange g' u' v' Hwf') as H4.
  unfold neighborRange in *.
  destruct (hasEdge g u v) eqn:Hc1; destruct (hasEdge g' u' v') eqn:Hc2;
    try done; exfalso.
  - assert (Hout : v' ∉ neighbor <$> outAdj g' u') by (intros Hin%H4; done).
    apply H2 in Hout. rewrite Hout in Hc. apply H1 in Hc. apply Hc. by apply H3.
  - assert (Hout : v ∉ neighbor <$> outAdj g u) by (intros Hin%H3; done).
    apply H1 in Hout. rewrite Hout in Hc. symmetry in Hc. apply H2 in Hc.
    apply Hc. by apply H4.
Qed.

(** [getCompactedGraph] with any id map that sends the nodes of the graph
    to distinct ids below its size. *)
Lemma getCompactedGraph_relabel (G : Graph) (nodeIdMap : gmap node node) :
  wellFormed G →
  (∀ v, hasNode G v = true → ∃ i, nodeIdMap !! v = Some i ∧ i < size nodeIdMap) →
  (∀ u v i, hasNode G u = true → hasNode G v = true →
            nodeIdMap !! u = Some i → nodeIdMap !! v = Some i → u = v) →
  let Gc := getCompactedGraph G nodeIdMap in
  wellFormed Gc
  ∧ upperNodeIdBound Gc = size nodeIdMap
  ∧ (∀ c, hasNode Gc c = bool_decide (c < size nodeIdMap))
  ∧ isWeighted Gc = isWeighted G
  ∧ isDirected Gc = isDirected G
  ∧ (∀ u v, hasNode G u = true → hasNode G v = true →
            adjacencyCount Gc (mapAt nodeIdMap u) (mapAt nodeIdMap v)
            = adjacencyCount G u v).
Proof.
  intros Hwf Hdense Hinj Gc.
  set (f := λ u : node, default 0 (nodeIdMap !! u)).
  assert (Hflt : ∀ v, hasNode G v = true → f v < size nodeIdMap).
  { intros v (i & Hi & Hlt)%Hdense. unfold f. by rewrite Hi. }
  assert (Hfinj : ∀ u v, hasNode G u = true → hasNode G v = true → f u = f v → u = v).
  { intros u v Hu Hv Heq.
    destruct (Hdense u Hu) as (i & Hi & _). destruct (Hdense v Hv) as (j & Hj & _).
    unfold f in Heq. rewrite Hi, Hj in Heq. simpl in Heq. subst j.
    by apply (Hinj u v i). }
  assert (Hends : ∀ e, e ∈ edges G → hasNode G e.1.1 = true ∧ hasNode G e.1.2 = true).
  { intros e He. by apply wellFormed_edge_ends. }
  destruct (foldl_addEdge_count (λ e, f e.1.1) (λ e, f e.1.2)
              (λ e : node * node * edgeweight, e.2) (edges G)
              (newGraph (size nodeIdMap) (isWeighted G) (isDirected G)))
    as (Hz' & Hw' & Hd' & Hex' & _ & Hcount).
  { intros e He. destruct (Hends e He) as [H1 H2]. unfold newGraph. graph_simpl.
    rewrite length_replicate. split; by apply Hflt. }
  assert (Hz : upperNodeIdBound Gc = size nodeIdMap) by exact Hz'.
  assert (Hex : exists_ Gc
                = exists_ (newGraph (size nodeIdMap) (isWeighted G) (isDirected G)))
    by exact Hex'.
  assert (Hcalls : ∀ u v, hasNode G u = true → hasNode G v = true →
    callsCount (λ e : node * node * edgeweight, f e.1.1) (λ e, f e.1.2) (edges G)
               (f u) (f v)
    = if useEdgeInIteration G u v then adjacencyCount G u v else 0).
  { intros u v Hu Hv.
    rewrite <-callsCount_edges by (destruct Hwf as (_ & -> & _); lia).
    rewrite <-(list_fmap_id (edges G)) at 2.
    apply callsCount_ext_in. intros e He. destruct (Hends e He) as [H1 H2].
    simpl. split.
    - intros [? ?]. split; by apply Hfinj.
    - intros [-> ->]. done. }
  assert (Hgc : ∀ c c',
    adjacencyCount Gc c c'
    = callsCount (λ e : node * node * edgeweight, f e.1.1) (λ e, f e.1.2) (edges G) c c'
      + (if isDirected G then 0
         else if decide (c = c') then 0
         else callsCount (λ e : node * node * edgeweight, f e.1.1) (λ e, f e.1.2)
                         (edges G) c' c)).
  { intros c c'. etrans; [apply (Hcount c c')|]. by rewrite adjacencyCount_newGraph. }
  split_and!; [|exact Hz| |exact Hw'|exact Hd'|].
  - apply (wellFormed_foldl_addEdge (λ _ _, true) (λ e, f e.1.1) (λ e, f e.1.2)
             (λ e : node * node * edgeweight, e.2) (edges G)
             (newGraph (size nodeIdMap) (isWeighted G) (isDirected G))).
    + apply wellFormed_newGraph.
    + intros e s' He _. destruct (Hends e He) as [H1 H2].
      rewrite !hasNode_newGraph. split; apply bool_decide_eq_true_2; by apply Hflt.
  - intros c. unfold hasNode. rewrite Hz, Hex.
    exact (hasNode_newGraph (size nodeIdMap) (isWeighted G) (isDirected G) c).
  - intros u v Hu Hv. change (mapAt nodeIdMap u) with (f u).
    change (mapAt nodeIdMap v) with (f v).
    rewrite Hgc, !Hcalls by done. unfold useEdgeInIteration.
    destruct (isDirected G) eqn:Hdir; simpl; [lia|].
    pose proof (wellFormed_symmetric G Hwf Hdir u v) as Hsym.
    destruct (decide (f u = f v)) as [Heq|Hne].
    + apply Hfinj in Heq as ->; [|done..].
      rewrite bool_decide_eq_true_2 by lia. lia.
    + assert (u ≠ v) by (intros ->; done).
      destruct (decide (v ≤ u)) as [Hle|Hgt].
      * rewrite (bool_decide_eq_true_2 (v ≤ u)), (bool_decide_eq_false_2 (u ≤ v)) by lia.
        lia.
      * rewrite (bool_decide_eq_false_2 (v ≤ u)), (bool_decide_eq_true_2 (u ≤ v)) by lia.
        lia.
Qed.

(** [getCompactedGraph] with the map of [getRandomContinuousNodeIds] (the
    shuffle being a permutation of the node vector): the result is
    well-formed, its nodes are the ids below the node count of the graph, it
    has the flags of the graph, and it is the graph renamed by the map: between
    the new ids of two nodes there are as many adjacency records, and so an
    edge, exactly as between the two nodes in the graph.  The shuffled vector
    lists the nodes by their new id. *)
Theorem getCompactedGraph_random_ids_rename (shuffle : list node → list node)
    (G : Graph) :
  wellFormed G → shuffle (nodes G) ≡ₚ nodes G →
  let nodeIdMap := getRandomContinuousNodeIds shuffle G in
  let Gc := getCompactedGraph G nodeIdMap in
  wellFormed Gc
  ∧ upperNodeIdBound Gc = numberOfNodes G
  ∧ (∀ c, hasNode Gc c = bool_decide (c < numberOfNodes G))
  ∧ isWeighted Gc = isWeighted G
  ∧ isDirected Gc = isDirected G
  ∧ (∀ u, hasNode G u = true → shuffle (nodes G) !! mapAt nodeIdMap u = Some u)
  ∧ (∀ u v, hasNode G u = true → hasNode G v = true →
            adjacencyCount Gc (mapAt nodeIdMap u) (mapAt nodeIdMap v)
            = adjacencyCount G u v)
  ∧ (∀ u v, hasNode G u = true → hasNode G v = true →
            hasEdge Gc (mapAt nodeIdMap u) (mapAt nodeIdMap v) = hasEdge G u v).
Proof.
  intros Hwf Hperm nodeIdMap Gc.
  assert (Hn : numberOfNodes G = length (nodes G))
    by (by destruct Hwf as (_ & _ & _ & ? & _)).
  destruct (getRandomContinuousNodeIds_lookup shuffle G Hperm) as [Hsz Hlk].
  fold nodeIdMap in Hsz, Hlk.
  assert (Hsome : ∀ v, hasNode G v = true →
                       ∃ i, nodeIdMap !! v = Some i ∧ i < size nodeIdMap).
  { intros v Hv. apply elem_of_nodes in Hv. rewrite <-Hperm in Hv.
    apply list_elem_of_lookup in Hv as [i Hi]. exists i. split; [by apply Hlk|].
    rewrite Hsz, <-Hperm. by eapply lookup_lt_Some. }
  destruct (getCompactedGraph_relabel G nodeIdMap Hwf Hsome)
    as (Hwfc & Hz & Hnode & Hw & Hd & Hcount).
  { intros u v i _ _ Hu%Hlk Hv%Hlk. congruence. }
  fold Gc in Hwfc, Hz, Hnode, Hw, Hd, Hcount.
  rewrite Hn, <-Hsz.
  split_and!; [exact Hwfc|exact Hz|exact Hnode|exact Hw|exact Hd| |exact Hcount|].
  - intros u (i & Hi & _)%Hsome. unfold mapAt. rewrite Hi. simpl. by apply Hlk.
  - intros u v Hu Hv. apply hasEdge_same_count; [done..|]. by apply Hcount.
Qed.

(** The scenario graph with the shuffle that reverses the vector: the nodes
    3, 1, 0 get the ids 0, 1, 2, and the edge from 3 to 0 becomes the edge
    from 0 to 2. *)
Lemma getCompactedGraph_random_ids_rename_witness :
  let nodeIdMap := getRandomContinuousNodeIds reverse scenarioGraph in
  let Gc := getCompactedGraph scenarioGraph nodeIdMap in
  wellFormed scenarioGraph
  ∧ reverse (nodes scenarioGraph) ≡ₚ nodes scenarioGraph
  ∧ wellFormed Gc
  ∧ mapAt nodeIdMap 3 = 0 ∧ mapAt nodeIdMap 0 = 2
  ∧ hasEdge scenarioGraph 3 0 = true
  ∧ hasEdge Gc 0 2 = true
  ∧ hasEdge Gc 2 0 = false.
Proof.
  destruct (getCompactedGraph_random_ids_rename reverse scenarioGraph
              wellFormed_scenarioGraph (reverse_Permutation _))
    as (Hwfc & _ & _ & _ & _ & _ & _ & Hedge).
  split; [exact wellFormed_scenarioGraph|].
  split; [apply reverse_Permutation|].
  split; [exact Hwfc|].
  split; [by vm_compute|]. split; [by vm_compute|]. split; [reflexivity|].
  split.
  - exact (Hedge 3 0 eq_refl eq_refl).
  - exact (Hedge 0 3 eq_refl eq_refl).
Defined.
